(** * GenerativeAIApp: the command gate, input validation, code-block
      extraction, document assembly and the background workers

    A shallow embedding of the logic of [GenerativeAIApp.py].  Python [str]
    values are lists of characters; a character is an 8-bit code point
    (the Latin-1 range of Unicode), with [str.isspace], [str.lower] and the
    [\w] class of the [re] module tabulated for that range.  The widgets,
    the worker pool and the provider are an explicit state and explicit
    oracles; a worker and the slots of its signals run one after the other,
    and the timers of the two animations are not modelled: an animation is
    its final text. *)

From Stdlib Require Import String Ascii List Bool Arith ZArith Lia.
Import ListNotations.

Set Implicit Arguments.

Open Scope string_scope.
Open Scope nat_scope.
Open Scope list_scope.

(** ** Python strings *)

Definition str := list ascii.

Coercion list_ascii_of_string : string >-> list.

Module Py.

Definition ord (c : ascii) : nat := nat_of_ascii c.

Definition between (lo hi : nat) (c : ascii) : bool :=
  (lo <=? ord c) && (ord c <=? hi).

Definition chr_eqb (a b : ascii) : bool := Ascii.eqb a b.

(** [str.isspace] on one character, which is also the class [\s] of a
    [str] pattern: TAB..CR, FS..US, SPACE, NEL and NBSP. *)
Definition isspace (c : ascii) : bool :=
  between 9 13 c || between 28 31 c || (ord c =? 32)
  || (ord c =? 133) || (ord c =? 160).

(** The class [\w] of a [str] pattern: alphanumeric or underscore. *)
Definition isword (c : ascii) : bool :=
  between 48 57 c || between 65 90 c || (ord c =? 95) || between 97 122 c
  || (ord c =? 170) || (ord c =? 178) || (ord c =? 179) || (ord c =? 181)
  || (ord c =? 185) || (ord c =? 186) || between 188 190 c
  || between 192 214 c || between 216 246 c || between 248 255 c.

Definition lower_chr (c : ascii) : ascii :=
  if between 65 90 c || (between 192 222 c && negb (ord c =? 215))
  then ascii_of_nat (ord c + 32) else c.

(** [str.upper] on one character; the three lower-case letters of the range
    whose upper case lies outside it (sharp s, micro sign, y with diaeresis)
    are left as they are. *)
Definition upper_chr (c : ascii) : ascii :=
  if between 97 122 c || (between 224 254 c && negb (ord c =? 247))
  then ascii_of_nat (ord c - 32) else c.

Definition lower (s : str) : str := map lower_chr s.
Definition upper (s : str) : str := map upper_chr s.

Fixpoint lstrip (s : str) : str :=
  match s with
  | c :: t => if isspace c then lstrip t else s
  | [] => []
  end.

Definition rstrip (s : str) : str := rev (lstrip (rev s)).

(** [s.strip()] *)
Definition strip (s : str) : str := rstrip (lstrip s).

(** [s.startswith(p)] *)
Fixpoint startswith (p s : str) : bool :=
  match p, s with
  | [], _ => true
  | a :: p', b :: s' => chr_eqb a b && startswith p' s'
  | _ :: _, [] => false
  end.

(** [p in s] *)
Fixpoint contains (p s : str) : bool :=
  startswith p s ||
  match s with
  | _ :: t => contains p t
  | [] => false
  end.

Fixpoint eqb (s t : str) : bool :=
  match s, t with
  | [], [] => true
  | a :: s', b :: t' => chr_eqb a b && eqb s' t'
  | _, _ => false
  end.

(** [bool(s)]: a string is true when it is not empty *)
Definition truthy (s : str) : bool :=
  match s with [] => false | _ :: _ => true end.

(** [any(f(x) for x in l)] *)
Definition any {A} (f : A -> bool) (l : list A) : bool := existsb f l.

(** [str(n)] for a non-negative integer *)
Fixpoint digits (fuel n : nat) (acc : str) : str :=
  match fuel with
  | 0 => acc
  | S f =>
      let d := ascii_of_nat (48 + n mod 10) in
      if n <? 10 then d :: acc else digits f (n / 10) (d :: acc)
  end.

Definition str_of_nat (n : nat) : str := digits (S n) n [].

(** [os.path.join(a, b)] on a POSIX system *)
Definition path_join (a b : str) : str :=
  if startswith "/" b then b
  else match rev a with
       | [] => b
       | c :: _ => if chr_eqb c "/"%char then a ++ b else a ++ "/" ++ b
       end.

(** The exceptions the program raises or meets; [str(e)] is the message. *)
Inductive exn : Type :=
| ValueError (msg : str)
| SecurityError (msg : str)
| ReError (msg : str)        (* [re.error] *)
| OSError (msg : str)
| OtherError (msg : str).    (* any other subclass of [Exception] *)

Definition str_of_exn (e : exn) : str :=
  match e with
  | ValueError m | SecurityError m | ReError m | OSError m | OtherError m => m
  end.

End Py.

(** ** The fragment of [re] the program uses

    Python's matcher is a backtracking one: alternatives are tried left to
    right, a greedy star takes as much as it can and gives back, a lazy star
    takes as little as it can and extends.  The matcher below is written in
    continuation-passing style: the continuation is the rest of the pattern,
    and [None] makes the matcher backtrack. *)

Module Re.

Record flags := { IGNORECASE : bool; DOTALL : bool }.

(** [flags=re.IGNORECASE] and [flags=re.DOTALL] *)
Definition ignore_case : flags := {| IGNORECASE := true; DOTALL := false |}.
Definition dotall : flags := {| IGNORECASE := false; DOTALL := true |}.

Inductive atom : Type :=
| Chr (c : ascii)      (* a literal character *)
| Dot                  (* [.] *)
| Space.               (* [\s] *)

Inductive regex : Type :=
| Eps
| One (a : atom)
| WordB                               (* [\b] *)
| Cat (r1 r2 : regex)
| Alt (r1 r2 : regex)                 (* [r1|r2] *)
| Star (greedy : bool) (a : atom)     (* [a*] and [a*?] *)
| Group (n : nat) (r : regex).        (* the [n]-th capturing group *)

(** a literal string *)
Fixpoint lit (s : str) : regex :=
  match s with
  | [] => Eps
  | c :: t => Cat (One (Chr c)) (lit t)
  end.

Definition atom_match (fl : flags) (a : atom) (c : ascii) : bool :=
  match a with
  | Chr x =>
      if IGNORECASE fl then Py.chr_eqb (Py.lower_chr c) (Py.lower_chr x)
      else Py.chr_eqb c x
  | Dot => DOTALL fl || negb (Py.chr_eqb c "010"%char)
  | Space => Py.isspace c
  end.

Definition word_before (prev : option ascii) : bool :=
  match prev with Some c => Py.isword c | None => false end.

Definition word_after (s : str) : bool :=
  match s with c :: _ => Py.isword c | [] => false end.

(** [\b]: exactly one side of the position is a word character *)
Definition at_boundary (prev : option ascii) (s : str) : bool :=
  xorb (word_before prev) (word_after s).

(** The text of [s] a literal goes over, and the text after it. *)
Fixpoint lit_match (fl : flags) (w s : str) : option (str * str) :=
  match w with
  | [] => Some ([], s)
  | x :: w' =>
      match s with
      | c :: t =>
          if atom_match fl (Chr x) c then
            match lit_match fl w' t with
            | Some (mid, rest) => Some (c :: mid, rest)
            | None => None
            end
          else None
      | [] => None
      end
  end.

(** Captured groups, the latest binding first. *)
Definition captures := list (nat * str).

Fixpoint group (n : nat) (caps : captures) : option str :=
  match caps with
  | [] => None
  | (m, s) :: rest => if m =? n then Some s else group n rest
  end.

Section Matcher.

Variable fl : flags.
Variable A : Type.

(** A position in the subject is the character before it (for [\b]) and the
    text from it on. *)
Definition cont := option ascii -> str -> captures -> option A.

Fixpoint star_greedy (a : atom) (k : option ascii -> str -> option A)
    (prev : option ascii) (s : str) : option A :=
  match s with
  | c :: t =>
      if atom_match fl a c then
        match star_greedy a k (Some c) t with
        | Some x => Some x
        | None => k prev s
        end
      else k prev s
  | [] => k prev s
  end.

Fixpoint star_lazy (a : atom) (k : option ascii -> str -> option A)
    (prev : option ascii) (s : str) : option A :=
  match k prev s with
  | Some x => Some x
  | None =>
      match s with
      | c :: t => if atom_match fl a c then star_lazy a k (Some c) t else None
      | [] => None
      end
  end.

Fixpoint exec (r : regex) (prev : option ascii) (s : str) (caps : captures)
    (k : cont) : option A :=
  match r with
  | Eps => k prev s caps
  | One a =>
      match s with
      | c :: t => if atom_match fl a c then k (Some c) t caps else None
      | [] => None
      end
  | WordB => if at_boundary prev s then k prev s caps else None
  | Cat r1 r2 => exec r1 prev s caps (fun p s' c => exec r2 p s' c k)
  | Alt r1 r2 =>
      match exec r1 prev s caps k with
      | Some x => Some x
      | None => exec r2 prev s caps k
      end
  | Star true a => star_greedy a (fun p s' => k p s' caps) prev s
  | Star false a => star_lazy a (fun p s' => k p s' caps) prev s
  | Group n r1 =>
      exec r1 prev s caps
        (fun p s' c => k p s' ((n, firstn (length s - length s') s) :: c))
  end.

End Matcher.

(** The character before the position reached by going over [mid]. *)
Definition step_over (prev : option ascii) (mid : str) : option ascii :=
  fold_left (fun _ c => Some c) mid prev.

(** The ways a pattern can match, without the order the matcher tries them
    in: from the position [(prev, s)] with the groups [caps] to the position
    [(prev', s')] with the groups [caps']. *)
Inductive Matches (fl : flags)
  : regex -> option ascii -> str -> captures ->
    option ascii -> str -> captures -> Prop :=
| M_Eps p s c : Matches fl Eps p s c p s c
| M_One a ch t p c :
    atom_match fl a ch = true ->
    Matches fl (One a) p (ch :: t) c (Some ch) t c
| M_WordB p s c :
    at_boundary p s = true -> Matches fl WordB p s c p s c
| M_Cat r1 r2 p s c p1 s1 c1 p2 s2 c2 :
    Matches fl r1 p s c p1 s1 c1 ->
    Matches fl r2 p1 s1 c1 p2 s2 c2 ->
    Matches fl (Cat r1 r2) p s c p2 s2 c2
| M_AltL r1 r2 p s c p' s' c' :
    Matches fl r1 p s c p' s' c' -> Matches fl (Alt r1 r2) p s c p' s' c'
| M_AltR r1 r2 p s c p' s' c' :
    Matches fl r2 p s c p' s' c' -> Matches fl (Alt r1 r2) p s c p' s' c'
| M_StarStop g a p s c : Matches fl (Star g a) p s c p s c
| M_StarStep g a ch t p c p' s' c' :
    atom_match fl a ch = true ->
    Matches fl (Star g a) (Some ch) t c p' s' c' ->
    Matches fl (Star g a) p (ch :: t) c p' s' c'
| M_Group n r p s c p' s' c' :
    Matches fl r p s c p' s' c' ->
    Matches fl (Group n r) p s c p' s'
            ((n, firstn (length s - length s') s) :: c').

(** A match: the text it consumed, the position after it, its groups. *)
Record rmatch := {
  whole : str;
  last_chr : option ascii;
  after : str;
  groups : captures
}.

Definition match_at (fl : flags) (r : regex) (prev : option ascii) (s : str)
  : option rmatch :=
  exec fl r prev s []
    (fun p s' c =>
       Some {| whole := firstn (length s - length s') s;
               last_chr := p; after := s'; groups := c |}).

(** [re.search]: the leftmost position where the pattern matches *)
Fixpoint search (fl : flags) (r : regex) (prev : option ascii) (s : str)
  : option rmatch :=
  match match_at fl r prev s with
  | Some m => Some m
  | None =>
      match s with
      | c :: t => search fl r (Some c) t
      | [] => None
      end
  end.

Definition re_search (fl : flags) (r : regex) (text : str) : option rmatch :=
  search fl r None text.

(** [re.findall] and [re.sub] go through the text from left to right: where
    the pattern matches, the match is taken and the scan goes on after it;
    elsewhere the scan moves one character on.  The patterns of this program
    contain a literal, so that no match is empty; after an empty match the
    scan moves one character on as well.  Every step but the last consumes a
    character, so that [S (length text)] steps are enough. *)
Fixpoint findall_loop (fl : flags) (r : regex) (fuel : nat)
    (prev : option ascii) (s : str) : list rmatch :=
  match fuel with
  | 0 => []
  | S f =>
      let next :=
        match s with
        | c :: t => findall_loop fl r f (Some c) t
        | [] => []
        end in
      match match_at fl r prev s with
      | Some m =>
          m :: match whole m with
               | _ :: _ => findall_loop fl r f (last_chr m) (after m)
               | [] => next
               end
      | None => next
      end
  end.

Definition finditer (fl : flags) (r : regex) (text : str) : list rmatch :=
  findall_loop fl r (S (length text)) None text.

(** [re.findall] for a pattern with one group: the text of group 1 of each
    match (the empty string when the group took no part) *)
Definition re_findall (fl : flags) (r : regex) (text : str) : list str :=
  map (fun m => match group 1 (groups m) with Some g => g | None => [] end)
      (finditer fl r text).

(** *** Replacement templates

    [re.sub] processes the backslash escapes of a replacement string:
    [\1] and [\g<1>] refer to a group, [\n] and its like stand for a
    control character, three octal digits for a character, an unknown escape
    of an ASCII letter is an error, and any other escaped character is kept
    with its backslash. *)

Inductive tpart : Type :=
| TChr (c : ascii)
| TRef (n : nat).

Definition backslash : ascii := "\"%char.

Definition isdigit (c : ascii) : bool := Py.between 48 57 c.
Definition isoctdigit (c : ascii) : bool := Py.between 48 55 c.
Definition digit_val (c : ascii) : nat := Py.ord c - 48.
Definition isasciiletter (c : ascii) : bool :=
  Py.between 65 90 c || Py.between 97 122 c.

(** the table [ESCAPES] of the parser *)
Definition escapes (c : ascii) : option ascii :=
  if Py.chr_eqb c "a" then Some "007"%char
  else if Py.chr_eqb c "b" then Some "008"%char
  else if Py.chr_eqb c "f" then Some "012"%char
  else if Py.chr_eqb c "n" then Some "010"%char
  else if Py.chr_eqb c "r" then Some "013"%char
  else if Py.chr_eqb c "t" then Some "009"%char
  else if Py.chr_eqb c "v" then Some "011"%char
  else if Py.chr_eqb c backslash then Some backslash
  else None.

Definition int_of_digits (s : str) : nat :=
  fold_left (fun n c => 10 * n + digit_val c) s 0.

Definition tcons (p : tpart) (r : Py.exn + list tpart)
  : Py.exn + list tpart :=
  match r with
  | inl e => inl e
  | inr l => inr (p :: l)
  end.

Definition bad_reference : Py.exn := Py.ReError "invalid group reference".

(** [name] is [Some acc] inside [\g<...>], where [acc] is the part of the
    name read so far.  A name that is not a decimal number is an error in
    a pattern without named groups: [re.error] for a malformed name and
    [IndexError] for an unknown identifier, which are both [ReError] here;
    the messages are shortened.  Python before 3.12 still accepts a signed
    or spaced number as a name. *)
Fixpoint parse_template (ngroups : nat) (name : option str) (s : str)
  : Py.exn + list tpart :=
  match name with
  | Some acc =>
      match s with
      | [] => inl (Py.ReError "missing >, unterminated name")
      | c :: t =>
          if Py.chr_eqb c ">" then
            match acc with
            | [] => inl (Py.ReError "missing group name")
            | _ :: _ =>
                if forallb isdigit acc then
                  if int_of_digits acc <=? ngroups
                  then tcons (TRef (int_of_digits acc))
                             (parse_template ngroups None t)
                  else inl bad_reference
                else inl (Py.ReError "unknown or bad group name")
            end
          else parse_template ngroups (Some (acc ++ [c])) t
      end
  | None =>
      match s with
      | [] => inr []
      | c :: t =>
          if negb (Py.chr_eqb c backslash)
          then tcons (TChr c) (parse_template ngroups None t)
          else
            match t with
            | [] => inl (Py.ReError "bad escape (end of pattern)")
            | e :: t1 =>
                if Py.chr_eqb e "g" then
                  match t1 with
                  | b :: t2 =>
                      if Py.chr_eqb b "<"
                      then parse_template ngroups (Some []) t2
                      else inl (Py.ReError "missing <")
                  | [] => inl (Py.ReError "missing <")
                  end
                else if Py.chr_eqb e "0" then
                  match t1 with
                  | d1 :: t2 =>
                      if isoctdigit d1 then
                        match t2 with
                        | d2 :: t3 =>
                            if isoctdigit d2
                            then tcons (TChr (ascii_of_nat
                                         (8 * digit_val d1 + digit_val d2)))
                                       (parse_template ngroups None t3)
                            else tcons (TChr (ascii_of_nat (digit_val d1)))
                                       (parse_template ngroups None t2)
                        | [] => inr [TChr (ascii_of_nat (digit_val d1))]
                        end
                      else tcons (TChr zero) (parse_template ngroups None t1)
                  | [] => inr [TChr zero]
                  end
                else if isdigit e then
                  match t1 with
                  | d1 :: t2 =>
                      if isdigit d1 then
                        match t2 with
                        | d2 :: t3 =>
                            if isoctdigit e && isoctdigit d1 && isoctdigit d2
                            then
                              let v := 64 * digit_val e + 8 * digit_val d1
                                       + digit_val d2 in
                              if 255 <? v
                              then inl (Py.ReError "octal escape value outside of range 0-0o377")
                              else tcons (TChr (ascii_of_nat v))
                                         (parse_template ngroups None t3)
                            else
                              if 10 * digit_val e + digit_val d1 <=? ngroups
                              then tcons (TRef (10 * digit_val e + digit_val d1))
                                         (parse_template ngroups None t2)
                              else inl bad_reference
                        | [] =>
                            if 10 * digit_val e + digit_val d1 <=? ngroups
                            then inr [TRef (10 * digit_val e + digit_val d1)]
                            else inl bad_reference
                        end
                      else
                        if digit_val e <=? ngroups
                        then tcons (TRef (digit_val e))
                                   (parse_template ngroups None t1)
                        else inl bad_reference
                  | [] =>
                      if digit_val e <=? ngroups
                      then inr [TRef (digit_val e)]
                      else inl bad_reference
                  end
                else
                  match escapes e with
                  | Some x => tcons (TChr x) (parse_template ngroups None t1)
                  | None =>
                      if isasciiletter e
                      then inl (Py.ReError "bad escape")
                      else tcons (TChr backslash)
                             (tcons (TChr e) (parse_template ngroups None t1))
                  end
            end
      end
  end.

(** the number of capturing groups of a pattern *)
Fixpoint ngroups (r : regex) : nat :=
  match r with
  | Cat r1 r2 | Alt r1 r2 => Nat.max (ngroups r1) (ngroups r2)
  | Group n r1 => Nat.max n (ngroups r1)
  | _ => 0
  end.

(** The text a template stands for at a match; a group that took no part
    in the match gives the empty string. *)
Definition expand_part (m : rmatch) (p : tpart) : str :=
  match p with
  | TChr c => [c]
  | TRef 0 => whole m
  | TRef n => match group n (groups m) with Some g => g | None => [] end
  end.

Definition expand (tmpl : list tpart) (m : rmatch) : str :=
  flat_map (expand_part m) tmpl.

Fixpoint sub_loop (fl : flags) (r : regex) (tmpl : list tpart) (fuel : nat)
    (prev : option ascii) (s : str) : str :=
  match fuel with
  | 0 => s
  | S f =>
      let next :=
        match s with
        | c :: t => c :: sub_loop fl r tmpl f (Some c) t
        | [] => []
        end in
      match match_at fl r prev s with
      | Some m =>
          expand tmpl m ++
          match whole m with
          | _ :: _ => sub_loop fl r tmpl f (last_chr m) (after m)
          | [] => next
          end
      | None => next
      end
  end.

(** [re.sub(pattern, repl, text, flags=...)]: the template is compiled
    first, so that a bad escape raises even where nothing matches. *)
Definition re_sub (fl : flags) (r : regex) (repl text : str)
  : Py.exn + str :=
  match parse_template (ngroups r) None repl with
  | inl e => inl e
  | inr tmpl => inr (sub_loop fl r tmpl (S (length text)) None text)
  end.

End Re.


(** ** The application *)

Module App.

Import Py Re.

Definition nl : ascii := "010"%char.
Definition dquote : ascii := "034"%char.

(** The signals of [WorkerSignals], as the values a worker emits. *)
Inductive signal : Type :=
| result (text : str)
| error (message : str)
| ui_update (enabled : bool)
| code_modification (new_code : str).

(** The work given to the thread pool. *)
Inductive task : Type :=
| generate_task
| modify_task (instructions current_code : str).

(** What [generate_content] returns; reading [response.text] can raise. *)
Record response := { text : exn + str }.

(** The attributes of [GenerativeAIApp] the modelled methods read or write,
    and the traces of what they do to the outside. *)
Record app := {
  selected_model : str;
  text_entry : str;                      (* the prompt box *)
  text_entry_read_only : bool;
  generate_btn_enabled : bool;
  apply_changes_btn_enabled : bool;
  edit_instructions : str;
  code_editor : str;
  output_area : str;
  queue : list str;                      (* [self.queue], oldest first *)
  activity : list str;                   (* the activity log *)
  emitted : list signal;                 (* signals emitted, oldest first *)
  error_boxes : list str;                (* messages shown by [show_error] *)
  running_tasks : list task;             (* work submitted to the pool *)
  provider_calls : list str;             (* prompts sent to Gemini Pro *)
  files : list (str * str);              (* files written, oldest first *)
  spawned : list str;                    (* commands given to [Popen] *)
  live_preview : option str;             (* the last [setHtml] *)
  code_animation : option str            (* the last [animate_code_update] *)
}.

(** *** Statements: a state and exception monad

    A Python statement changes the state and either completes with a value
    or raises; what it did before raising stays done. *)

Definition M (A : Type) : Type := app -> app * (exn + A).

Definition ret {A} (x : A) : M A := fun st => (st, inr x).

Definition raise {A} (e : exn) : M A := fun st => (st, inl e).

Definition bind {A B} (c : M A) (f : A -> M B) : M B :=
  fun st =>
    match c st with
    | (st', inr x) => f x st'
    | (st', inl e) => (st', inl e)
    end.

Notation "x <- c ;; k" := (bind c (fun x => k))
  (at level 61, c at next level, right associativity).
Notation "c ;; k" := (bind c (fun _ => k))
  (at level 61, right associativity).

Definition gets {A} (f : app -> A) : M A := fun st => (st, inr (f st)).

Definition modify (f : app -> app) : M unit := fun st => (f st, inr tt).

(** [try: body except Exception as e: handler(e)] *)
Definition try_except {A} (body : M A) (handler : exn -> M A) : M A :=
  fun st =>
    match body st with
    | (st', inr x) => (st', inr x)
    | (st', inl e) => handler e st'
    end.

(** [try: body finally: cleanup] *)
Definition try_finally {A} (body : M A) (cleanup : M unit) : M A :=
  fun st =>
    match body st with
    | (st', r) =>
        match cleanup st' with
        | (st'', inr _) => (st'', r)
        | (st'', inl e) => (st'', inl e)
        end
    end.

(** [for x in l: body(x)] *)
Fixpoint for_each {A} (l : list A) (body : A -> M unit) : M unit :=
  match l with
  | [] => ret tt
  | x :: t => body x ;; for_each t body
  end.

(** a loop that updates local variables *)
Fixpoint for_fold {A B} (l : list A) (acc : B) (body : B -> A -> M B) : M B :=
  match l with
  | [] => ret acc
  | x :: t => acc' <- body acc x ;; for_fold t acc' body
  end.

Definition lift {A} (r : exn + A) : M A :=
  match r with
  | inl e => raise e
  | inr x => ret x
  end.

(** [enumerate(l)] *)
Fixpoint enumerate_from {A} (i : nat) (l : list A) : list (nat * A) :=
  match l with
  | [] => []
  | x :: t => (i, x) :: enumerate_from (S i) t
  end.

Definition enumerate {A} (l : list A) : list (nat * A) := enumerate_from 0 l.

(** *** Field updates *)

Definition queue_put (line : str) : M unit :=
  modify (fun st =>
    {| selected_model := selected_model st; text_entry := text_entry st;
       text_entry_read_only := text_entry_read_only st;
       generate_btn_enabled := generate_btn_enabled st;
       apply_changes_btn_enabled := apply_changes_btn_enabled st;
       edit_instructions := edit_instructions st;
       code_editor := code_editor st; output_area := output_area st;
       queue := queue st ++ [line];
       activity := activity st; emitted := emitted st;
       error_boxes := error_boxes st; running_tasks := running_tasks st;
       provider_calls := provider_calls st; files := files st;
       spawned := spawned st; live_preview := live_preview st;
       code_animation := code_animation st |}).

(** [self.activity_log(message)]; the time stamp is left out *)
Definition activity_log (message : str) : M unit :=
  modify (fun st =>
    {| selected_model := selected_model st; text_entry := text_entry st;
       text_entry_read_only := text_entry_read_only st;
       generate_btn_enabled := generate_btn_enabled st;
       apply_changes_btn_enabled := apply_changes_btn_enabled st;
       edit_instructions := edit_instructions st;
       code_editor := code_editor st; output_area := output_area st;
       queue := queue st;
       activity := activity st ++ [message]; emitted := emitted st;
       error_boxes := error_boxes st; running_tasks := running_tasks st;
       provider_calls := provider_calls st; files := files st;
       spawned := spawned st; live_preview := live_preview st;
       code_animation := code_animation st |}).

(** [self.signals.<signal>.emit(...)] *)
Definition emit (s : signal) : M unit :=
  modify (fun st =>
    {| selected_model := selected_model st; text_entry := text_entry st;
       text_entry_read_only := text_entry_read_only st;
       generate_btn_enabled := generate_btn_enabled st;
       apply_changes_btn_enabled := apply_changes_btn_enabled st;
       edit_instructions := edit_instructions st;
       code_editor := code_editor st; output_area := output_area st;
       queue := queue st;
       activity := activity st; emitted := emitted st ++ [s];
       error_boxes := error_boxes st; running_tasks := running_tasks st;
       provider_calls := provider_calls st; files := files st;
       spawned := spawned st; live_preview := live_preview st;
       code_animation := code_animation st |}).

Definition record_spawn (command : str) : M unit :=
  modify (fun st =>
    {| selected_model := selected_model st; text_entry := text_entry st;
       text_entry_read_only := text_entry_read_only st;
       generate_btn_enabled := generate_btn_enabled st;
       apply_changes_btn_enabled := apply_changes_btn_enabled st;
       edit_instructions := edit_instructions st;
       code_editor := code_editor st; output_area := output_area st;
       queue := queue st;
       activity := activity st; emitted := emitted st;
       error_boxes := error_boxes st; running_tasks := running_tasks st;
       provider_calls := provider_calls st; files := files st;
       spawned := spawned st ++ [command]; live_preview := live_preview st;
       code_animation := code_animation st |}).

Definition record_file (path content : str) : M unit :=
  modify (fun st =>
    {| selected_model := selected_model st; text_entry := text_entry st;
       text_entry_read_only := text_entry_read_only st;
       generate_btn_enabled := generate_btn_enabled st;
       apply_changes_btn_enabled := apply_changes_btn_enabled st;
       edit_instructions := edit_instructions st;
       code_editor := code_editor st; output_area := output_area st;
       queue := queue st;
       activity := activity st; emitted := emitted st;
       error_boxes := error_boxes st; running_tasks := running_tasks st;
       provider_calls := provider_calls st;
       files := files st ++ [(path, content)];
       spawned := spawned st; live_preview := live_preview st;
       code_animation := code_animation st |}).

Definition record_call (prompt : str) : M unit :=
  modify (fun st =>
    {| selected_model := selected_model st; text_entry := text_entry st;
       text_entry_read_only := text_entry_read_only st;
       generate_btn_enabled := generate_btn_enabled st;
       apply_changes_btn_enabled := apply_changes_btn_enabled st;
       edit_instructions := edit_instructions st;
       code_editor := code_editor st; output_area := output_area st;
       queue := queue st;
       activity := activity st; emitted := emitted st;
       error_boxes := error_boxes st; running_tasks := running_tasks st;
       provider_calls := provider_calls st ++ [prompt]; files := files st;
       spawned := spawned st; live_preview := live_preview st;
       code_animation := code_animation st |}).

(** [self.live_preview.setHtml(html)] *)
Definition setHtml (html : str) : M unit :=
  modify (fun st =>
    {| selected_model := selected_model st; text_entry := text_entry st;
       text_entry_read_only := text_entry_read_only st;
       generate_btn_enabled := generate_btn_enabled st;
       apply_changes_btn_enabled := apply_changes_btn_enabled st;
       edit_instructions := edit_instructions st;
       code_editor := code_editor st; output_area := output_area st;
       queue := queue st;
       activity := activity st; emitted := emitted st;
       error_boxes := error_boxes st; running_tasks := running_tasks st;
       provider_calls := provider_calls st; files := files st;
       spawned := spawned st; live_preview := Some html;
       code_animation := code_animation st |}).

(** [self.animate_code_update(new_code)] starts typing [new_code] into the
    code editor line by line on a timer; only its start is recorded. *)
Definition animate_code_update (new_code : str) : M unit :=
  modify (fun st =>
    {| selected_model := selected_model st; text_entry := text_entry st;
       text_entry_read_only := text_entry_read_only st;
       generate_btn_enabled := generate_btn_enabled st;
       apply_changes_btn_enabled := apply_changes_btn_enabled st;
       edit_instructions := edit_instructions st;
       code_editor := code_editor st; output_area := output_area st;
       queue := queue st;
       activity := activity st; emitted := emitted st;
       error_boxes := error_boxes st; running_tasks := running_tasks st;
       provider_calls := provider_calls st; files := files st;
       spawned := spawned st; live_preview := live_preview st;
       code_animation := Some new_code |}).

Definition set_apply_changes_btn (enabled : bool) : M unit :=
  modify (fun st =>
    {| selected_model := selected_model st; text_entry := text_entry st;
       text_entry_read_only := text_entry_read_only st;
       generate_btn_enabled := generate_btn_enabled st;
       apply_changes_btn_enabled := enabled;
       edit_instructions := edit_instructions st;
       code_editor := code_editor st; output_area := output_area st;
       queue := queue st;
       activity := activity st; emitted := emitted st;
       error_boxes := error_boxes st; running_tasks := running_tasks st;
       provider_calls := provider_calls st; files := files st;
       spawned := spawned st; live_preview := live_preview st;
       code_animation := code_animation st |}).

Definition submit (t : task) : M unit :=
  modify (fun st =>
    {| selected_model := selected_model st; text_entry := text_entry st;
       text_entry_read_only := text_entry_read_only st;
       generate_btn_enabled := generate_btn_enabled st;
       apply_changes_btn_enabled := apply_changes_btn_enabled st;
       edit_instructions := edit_instructions st;
       code_editor := code_editor st; output_area := output_area st;
       queue := queue st;
       activity := activity st; emitted := emitted st;
       error_boxes := error_boxes st;
       running_tasks := running_tasks st ++ [t];
       provider_calls := provider_calls st; files := files st;
       spawned := spawned st; live_preview := live_preview st;
       code_animation := code_animation st |}).

(** [toggle_ui_state(enabled)] *)
Definition toggle_ui_state (enabled : bool) : M unit :=
  modify (fun st =>
    {| selected_model := selected_model st; text_entry := text_entry st;
       text_entry_read_only := negb enabled;
       generate_btn_enabled := enabled;
       apply_changes_btn_enabled := apply_changes_btn_enabled st;
       edit_instructions := edit_instructions st;
       code_editor := code_editor st; output_area := output_area st;
       queue := queue st;
       activity := activity st; emitted := emitted st;
       error_boxes := error_boxes st; running_tasks := running_tasks st;
       provider_calls := provider_calls st; files := files st;
       spawned := spawned st; live_preview := live_preview st;
       code_animation := code_animation st |}).

(** [show_error(message)] *)
Definition show_error (message : str) : M unit :=
  modify (fun st =>
    {| selected_model := selected_model st; text_entry := text_entry st;
       text_entry_read_only := text_entry_read_only st;
       generate_btn_enabled := generate_btn_enabled st;
       apply_changes_btn_enabled := apply_changes_btn_enabled st;
       edit_instructions := edit_instructions st;
       code_editor := code_editor st; output_area := output_area st;
       queue := queue st;
       activity := activity st; emitted := emitted st;
       error_boxes := error_boxes st ++ [message];
       running_tasks := running_tasks st;
       provider_calls := provider_calls st; files := files st;
       spawned := spawned st; live_preview := live_preview st;
       code_animation := code_animation st |}).

Definition set_output_area (t : str) : M unit :=
  modify (fun st =>
    {| selected_model := selected_model st; text_entry := text_entry st;
       text_entry_read_only := text_entry_read_only st;
       generate_btn_enabled := generate_btn_enabled st;
       apply_changes_btn_enabled := apply_changes_btn_enabled st;
       edit_instructions := edit_instructions st;
       code_editor := code_editor st; output_area := t;
       queue := queue st;
       activity := activity st; emitted := emitted st;
       error_boxes := error_boxes st; running_tasks := running_tasks st;
       provider_calls := provider_calls st; files := files st;
       spawned := spawned st; live_preview := live_preview st;
       code_animation := code_animation st |}).

(** *** The methods *)

Section Methods.

(** The outside world: the home directory ([os.path.expanduser("~")]);
    whether [open(path, 'w')] succeeds; what [subprocess.Popen] does with a
    command ([None]: it raises; [Some lines]: the process starts and
    [readline] returns [lines], one per turn of the loop, while it runs);
    and what the [n]-th call of [generate_content] on Gemini Pro does with
    a prompt. *)
Variable home : str.
Variable writable : str -> bool.
Variable popen : str -> option (list str).
Variable provider : nat -> str -> exn + response.

(** [with open(file_path, 'w') as f: f.write(content)] *)
Definition write_file (file_path content : str) : M unit :=
  if writable file_path then record_file file_path content
  else raise (OSError "cannot open file").

(** [subprocess.Popen(command, shell=True, ...)] and the lines read from it *)
Definition Popen (command : str) : M (list str) :=
  match popen command with
  | Some lines => record_spawn command ;; ret lines
  | None => raise (OSError "cannot start process")
  end.

(** [self.available_models["Gemini Pro"].generate_content(prompt, ...)] *)
Definition generate_content (prompt : str) : M response :=
  n <- gets (fun st => length (provider_calls st)) ;;
  record_call prompt ;;
  lift (provider n prompt).

Definition unsafe_patterns : list str :=
  [ list_ascii_of_string "rm "; list_ascii_of_string "del ";
    list_ascii_of_string "format "; list_ascii_of_string "chmod";
    list_ascii_of_string "sudo" ].

Definition execute_safe_command (command : str) : M unit :=
  if any (fun p => contains p command) unsafe_patterns
  then raise (SecurityError "Blocked potentially dangerous command")
  else
    queue_put ("$ " ++ command) ;;
    lines <- Popen command ;;
    for_each lines
      (fun output => if truthy output then queue_put (strip output) else ret tt).

(** [r'\b(password|secret|key)\b'] *)
Definition sensitive_re : regex :=
  Cat WordB
    (Cat (Group 1 (Alt (lit "password") (Alt (lit "secret") (lit "key"))))
         WordB).

Definition validate_input : M unit :=
  text <- gets (fun st => strip (text_entry st)) ;;
  if length text <? 10
  then raise (ValueError "Query too short (minimum 10 characters)")
  else if 5000 <? length text
  then raise (ValueError "Query too long (maximum 5000 characters)")
  else
    match re_search ignore_case sensitive_re text with
    | Some _ => raise (SecurityError "Query contains sensitive keywords")
    | None => activity_log "Input validated."
    end.

(** [r'```<tag>\s*(.*?)\s*```'] *)
Definition fence_re (tag : str) : regex :=
  Cat (lit ("```" ++ tag))
    (Cat (Star true Space)
      (Cat (Group 1 (Star false Dot))
        (Cat (Star true Space) (lit "```")))).

Definition languages : list str :=
  [ list_ascii_of_string "python"; list_ascii_of_string "javascript";
    list_ascii_of_string "html"; list_ascii_of_string "css";
    list_ascii_of_string "bash" ].

(** The dictionary it returns keeps the order of [patterns]. *)
Definition extract_code_blocks (text : str) : list (str * list str) :=
  map (fun lang =>
         (lang, re_findall dotall (fence_re lang) text))
      languages.

(** [for block in blocks: code += block.strip() + "\n"] *)
Definition add_blocks (code : str) (blocks : list str) : str :=
  fold_left (fun acc block => acc ++ strip block ++ [nl]) blocks code.

(** The three pieces of web code collected by the loop. *)
Record web_code := { html_code : str; css_code : str; js_code : str }.

(** One turn of [for lang, blocks in code_blocks.items()] *)
Definition process_language (w : web_code) (item : str * list str)
  : M web_code :=
  let (lang, blocks) := item in
  if eqb lang "html" then
    ret {| html_code := add_blocks (html_code w) blocks;
           css_code := css_code w; js_code := js_code w |}
  else if eqb lang "css" then
    ret {| html_code := html_code w;
           css_code := add_blocks (css_code w) blocks; js_code := js_code w |}
  else if eqb lang "javascript" then
    ret {| html_code := html_code w; css_code := css_code w;
           js_code := add_blocks (js_code w) blocks |}
  else if eqb lang "python" || eqb lang "bash" then
    let desktop_path := path_join home "Desktop" in
    for_each (enumerate blocks)
      (fun ib =>
         let (i, block) := ib : nat * str in
         let ext : str := if eqb lang "python" then "py" else "sh" in
         let file_path :=
           path_join desktop_path
                     ("code_" ++ str_of_nat (i + 1) ++ "." ++ ext) in
         write_file file_path (strip block) ;;
         let cmd :=
           if eqb lang "python"
           then "python " ++ [dquote] ++ file_path ++ [dquote]
           else "bash " ++ [dquote] ++ file_path ++ [dquote] in
         execute_safe_command cmd) ;;
    ret w
  else
    let desktop_path := path_join home "Desktop" in
    for_each (enumerate blocks)
      (fun ib =>
         let (i, block) := ib : nat * str in
         let file_path :=
           path_join desktop_path
                     ("code_" ++ str_of_nat (i + 1) ++ "." ++ lang) in
         write_file file_path (strip block) ;;
         queue_put (upper lang ++ " file created: " ++ file_path)) ;;
    ret w.

(** [r'(</head>)'] and [r'(</body>)'] *)
Definition head_re : regex := Group 1 (lit "</head>").
Definition body_re : regex := Group 1 (lit "</body>").

(** The document synthesized around a fragment. *)
Definition template (css html js : str) : str :=
  "<html>" ++ [nl] ++ "<head>" ++ [nl] ++ "<style>" ++ [nl] ++
  css ++ [nl] ++ "</style>" ++ [nl] ++ "</head>" ++ [nl] ++
  "<body>" ++ [nl] ++ html ++ [nl] ++ "<script>" ++ [nl] ++
  js ++ [nl] ++ "</script>" ++ [nl] ++ "</body>" ++ [nl] ++ "</html>".

(** The value of [combined_html] for a non-empty [html_code]. *)
Definition combined_html (html css js : str) : exn + str :=
  if negb (contains "<html" (lower html)) then inr (template css html js)
  else
    match
      (if truthy css
       then re_sub ignore_case head_re
                   ("<style>" ++ css ++ "</style>\1") html
       else inr html)
    with
    | inl e => inl e
    | inr combined =>
        if truthy js
        then re_sub ignore_case body_re
                    ("<script>" ++ js ++ "</script>\1") combined
        else inr combined
    end.

(** The lines from [if html_code or css_code or js_code:] to the value of
    [combined_html]: no document without web code, and a placeholder for
    the html when there is only css or javascript. *)
Definition assemble (w : web_code) : option (exn + str) :=
  if truthy (html_code w) || truthy (css_code w) || truthy (js_code w) then
    let html : str :=
      if negb (truthy (html_code w)) then "<div></div>" else html_code w in
    Some (combined_html html (css_code w) (js_code w))
  else None.

Definition process_code_blocks (text : str) : M unit :=
  let code_blocks := extract_code_blocks text in
  w <- for_fold code_blocks
         {| html_code := []; css_code := []; js_code := [] |}
         process_language ;;
  match assemble w with
  | Some document =>
      combined <- lift document ;;
      setHtml combined ;;
      queue_put "Live preview updated with web code." ;;
      animate_code_update combined ;;
      activity_log "Code editor updated with generated web code."
  | None => ret tt
  end.

(** [handle_result] clears the output area and starts the typewriter
    animation of [animate_text_output], whose last step is
    [process_code_blocks]; the intermediate prefixes are not modelled. *)
Definition handle_result (t : str) : M unit :=
  set_output_area t ;;
  process_code_blocks t.

Definition handle_code_modification_result (new_code : str) : M unit :=
  animate_code_update new_code ;;
  set_apply_changes_btn true ;;
  activity_log "Code editor updated with modifications.".

Definition primary : str := "Gemini Pro".

Definition get_text (r : response) : M str := lift (text r).

(** [time.sleep(1)] *)
Definition sleep : M unit := ret tt.

Definition generate_content_worker : M unit :=
  try_finally
    (try_except
       (prompt <- gets (fun st => strip (text_entry st)) ;;
        model_used <- gets selected_model ;;
        output_text <-
          try_except
            (out <-
               (if eqb model_used primary then
                  r <- generate_content prompt ;;
                  get_text r
                else
                  sleep ;;
                  ret ("Simulated output from " ++ model_used ++
                       " for prompt: " ++ prompt)) ;;
             activity_log ("Generated content using " ++ model_used ++ ".") ;;
             ret out)
            (fun primary_error =>
               activity_log (model_used ++ " failed (" ++
                             str_of_exn primary_error ++
                             "); falling back to Gemini Pro.") ;;
               r <- generate_content prompt ;;
               get_text r) ;;
        emit (result output_text))
       (fun e => emit (error ("API Error: " ++ str_of_exn e))))
    (emit (ui_update true)).

Definition safe_generate_content : M unit :=
  try_except
    (validate_input ;;
     toggle_ui_state false ;;
     submit generate_task)
    (fun e => emit (error (str_of_exn e))).

Definition modification_prompt (instructions current_code : str) : str :=
  "Please update the following code according to these instructions:" ++
  [nl; nl] ++ "Instructions:" ++ [nl] ++ instructions ++ [nl; nl] ++
  "Code:" ++ [nl] ++ current_code.

Definition apply_code_changes_worker (instructions current_code : str)
  : M unit :=
  let prompt := modification_prompt instructions current_code in
  new_code <-
    try_except
      (r <- generate_content prompt ;;
       t <- get_text r ;;
       ret (Some t))
      (fun e =>
         emit (error ("Error modifying code: " ++ str_of_exn e)) ;;
         ret None) ;;
  match new_code with
  | Some t => emit (code_modification t)
  | None => ret tt                        (* the [return] of the handler *)
  end.

(** [apply_code_changes]; the warning box of the empty case is left out *)
Definition apply_code_changes : M unit :=
  instructions <- gets (fun st => strip (edit_instructions st)) ;;
  if negb (truthy instructions) then ret tt
  else
    set_apply_changes_btn false ;;
    current_code <- gets code_editor ;;
    submit (modify_task instructions current_code).

(** A pool thread runs a task. *)
Definition run_task (t : task) : M unit :=
  match t with
  | generate_task => generate_content_worker
  | modify_task instructions current_code =>
      apply_code_changes_worker instructions current_code
  end.

(** The slots connected in [init_workers] and [init_signals]. *)
Definition slot (s : signal) : M unit :=
  match s with
  | result t => handle_result t
  | error message => show_error message
  | ui_update enabled => toggle_ui_state enabled
  | code_modification new_code => handle_code_modification_result new_code
  end.

End Methods.

End App.

(** ** Specifications in the words of the documentation *)

Module Spec.

Import Py Re App.

(** [p] occurs in [s], character for character. *)
Definition substring (p s : str) : Prop :=
  exists pre post, s = pre ++ p ++ post.

(** The command holds one of the five denied strings. *)
Definition denied (command : str) : Prop :=
  substring "rm " command \/ substring "del " command \/
  substring "format " command \/ substring "chmod" command \/
  substring "sudo" command.

(** [w] stands in [s] as a whole word, in any letter case: the characters
    next to it, if any, are not word characters. *)
Definition whole_word (w s : str) : Prop :=
  exists pre mid post,
    s = pre ++ mid ++ post /\ lower mid = w /\
    (forall pre' c, pre = pre' ++ [c] -> isword c = false) /\
    (forall c post', post = c :: post' -> isword c = false).

Definition sensitive (prompt : str) : Prop :=
  whole_word "password" prompt \/ whole_word "secret" prompt \/
  whole_word "key" prompt.

Definition is_sensitive_word (w : str) : Prop :=
  w = "password" \/ w = "secret" \/ w = "key".

(** The same occurrence, with the two neighbours read off the positions. *)
Definition occurs (s : str) : Prop :=
  exists pre mid post,
    s = pre ++ mid ++ post /\ is_sensitive_word (lower mid) /\
    word_before (step_over None pre) = false /\ word_after post = false.

(** The number of places of [s] where [p] begins. *)
Fixpoint occurrences (p s : str) : nat :=
  (if startswith p s then 1 else 0) +
  match s with
  | _ :: t => occurrences p t
  | [] => 0
  end.

(** The number of document wrappers, in any letter case, as
    [process_code_blocks] looks for them. *)
Definition wrappers (doc : str) : nat := occurrences "<html" (lower doc).

(** A character that is none of [h], [t], [m], [l]. *)
Definition outside (b : ascii) : Prop :=
  chr_eqb "h" b = false /\ chr_eqb "t" b = false /\
  chr_eqb "m" b = false /\ chr_eqb "l" b = false.


Definition style_block (css : str) : str := "<style>" ++ css ++ "</style>".
Definition script_block (js : str) : str := "<script>" ++ js ++ "</script>".

(** [block] put before every place where [w] stands in [s], in any letter
    case. *)
Fixpoint insert_before (block w : str) (fuel : nat) (s : str) : str :=
  match fuel with
  | 0 => s
  | S f =>
      match lit_match ignore_case w s with
      | Some ((_ :: _) as mid, rest) =>
          block ++ mid ++ insert_before block w f rest
      | Some ([], _) => block ++ match s with
                        | c :: t => c :: insert_before block w f t
                        | [] => []
                        end
      | None =>
          match s with
          | c :: t => c :: insert_before block w f t
          | [] => []
          end
      end
  end.

Definition fence : str := "```".

(** [s] cut at the first place where [p] stands: the text before that place
    and the text after [p]. *)
Fixpoint split_at (p s : str) : option (str * str) :=
  if startswith p s then Some ([], skipn (length p) s)
  else
    match s with
    | c :: t =>
        match split_at p t with
        | Some (a, b) => Some (c :: a, b)
        | None => None
        end
    | [] => None
    end.

(** The blocks of one language: from an opening fence with the tag, wherever
    it stands, to the next fence; the text between them, trimmed; and on
    from there. *)
Fixpoint blocks (fuel : nat) (tag text : str) : list str :=
  match fuel with
  | 0 => []
  | S f =>
      match split_at (fence ++ tag) text with
      | None => []
      | Some (_, s) =>
          match split_at fence s with
          | None => []
          | Some (body, rest) => strip body :: blocks f tag rest
          end
      end
  end.

Definition fenced_blocks (tag text : str) : list str :=
  blocks (length text) tag text.

(** What the lazy [(.*?)] and the closing [\s*```] find from [u] on: the
    shortest text after which only white space stands before a fence. *)
Fixpoint lazy_scan (u : str) : option (str * str) :=
  if startswith fence (lstrip u) then Some ([], skipn 3 (lstrip u))
  else
    match u with
    | c :: t =>
        match lazy_scan t with
        | Some (g, rest) => Some (c :: g, rest)
        | None => None
        end
    | [] => None
    end.

(** The match found from [s] on, with the block [g] and the text [rest]
    after the closing fence. *)
Definition found (s g rest : str) : rmatch :=
  {| whole := firstn (length s - length rest) s;
     last_chr := Some "`"%char; after := rest; groups := [(1, g)] |}.

Definition report (s : str) : cont rmatch :=
  fun p s' c =>
    Some {| whole := firstn (length s - length s') s;
            last_chr := p; after := s'; groups := c |}.

Definition group1 (m : rmatch) : str :=
  match group 1 (groups m) with Some g => g | None => [] end.

(** [block] put before every place where [w] stands in [s]. *)
Definition insert_all (block w s : str) : str :=
  insert_before block w (S (length s)) s.

(** The [n]-th call of the provider as the worker sees it: the text of
    the response, or the exception raised by the call or by reading
    [response.text]. *)
Definition attempt (provider : nat -> str -> exn + response) (n : nat)
    (prompt : str) : exn + str :=
  match provider n prompt with
  | inl e => inl e
  | inr r => text r
  end.

(** The placeholder result of a provider other than the primary one. *)
Definition simulated (model prompt : str) : str :=
  "Simulated output from " ++ model ++ " for prompt: " ++ prompt.

(** How a generation task ends: the number of calls made to the primary
    provider and the notification that reports the outcome. *)
Definition fallback_outcome (provider : nat -> str -> exn + response)
    (st : app) : nat * signal :=
  let prompt := strip (text_entry st) in
  let n := length (provider_calls st) in
  if eqb (selected_model st) primary then
    match attempt provider n prompt with
    | inr t => (1, result t)
    | inl _ =>
        match attempt provider (S n) prompt with
        | inr t => (2, result t)
        | inl e => (2, error ("API Error: " ++ str_of_exn e))
        end
    end
  else (0, result (simulated (selected_model st) prompt)).

Definition is_ui_enable (s : signal) : bool :=
  match s with ui_update true => true | _ => false end.

(** the number of [ui_update(True)] notifications *)
Definition count_ui_enable (l : list signal) : nat :=
  length (filter is_ui_enable l).

(** The web code of a response: its html, css and javascript blocks, each
    trimmed and followed by a line feed. *)
Definition fragments (text : str) : web_code :=
  {| html_code := add_blocks [] (fenced_blocks "html" text);
     css_code := add_blocks [] (fenced_blocks "css" text);
     js_code := add_blocks [] (fenced_blocks "javascript" text) |}.

(** What [process_code_blocks] does once the document is assembled. *)
Definition publish (document : option (exn + str)) : M unit :=
  match document with
  | Some document =>
      combined <- lift document ;;
      setHtml combined ;;
      queue_put "Live preview updated with web code." ;;
      animate_code_update combined ;;
      activity_log "Code editor updated with generated web code."
  | None => ret tt
  end.

End Spec.

(** ** A concrete application, for the examples *)

Module Example.

Import Py Re App.

Definition fresh : app :=
  {| selected_model := "Gemini Pro"; text_entry := [];
     text_entry_read_only := false; generate_btn_enabled := true;
     apply_changes_btn_enabled := true; edit_instructions := [];
     code_editor := []; output_area := []; queue := []; activity := [];
     emitted := []; error_boxes := []; running_tasks := [];
     provider_calls := []; files := []; spawned := [];
     live_preview := None; code_animation := None |}.

Definition with_prompt (prompt : str) : app :=
  {| selected_model := "Gemini Pro"; text_entry := prompt;
     text_entry_read_only := false; generate_btn_enabled := true;
     apply_changes_btn_enabled := true; edit_instructions := [];
     code_editor := []; output_area := []; queue := []; activity := [];
     emitted := []; error_boxes := []; running_tasks := [];
     provider_calls := []; files := []; spawned := [];
     live_preview := None; code_animation := None |}.

Definition home : str := "/home/user".

(** the first call raises, the later ones answer *)
Definition fail_then_ok : nat -> str -> exn + response :=
  fun n _ =>
    match n with
    | 0 => inl (OtherError "503 unavailable")
    | S _ => inr {| text := inr (list_ascii_of_string "recovered") |}
    end.

Definition always_fails : nat -> str -> exn + response :=
  fun _ _ => inl (OtherError "503 unavailable").

Definition always_ok : nat -> str -> exn + response :=
  fun _ _ => inr {| text := inr (list_ascii_of_string "print(1)") |}.

Definition writable : str -> bool := fun _ => true.

(** every command runs and prints nothing *)
Definition quiet : str -> option (list str) := fun _ => Some [].



(** html block: a full document; css block: [p:after{content:'\n'}] *)
Definition escaped_newline : str :=
  "```html" ++ [nl] ++ "<html><head></head><body></body></html>" ++ [nl] ++ "```" ++ [nl] ++
  "```css" ++ [nl] ++ "p:after{content:'\n'}" ++ [nl] ++ "```".

(** html block: a full document; javascript block: [s.split(/\d+/)] *)
Definition escaped_class : str :=
  "```html" ++ [nl] ++ "<html><head></head><body></body></html>" ++ [nl] ++ "```" ++ [nl] ++
  "```javascript" ++ [nl] ++ "s.split(/\d+/)" ++ [nl] ++ "```".

(** a fence in the middle of the only line *)
Definition inline_fence : str := "see ```css a{} ``` ok".

Definition hi_red : str :=
  "```html" ++ [nl] ++ "<p>hi</p>" ++ [nl] ++ "```" ++ [nl] ++
  "```css" ++ [nl] ++ "body{color:red}" ++ [nl] ++ "```".

Definition hi_red_document : str :=
  "<html>" ++ [nl] ++ "<head>" ++ [nl] ++
  "<style>" ++ [nl] ++ "body{color:red}" ++ [nl] ++ [nl] ++ "</style>" ++ [nl] ++
  "</head>" ++ [nl] ++
  "<body>" ++ [nl] ++ "<p>hi</p>" ++ [nl] ++ [nl] ++
  "<script>" ++ [nl] ++ [nl] ++ "</script>" ++ [nl] ++
  "</body>" ++ [nl] ++ "</html>".

Definition ruby : str :=
  "```ruby" ++ [nl] ++ "puts 1" ++ [nl] ++ "```".

(** a block whose tag only begins with one of the five *)
Definition python3 : str :=
  "```python3" ++ [nl] ++ "print(1)" ++ [nl] ++ "```".

Definition shouting : str := "<html><head></head><BODY></HEAD></BODY></html>".





(** the code editor and the instruction line before a click on Apply
    Changes *)
Definition with_instructions (instructions code : str) : app :=
  {| selected_model := "Gemini Pro"; text_entry := [];
     text_entry_read_only := false; generate_btn_enabled := true;
     apply_changes_btn_enabled := true; edit_instructions := instructions;
     code_editor := code; output_area := []; queue := []; activity := [];
     emitted := []; error_boxes := []; running_tasks := [];
     provider_calls := []; files := []; spawned := [];
     live_preview := None; code_animation := None |}.

End Example.

(** ** The rest of the window: the editor, the timers, the history, the
       terminal and the styles *)

Module Editor.

Import Py Re App.

(** the text of the code editor, as [toPlainText] returns it *)
Definition set_code_editor (t : str) : M unit :=
  modify (fun st =>
    {| selected_model := selected_model st; text_entry := text_entry st;
       text_entry_read_only := text_entry_read_only st;
       generate_btn_enabled := generate_btn_enabled st;
       apply_changes_btn_enabled := apply_changes_btn_enabled st;
       edit_instructions := edit_instructions st; code_editor := t;
       output_area := output_area st; queue := queue st;
       activity := activity st; emitted := emitted st;
       error_boxes := error_boxes st; running_tasks := running_tasks st;
       provider_calls := provider_calls st; files := files st;
       spawned := spawned st; live_preview := live_preview st;
       code_animation := code_animation st |}).

(** the lines left in [self.queue] *)
Definition set_queue (q : list str) : M unit :=
  modify (fun st =>
    {| selected_model := selected_model st; text_entry := text_entry st;
       text_entry_read_only := text_entry_read_only st;
       generate_btn_enabled := generate_btn_enabled st;
       apply_changes_btn_enabled := apply_changes_btn_enabled st;
       edit_instructions := edit_instructions st;
       code_editor := code_editor st; output_area := output_area st;
       queue := q; activity := activity st; emitted := emitted st;
       error_boxes := error_boxes st; running_tasks := running_tasks st;
       provider_calls := provider_calls st; files := files st;
       spawned := spawned st; live_preview := live_preview st;
       code_animation := code_animation st |}).

(** the user edits the prompt box *)
Definition set_text_entry (t : str) : M unit :=
  modify (fun st =>
    {| selected_model := selected_model st; text_entry := t;
       text_entry_read_only := text_entry_read_only st;
       generate_btn_enabled := generate_btn_enabled st;
       apply_changes_btn_enabled := apply_changes_btn_enabled st;
       edit_instructions := edit_instructions st;
       code_editor := code_editor st; output_area := output_area st;
       queue := queue st; activity := activity st; emitted := emitted st;
       error_boxes := error_boxes st; running_tasks := running_tasks st;
       provider_calls := provider_calls st; files := files st;
       spawned := spawned st; live_preview := live_preview st;
       code_animation := code_animation st |}).

(** [str.splitlines]: the line boundaries of the range are LF, VT, FF, CR,
    FS, GS, RS and NEL, and CR LF is one boundary. *)
Definition is_linebreak (c : ascii) : bool :=
  between 10 13 c || between 28 30 c || (ord c =? 133).

(** [cur] is the line read so far, last character first. *)
Fixpoint splitlines_from (cur s : str) : list str :=
  match s with
  | [] => match cur with [] => [] | _ :: _ => [rev cur] end
  | c :: t =>
      if is_linebreak c then
        rev cur ::
        match t with
        | d :: t' =>
            if (ord c =? 13) && (ord d =? 10) then splitlines_from [] t'
            else splitlines_from [] t
        | [] => splitlines_from [] t
        end
      else splitlines_from (c :: cur) t
  end.

Definition splitlines (s : str) : list str := splitlines_from [] s.

(** [sep.join(l)] *)
Fixpoint join (sep : str) (l : list str) : str :=
  match l with
  | [] => []
  | x :: t => match t with [] => x | _ :: _ => x ++ sep ++ join sep t end
  end.

(** The document [update_live_preview_from_code_editor] puts around code
    without a wrapper. *)
Definition preview_template (code : str) : str :=
  "<html>" ++ [nl] ++ "<head>" ++ [nl] ++ "<style></style>" ++ [nl] ++
  "</head>" ++ [nl] ++ "<body>" ++ [nl] ++ code ++ [nl] ++
  "</body>" ++ [nl] ++ "</html>".

Definition update_live_preview_from_code_editor : M unit :=
  code <- gets (fun st => strip (code_editor st)) ;;
  if negb (truthy code) then ret tt
  else
    let code :=
      if negb (contains "<html" (lower code)) then preview_template code
      else code in
    setHtml code ;;
    activity_log "Live preview updated with edited code.".

(** A [QTimer.singleShot] closure keeps its [index] between calls.  A call
    is modelled with the index it finds, and returns the index it leaves
    when it has set the timer again, [None] when it has not. *)
Definition closure : Type := nat -> M (option nat).

(** The timer fires, and fires again, as long as the call sets it, [ticks]
    times at most, nothing else running in between; the result is the
    index left for the call that is still due, if any. *)
Fixpoint fire (f : closure) (ticks : nat) (due : option nat)
  : M (option nat) :=
  match ticks, due with
  | S n, Some index => next <- f index ;; fire f n next
  | _, _ => ret due
  end.

Section CodeEditor.

(** What [toPlainText] returns once [setPlainText(t)] has been called on
    the code editor. *)
Variable plain : str -> str.

Definition setPlainText (t : str) : M unit := set_code_editor (plain t).

(** [self.code_editor.clear()] *)
Definition clear : M unit := set_code_editor [].

(** The closure [update_line] of [animate_code_update]. *)
Definition update_line (lines : list str) : closure :=
  fun index =>
    if index <? length lines then
      let current_text := join [nl] (firstn (index + 1) lines) in
      setPlainText current_text ;;
      ret (Some (index + 1))
    else
      update_live_preview_from_code_editor ;;
      ret None.

(** [animate_code_update] up to its return: the editor is cleared and
    [update_line] is called once; the lines and the index left for the
    timer are returned. *)
Definition animate_code_update (new_code : str)
  : M (list str * option nat) :=
  clear ;;
  let lines := splitlines new_code in
  due <- update_line lines 0 ;;
  ret (lines, due).

End CodeEditor.

Section Typewriter.

Variable home : str.
Variable writable : str -> bool.
Variable popen : str -> option (list str).

(** The closure [update_text] of [animate_text_output]. *)
Definition update_text (text : str) : closure :=
  fun index =>
    if index <? length text then
      let current_text := firstn (index + 1) text in
      set_output_area current_text ;;
      ret (Some (index + 1))
    else
      process_code_blocks home writable popen text ;;
      ret None.

Definition animate_text_output (text : str) : M (option nat) :=
  set_output_area [] ;;
  update_text text 0.

(** [handle_result] up to its return *)
Definition handle_result (text : str) : M (option nat) :=
  set_output_area [] ;;
  animate_text_output text.

End Typewriter.

End Editor.

Module Window.

Import Py Re App Editor.

(** One entry of [self.style_settings]. *)
Record style := {
  background : str;
  text_colour : str;          (* the key ["text"] *)
  button : str;
  border : str;
  terminal_bg : str;
  terminal_text : str
}.

(** The keys of [self.style_settings]. *)
Inductive mode : Type := light | dark | high_contrast_mode.

(** [setup_styles] *)
Definition style_settings (m : mode) : style :=
  match m with
  | light =>
      {| background := "#FFFFFF"; text_colour := "#000000";
         button := "#007ACC"; border := "#CCCCCC";
         terminal_bg := "#F0F0F0"; terminal_text := "#333333" |}
  | dark =>
      {| background := "#2D2D2D"; text_colour := "#FFFFFF";
         button := "#1E1E1E"; border := "#3E3E3E";
         terminal_bg := "#1E1E1E"; terminal_text := "#CCCCCC" |}
  | high_contrast_mode =>
      {| background := "#000000"; text_colour := "#FFFF00";
         button := "#333333"; border := "#FFFFFF";
         terminal_bg := "#000000"; terminal_text := "#FFFF00" |}
  end.

(** The attributes of the window that the methods below read or write,
    beside those of [app]. *)
Record window := {
  base : app;
  history : list str;
  history_index : Z;
  terminal : list str;             (* the paragraphs of the terminal *)
  dark_mode : bool;
  high_contrast : option bool;     (* [None]: the attribute is not set *)
  style_sheet : str;               (* the last [self.setStyleSheet] *)
  terminal_style_sheet : str       (* the last [self.terminal.setStyleSheet] *)
}.

(** The attributes as [__init__] leaves them before [init_ui]. *)
Definition created (b : app) : window :=
  {| base := b; history := []; history_index := (-1)%Z; terminal := [];
     dark_mode := false; high_contrast := None;
     style_sheet := []; terminal_style_sheet := [] |}.

(** A method of [app] run on the window. *)
Definition on_base {A} (c : M A) (w : window) : window * (exn + A) :=
  let (b, r) := c (base w) in
  ({| base := b; history := history w; history_index := history_index w;
      terminal := terminal w; dark_mode := dark_mode w;
      high_contrast := high_contrast w; style_sheet := style_sheet w;
      terminal_style_sheet := terminal_style_sheet w |}, r).

(** [bool(l)]: a list is true when it is not empty *)
Definition truthy_list {A} (l : list A) : bool :=
  match l with [] => false | _ :: _ => true end.

Definition save_to_history (w : window) : window :=
  let current_text := text_entry (base w) in
  if truthy_list (history w) && eqb (last (history w) []) current_text
  then w
  else
    let history' := history w ++ [current_text] in
    {| base := base w; history := history';
       history_index := (Z.of_nat (length history') - 1)%Z;
       terminal := terminal w; dark_mode := dark_mode w;
       high_contrast := high_contrast w; style_sheet := style_sheet w;
       terminal_style_sheet := terminal_style_sheet w |}.

(** The signal [textChanged] of the prompt box, with the new text. *)
Definition textChanged (t : str) (w : window) : window :=
  save_to_history (fst (on_base (set_text_entry t) w)).

(** One turn of the loop of [process_terminal_queue]: the oldest line
    leaves the queue and is appended to the terminal. *)
Definition terminal_append (output : str) (rest : list str) (w : window)
  : window :=
  {| base := fst (set_queue rest (base w)); history := history w;
     history_index := history_index w;
     terminal := terminal w ++ [output]; dark_mode := dark_mode w;
     high_contrast := high_contrast w; style_sheet := style_sheet w;
     terminal_style_sheet := terminal_style_sheet w |}.

(** [process_terminal_queue], with the number of turns its loop may take;
    the queue has one reader, so [get_nowait] does not raise. *)
Fixpoint process_terminal_queue (turns : nat) (w : window) : window :=
  match turns with
  | 0 => w
  | S n =>
      match queue (base w) with
      | [] => w
      | output :: rest =>
          process_terminal_queue n (terminal_append output rest w)
      end
  end.

(** [getattr(self, "high_contrast", False)] *)
Definition getattr_high_contrast (w : window) : bool :=
  match high_contrast w with
  | Some b => b
  | None => false
  end.

Definition window_sheet (s : style) : str :=
  "
            QWidget {
                background-color: " ++ background s ++ ";
                color: " ++ text_colour s ++ ";
            }
            QTextEdit {
                background-color: " ++ background s ++ ";
                border: 1px solid " ++ border s ++ ";
                padding: 5px;
            }
            QPushButton {
                background-color: " ++ button s ++ ";
                color: " ++ text_colour s ++ ";
                padding: 8px;
                border-radius: 4px;
            }
            QDockWidget::title {
                background: " ++ button s ++ ";
                padding: 4px;
            }
        ".

Definition terminal_sheet (s : style) : str :=
  "
            background-color: " ++ terminal_bg s ++ ";
            color: " ++ terminal_text s ++ ";
            font-family: Consolas;
            font-size: 12pt;
            border: none;
        ".

Definition apply_current_style (w : window) : window :=
  let m :=
    if dark_mode w && getattr_high_contrast w then high_contrast_mode
    else if dark_mode w then dark else light in
  let style := style_settings m in
  {| base := base w; history := history w;
     history_index := history_index w; terminal := terminal w;
     dark_mode := dark_mode w; high_contrast := high_contrast w;
     style_sheet := window_sheet style;
     terminal_style_sheet := terminal_sheet style |}.

Definition toggle_dark_mode (enabled : bool) (w : window) : window :=
  apply_current_style
    {| base := base w; history := history w;
       history_index := history_index w; terminal := terminal w;
       dark_mode := enabled; high_contrast := high_contrast w;
       style_sheet := style_sheet w;
       terminal_style_sheet := terminal_style_sheet w |}.

(** The two checkable actions of the View menu, with the state of the
    check mark that [triggered] passes on. *)
Inductive view_action : Type :=
| dark_mode_action (checked : bool)
| high_contrast_action (checked : bool).

(** The slots connected to them in [init_menu]. *)
Definition triggered (a : view_action) (w : window) : window :=
  match a with
  | dark_mode_action checked => toggle_dark_mode checked w
  | high_contrast_action enabled => toggle_dark_mode enabled w
  end.

End Window.

(** ** The terms the further properties are stated in *)

Module Terms.

Import Py Re App Spec Editor Window.

(** The file of the [i]-th block of a language, counted from 0. *)
Definition code_file (home ext : str) (i : nat) : str :=
  path_join (path_join home "Desktop")
            ("code_" ++ str_of_nat (i + 1) ++ "." ++ ext).

(** The command line that runs a file. *)
Definition run_command (interpreter file : str) : str :=
  interpreter ++ " " ++ [dquote] ++ file ++ [dquote].

(** The files written for the blocks of one language, and the commands
    that run them. *)
Definition code_files (home ext : str) (blocks : list str)
  : list (str * str) :=
  map (fun ib => (code_file home ext (fst ib), strip (snd ib)))
      (enumerate blocks).

Definition run_commands (home interpreter ext : str) (blocks : list str)
  : list str :=
  map (fun ib => run_command interpreter (code_file home ext (fst ib)))
      (enumerate blocks).

Section World.

Variable home : str.
Variable writable : str -> bool.
Variable popen : str -> option (list str).

(** One turn of the loop over the python or the bash blocks. *)
Definition run_block (python : bool) (ib : nat * str) : M unit :=
  let (i, block) := ib in
  write_file writable (code_file home (if python then "py" else "sh") i)
             (strip block) ;;
  execute_safe_command popen
    (run_command (if python then "python" else "bash")
       (code_file home (if python then "py" else "sh") i)).

End World.

(** The home directory holds one of the denied strings. *)
Definition denied_home (home : str) : bool :=
  any (fun p => contains p home) unsafe_patterns.

(** A decimal digit. *)
Definition isdigit_chr (c : ascii) : Prop :=
  exists k, k < 10 /\ c = ascii_of_nat (48 + k).

(** The last entry of the history, if there is one. *)
Definition last_entry (h : list str) : option str :=
  match rev h with
  | x :: _ => Some x
  | [] => None
  end.

(** The notification a code-modification task ends with. *)
Definition modification_signal (provider : nat -> str -> exn + response)
    (instructions current_code : str) (st : app) : signal :=
  match attempt provider (length (provider_calls st))
                (modification_prompt instructions current_code) with
  | inr new_code => code_modification new_code
  | inl e => error ("Error modifying code: " ++ str_of_exn e)
  end.

(** The state of the check mark an action passes on. *)
Definition checked_of (a : view_action) : bool :=
  match a with
  | dark_mode_action checked => checked
  | high_contrast_action checked => checked
  end.

(** The user edits the prompt box again and again. *)
Definition edits (ts : list str) (w : window) : window :=
  fold_left (fun w t => textChanged t w) ts w.

(** [ts] without the texts that repeat the one before them; [prev] is the
    text before the first one, if there is one. *)
Fixpoint squeeze (prev : option str) (ts : list str) : list str :=
  match ts with
  | [] => []
  | t :: r =>
      match prev with
      | Some p => if eqb p t then squeeze prev r else t :: squeeze (Some t) r
      | None => t :: squeeze (Some t) r
      end
  end.

(** No entry repeats the one before it. *)
Fixpoint no_repeat (l : list str) : Prop :=
  match l with
  | x :: t => match t with y :: _ => x <> y | [] => True end /\ no_repeat t
  | [] => True
  end.

(** The state when [update_line] has shown the first [i] lines. *)
Definition shown (plain : str -> str) (lines : list str) (st : app)
    (i : nat) : app :=
  fst (set_code_editor (plain (join [nl] (firstn i lines))) st).

(** The state when [update_text] has shown the first [i] characters. *)
Definition typed (text : str) (st : app) (i : nat) : app :=
  fst (set_output_area (firstn i text) st).

(** [s] without its last character when that is a line feed. *)
Definition chomp (s : str) : str :=
  match rev s with
  | c :: r => if chr_eqb c nl then rev r else s
  | [] => []
  end.

End Terms.

(** ** Strings *)

Module StrFacts.

Import Py.

Lemma chr_eqb_eq (a b : ascii) : chr_eqb a b = true <-> a = b.
Proof. apply Ascii.eqb_eq. Qed.

Lemma chr_eqb_refl (a : ascii) : chr_eqb a a = true.
Proof. apply Ascii.eqb_refl. Qed.

Lemma chr_eqb_neq (a b : ascii) : chr_eqb a b = false <-> a <> b.
Proof. apply Ascii.eqb_neq. Qed.

Lemma startswith_app (p t : str) : startswith p (p ++ t) = true.
Proof.
  induction p as [|a p IH]; simpl; [reflexivity|].
  now rewrite chr_eqb_refl, IH.
Qed.

Lemma startswith_spec (p s : str) :
  startswith p s = true <-> exists t, s = p ++ t.
Proof.
  split.
  - revert s; induction p as [|a p IH]; intros s H.
    + now exists s.
    + destruct s as [|b s]; simpl in H; [discriminate|].
      apply andb_prop in H as [Hab Hps].
      apply chr_eqb_eq in Hab; subst b.
      destruct (IH _ Hps) as [t ->]. now exists t.
  - intros [t ->]. apply startswith_app.
Qed.

Lemma contains_here (p s : str) :
  startswith p s = true -> contains p s = true.
Proof. intros H. destruct s; simpl; now rewrite H. Qed.

Lemma contains_later (p : str) (c : ascii) (s : str) :
  contains p s = true -> contains p (c :: s) = true.
Proof. intros H. simpl. now rewrite H, orb_true_r. Qed.

Lemma contains_spec (p s : str) :
  contains p s = true <-> exists pre post, s = pre ++ p ++ post.
Proof.
  split.
  - induction s as [|c s IH]; simpl; intros H.
    + rewrite orb_false_r in H. apply startswith_spec in H as [t Ht].
      now exists [], t.
    + apply orb_prop in H as [H|H].
      * apply startswith_spec in H as [t Ht]. now exists [], t.
      * destruct (IH H) as (pre & post & ->). now exists (c :: pre), post.
  - intros (pre & post & ->).
    induction pre as [|c pre IH].
    + rewrite app_nil_l. apply contains_here, startswith_app.
    + rewrite <- app_comm_cons. now apply contains_later.
Qed.

Lemma eqb_eq (s t : str) : eqb s t = true <-> s = t.
Proof.
  revert t; induction s as [|a s IH]; intros [|b t]; simpl;
    try (split; [discriminate | congruence]); [tauto|].
  rewrite andb_true_iff, chr_eqb_eq, IH. split.
  - now intros [-> ->].
  - intros E; now inversion E.
Qed.

Lemma lstrip_split (s : str) :
  exists ws, s = ws ++ lstrip s /\ Forall (fun c => isspace c = true) ws.
Proof.
  induction s as [|c s (ws & E & HF)]; simpl.
  - now exists [].
  - destruct (isspace c) eqn:Ec.
    + exists (c :: ws). split; [simpl; congruence | now constructor].
    + now exists [].
Qed.

Lemma rstrip_split (s : str) :
  exists ws, s = rstrip s ++ ws /\ Forall (fun c => isspace c = true) ws.
Proof.
  unfold rstrip. destruct (lstrip_split (rev s)) as (ws & E & HF).
  exists (rev ws). split.
  - rewrite <- rev_app_distr, <- E. now rewrite rev_involutive.
  - now apply Forall_rev.
Qed.

End StrFacts.

(** ** The matcher *)

Module ReFacts.

Import Py Re StrFacts.

Section Backtracking.

Variable fl : flags.
Variable A : Type.

Implicit Types (k : cont A) (r : regex) (s : str) (caps : captures).

Lemma star_greedy_sound a (k' : option ascii -> str -> option A) g caps :
  forall s prev x,
    star_greedy fl a k' prev s = Some x ->
    exists p' s',
      Matches fl (Star g a) prev s caps p' s' caps /\ k' p' s' = Some x.
Proof.
  induction s as [|ch t IH]; intros prev x H; simpl in H.
  - exists prev, []. split; [constructor | exact H].
  - destruct (atom_match fl a ch) eqn:Ea.
    + destruct (star_greedy fl a k' (Some ch) t) as [y|] eqn:Et.
      * injection H as <-. destruct (IH _ _ Et) as (p' & s' & Hm & Hk).
        exists p', s'. split; [now apply M_StarStep | exact Hk].
      * exists prev, (ch :: t). split; [constructor | exact H].
    + exists prev, (ch :: t). split; [constructor | exact H].
Qed.

Lemma star_lazy_sound a (k' : option ascii -> str -> option A) g caps :
  forall s prev x,
    star_lazy fl a k' prev s = Some x ->
    exists p' s',
      Matches fl (Star g a) prev s caps p' s' caps /\ k' p' s' = Some x.
Proof.
  induction s as [|ch t IH]; intros prev x H; simpl in H.
  - destruct (k' prev []) eqn:Ek; [|discriminate].
    exists prev, []. split; [constructor | congruence].
  - destruct (k' prev (ch :: t)) eqn:Ek.
    + exists prev, (ch :: t). split; [constructor | congruence].
    + destruct (atom_match fl a ch) eqn:Ea; [|discriminate].
      destruct (IH _ _ H) as (p' & s' & Hm & Hk).
      exists p', s'. split; [now apply M_StarStep | exact Hk].
Qed.

(** Whatever the matcher returns came through a way of matching. *)
Lemma exec_sound r :
  forall prev s caps k x,
    exec fl r prev s caps k = Some x ->
    exists p' s' c',
      Matches fl r prev s caps p' s' c' /\ k p' s' c' = Some x.
Proof.
  induction r as [|a| |r1 IH1 r2 IH2|r1 IH1 r2 IH2|g a|n r IH];
    intros prev s caps k x H; simpl in H.
  - exists prev, s, caps. split; [constructor | exact H].
  - destruct s as [|ch t]; [discriminate|].
    destruct (atom_match fl a ch) eqn:Ea; [|discriminate].
    exists (Some ch), t, caps. split; [now constructor | exact H].
  - destruct (at_boundary prev s) eqn:Eb; [|discriminate].
    exists prev, s, caps. split; [now constructor | exact H].
  - destruct (IH1 _ _ _ _ _ H) as (p1 & s1 & c1 & Hm1 & H1).
    destruct (IH2 _ _ _ _ _ H1) as (p2 & s2 & c2 & Hm2 & H2).
    exists p2, s2, c2. split; [econstructor; eassumption | exact H2].
  - destruct (exec fl r1 prev s caps k) as [y|] eqn:E1.
    + injection H as <-.
      destruct (IH1 _ _ _ _ _ E1) as (p' & s' & c' & Hm & Hk).
      exists p', s', c'. split; [now apply M_AltL | exact Hk].
    + destruct (IH2 _ _ _ _ _ H) as (p' & s' & c' & Hm & Hk).
      exists p', s', c'. split; [now apply M_AltR | exact Hk].
  - destruct g.
    + destruct (star_greedy_sound a _ true caps _ _ H) as (p' & s' & Hm & Hk).
      now exists p', s', caps.
    + destruct (star_lazy_sound a _ false caps _ _ H) as (p' & s' & Hm & Hk).
      now exists p', s', caps.
  - destruct (IH _ _ _ _ _ H) as (p' & s' & c' & Hm & Hk).
    eexists p', s', _. split; [apply M_Group; eassumption | exact Hk].
Qed.

Lemma star_greedy_stop a (k' : option ascii -> str -> option A) prev s :
  k' prev s <> None -> star_greedy fl a k' prev s <> None.
Proof.
  intros H. destruct s as [|ch t]; simpl; [exact H|].
  destruct (atom_match fl a ch); [|exact H].
  now destruct (star_greedy fl a k' (Some ch) t).
Qed.

Lemma star_lazy_stop a (k' : option ascii -> str -> option A) prev s :
  k' prev s <> None -> star_lazy fl a k' prev s <> None.
Proof.
  intros H. destruct s as [|ch t]; simpl;
    destruct (k' prev _); congruence.
Qed.

(** Where there is a way of matching that the rest of the pattern accepts,
    the matcher finds a match (that one or an earlier one). *)
Lemma exec_complete r prev s caps p' s' c' :
  Matches fl r prev s caps p' s' c' ->
  forall k, k p' s' c' <> None -> exec fl r prev s caps k <> None.
Proof.
  induction 1 as
    [p s c|a ch t p c Ha|p s c Hb
    |r1 r2 p s c p1 s1 c1 p2 s2 c2 _ IH1 _ IH2
    |r1 r2 p s c p' s' c' _ IH|r1 r2 p s c p' s' c' _ IH
    |g a p s c|g a ch t p c p' s' c' Ha _ IH
    |n r p s c p' s' c' _ IH];
    intros k Hk; simpl.
  - exact Hk.
  - now rewrite Ha.
  - now rewrite Hb.
  - apply IH1. now apply IH2.
  - specialize (IH k Hk). now destruct (exec fl r1 p s c k).
  - specialize (IH k Hk). now destruct (exec fl r1 p s c k).
  - destruct g; [now apply star_greedy_stop | now apply star_lazy_stop].
  - specialize (IH k Hk). simpl in IH. destruct g; simpl; rewrite Ha.
    + now destruct (star_greedy fl a _ (Some ch) t).
    + now destruct (k p (ch :: t) c).
  - now apply IH.
Qed.

End Backtracking.

Section Positions.

Variable fl : flags.

Lemma step_over_app prev a b :
  step_over prev (a ++ b) = step_over (step_over prev a) b.
Proof. apply fold_left_app. Qed.

Lemma step_over_snoc prev a c : step_over prev (a ++ [c]) = Some c.
Proof. now rewrite step_over_app. Qed.

Lemma step_over_cons prev c a :
  step_over prev (c :: a) = step_over (Some c) a.
Proof. reflexivity. Qed.

(** A match goes over a prefix of the text. *)
Lemma Matches_prefix r prev s caps p' s' c' :
  Matches fl r prev s caps p' s' c' ->
  exists mid, s = mid ++ s' /\ p' = step_over prev mid.
Proof.
  induction 1 as
    [p s c|a ch t p c Ha|p s c Hb
    |r1 r2 p s c p1 s1 c1 p2 s2 c2 _ IH1 _ IH2
    |r1 r2 p s c p' s' c' _ IH|r1 r2 p s c p' s' c' _ IH
    |g a p s c|g a ch t p c p' s' c' Ha _ IH
    |n r p s c p' s' c' _ IH].
  - now exists [].
  - now exists [ch].
  - now exists [].
  - destruct IH1 as (m1 & -> & ->), IH2 as (m2 & -> & ->).
    exists (m1 ++ m2). now rewrite app_assoc, step_over_app.
  - exact IH.
  - exact IH.
  - now exists [].
  - destruct IH as (m & -> & ->). now exists (ch :: m).
  - exact IH.
Qed.

Lemma Matches_Cat_inv r1 r2 p s c p2 s2 c2 :
  Matches fl (Cat r1 r2) p s c p2 s2 c2 ->
  exists p1 s1 c1,
    Matches fl r1 p s c p1 s1 c1 /\ Matches fl r2 p1 s1 c1 p2 s2 c2.
Proof. inversion 1; subst. eexists _, _, _. split; eassumption. Qed.

Lemma Matches_Alt_inv r1 r2 p s c p' s' c' :
  Matches fl (Alt r1 r2) p s c p' s' c' ->
  Matches fl r1 p s c p' s' c' \/ Matches fl r2 p s c p' s' c'.
Proof. inversion 1; subst; tauto. Qed.

Lemma Matches_WordB_inv p s c p' s' c' :
  Matches fl WordB p s c p' s' c' ->
  at_boundary p s = true /\ p' = p /\ s' = s /\ c' = c.
Proof. inversion 1; subst. now repeat split. Qed.

Lemma Matches_Group_inv n r p s c p' s' c' :
  Matches fl (Group n r) p s c p' s' c' ->
  exists c0,
    Matches fl r p s c p' s' c0 /\
    c' = (n, firstn (length s - length s') s) :: c0.
Proof. inversion 1; subst. eexists. split; [eassumption | reflexivity]. Qed.

(** The ways a literal matches. *)
Lemma Matches_lit w prev s caps p' s' c' :
  Matches fl (lit w) prev s caps p' s' c' <->
  exists mid,
    s = mid ++ s' /\ p' = step_over prev mid /\ c' = caps /\
    Forall2 (fun x ch => atom_match fl (Chr x) ch = true) w mid.
Proof.
  revert prev s; induction w as [|x w IH]; intros prev s; simpl; split.
  - inversion 1; subst. exists []. now repeat split.
  - intros (mid & -> & -> & -> & HF). inversion HF; subst. constructor.
  - inversion 1 as [| | |r1 r2 p0 s0 c0 p1 s1 c1 p2 s2 c2 H1 H2| | | | |]; subst.
    inversion H1; subst.
    apply IH in H2 as (mid & -> & -> & -> & HF).
    exists (ch :: mid). repeat split. now constructor.
  - intros (mid & -> & -> & -> & HF).
    inversion HF as [|x0 ch w0 mid0 Hx HF']; subst.
    simpl. econstructor; [now constructor|].
    apply IH. exists mid0. now repeat split.
Qed.

Lemma match_at_some r prev s :
  match_at fl r prev s <> None <->
  exists p' s' c', Matches fl r prev s [] p' s' c'.
Proof.
  unfold match_at; split.
  - intros H. destruct (exec fl r prev s [] _) as [m|] eqn:E; [|congruence].
    apply exec_sound in E as (p' & s' & c' & Hm & _). now exists p', s', c'.
  - intros (p' & s' & c' & Hm).
    apply (exec_complete Hm). discriminate.
Qed.

(** What a match reports: it went over [whole m] and stopped at
    [after m]. *)
Lemma match_at_shape r prev s m :
  match_at fl r prev s = Some m ->
  s = whole m ++ after m /\ last_chr m = step_over prev (whole m) /\
  Matches fl r prev s [] (last_chr m) (after m) (groups m).
Proof.
  unfold match_at; intros H.
  apply exec_sound in H as (p' & s' & c' & Hm & E).
  injection E as <-; simpl.
  destruct (Matches_prefix Hm) as (mid & -> & ->).
  rewrite length_app, Nat.add_sub, firstn_app, Nat.sub_diag, firstn_all.
  simpl. rewrite app_nil_r. now repeat split.
Qed.

(** [search] finds a match exactly when the pattern matches somewhere. *)
Lemma search_some r s :
  forall prev,
    search fl r prev s <> None <->
    exists pre rest,
      s = pre ++ rest /\ match_at fl r (step_over prev pre) rest <> None.
Proof.
  induction s as [|c t IH]; intros prev; simpl.
  - destruct (match_at fl r prev []) eqn:E; split; try congruence.
    + intros _. exists [], []. simpl. now rewrite E.
    + intros (pre & rest & Hs & Hm).
      symmetry in Hs. apply app_eq_nil in Hs as [-> ->]. simpl in Hm.
      congruence.
  - destruct (match_at fl r prev (c :: t)) eqn:E; split.
    + intros _. exists [], (c :: t). simpl. now rewrite E.
    + discriminate.
    + intros H. apply IH in H as (pre & rest & -> & Hm).
      now exists (c :: pre), rest.
    + intros (pre & rest & Hs & Hm). apply IH.
      destruct pre as [|c0 pre]; simpl in *.
      * subst rest. congruence.
      * injection Hs as <- ->. now exists pre, rest.
Qed.

End Positions.

(** Under [re.I] a literal matches the texts that are equal to it up to
    letter case. *)
Lemma ignore_case_lit (w mid : str) :
  Forall2 (fun x ch => atom_match ignore_case (Chr x) ch = true) w mid <->
  lower mid = lower w.
Proof.
  split.
  - induction 1 as [|x ch w mid Hx _ IH]; simpl; [reflexivity|].
    simpl in Hx. apply chr_eqb_eq in Hx. now rewrite Hx, IH.
  - revert mid; induction w as [|x w IH]; intros [|ch mid] H;
      simpl in H; try discriminate; constructor.
    + simpl. apply chr_eqb_eq. now injection H.
    + apply IH. now injection H.
Qed.

#[local] Arguments atom_match : simpl never.

Lemma exec_lit A fl (w : str) :
  forall prev s caps (k : cont A),
    exec fl (lit w) prev s caps k =
    match lit_match fl w s with
    | Some (mid, rest) => k (step_over prev mid) rest caps
    | None => None
    end.
Proof.
  induction w as [|x w IH]; intros prev s caps k; simpl; [reflexivity|].
  destruct s as [|c t]; [reflexivity|].
  destruct (atom_match fl (Chr x) c); [|reflexivity].
  rewrite IH. now destruct (lit_match fl w t) as [[mid rest]|].
Qed.

Lemma lit_match_app fl (w s mid rest : str) :
  lit_match fl w s = Some (mid, rest) ->
  s = mid ++ rest /\ length mid = length w /\
  Forall2 (fun x c => atom_match fl (Chr x) c = true) w mid.
Proof.
  revert s mid rest; induction w as [|x w IH]; intros s mid rest H; simpl in H.
  - injection H as <- <-. now repeat split.
  - destruct s as [|c t]; [discriminate|].
    destruct (atom_match fl (Chr x) c) eqn:E; [|discriminate].
    destruct (lit_match fl w t) as [[m r]|] eqn:Em; [|discriminate].
    injection H as <- <-. destruct (IH _ _ _ Em) as (-> & Hl & HF).
    repeat split; simpl; [congruence | now constructor].
Qed.

(** A group around a literal: the match is the text gone over. *)
Lemma match_at_group_lit fl (w : str) prev s :
  match_at fl (Group 1 (lit w)) prev s =
  match lit_match fl w s with
  | Some (mid, rest) =>
      Some {| whole := mid; last_chr := step_over prev mid; after := rest;
              groups := [(1, mid)] |}
  | None => None
  end.
Proof.
  unfold match_at. simpl. rewrite exec_lit.
  destruct (lit_match fl w s) as [[mid rest]|] eqn:E; [|reflexivity].
  apply lit_match_app in E as (-> & _ & _).
  rewrite length_app, Nat.add_sub, firstn_app, Nat.sub_diag, firstn_all.
  simpl. now rewrite app_nil_r.
Qed.

Lemma star_greedy_cons A fl a (k' : option ascii -> str -> option A)
    prev c t :
  star_greedy fl a k' prev (c :: t) =
  if atom_match fl a c then
    match star_greedy fl a k' (Some c) t with
    | Some x => Some x
    | None => k' prev (c :: t)
    end
  else k' prev (c :: t).
Proof. reflexivity. Qed.

Lemma star_lazy_unfold A fl a (k' : option ascii -> str -> option A)
    prev s :
  star_lazy fl a k' prev s =
  match k' prev s with
  | Some x => Some x
  | None =>
      match s with
      | c :: t =>
          if atom_match fl a c then star_lazy fl a k' (Some c) t else None
      | [] => None
      end
  end.
Proof. destruct s; reflexivity. Qed.

Lemma star_greedy_ext A fl a (k1 k2 : option ascii -> str -> option A) :
  (forall p u, k1 p u = k2 p u) ->
  forall s prev, star_greedy fl a k1 prev s = star_greedy fl a k2 prev s.
Proof.
  intros E. induction s as [|c t IH]; intros prev; simpl; [apply E|].
  now rewrite IH, E.
Qed.

Lemma findall_loop_unfold fl r f prev s :
  findall_loop fl r (S f) prev s =
  match match_at fl r prev s with
  | Some m =>
      m :: match whole m with
           | _ :: _ => findall_loop fl r f (last_chr m) (after m)
           | [] =>
               match s with
               | c :: t => findall_loop fl r f (Some c) t
               | [] => []
               end
           end
  | None =>
      match s with
      | c :: t => findall_loop fl r f (Some c) t
      | [] => []
      end
  end.
Proof. reflexivity. Qed.

End ReFacts.

(** ** The command gate *)

Module Gate.

Import Py Re App Spec StrFacts.

Lemma blocked_iff (command : str) :
  any (fun p => contains p command) unsafe_patterns = true <-> denied command.
Proof.
  unfold any, unsafe_patterns, denied, substring; simpl.
  rewrite !orb_true_iff, !contains_spec. simpl. intuition discriminate.
Qed.

Section WithProcess.

Variable popen : str -> option (list str).

Lemma blocked_runs_nothing (command : str) (st : app) :
  any (fun p => contains p command) unsafe_patterns = true ->
  execute_safe_command popen command st =
  (st, inl (SecurityError "Blocked potentially dangerous command")).
Proof. intros H. unfold execute_safe_command. now rewrite H. Qed.

Lemma for_each_no_security (lines : list str) (st st' : app) (msg : str) :
  for_each lines
    (fun output => if truthy output then queue_put (strip output) else ret tt)
    st <> (st', inl (SecurityError msg)).
Proof.
  revert st; induction lines as [|l lines IH]; intros st; simpl.
  - discriminate.
  - unfold bind at 1. destruct (truthy l); simpl; apply IH.
Qed.

Lemma allowed_no_security (command : str) (st st' : app) (msg : str) :
  any (fun p => contains p command) unsafe_patterns = false ->
  execute_safe_command popen command st <> (st', inl (SecurityError msg)).
Proof.
  intros H. unfold execute_safe_command. rewrite H.
  unfold bind at 1. simpl. unfold bind at 1. unfold Popen.
  destruct (popen command) as [lines|]; simpl; [|discriminate].
  apply for_each_no_security.
Qed.

End WithProcess.

(** C1. [execute_safe_command] raises [SecurityError] exactly for the
    commands that hold one of "rm ", "del ", "format ", "chmod", "sudo" as a
    substring, compared character for character; a rejected command leaves
    the whole state as it was, so nothing is put on the queue and no process
    is started; "sudo rm -rf /" is rejected and "echo hello" is not: it is
    echoed on the queue and started. *)
Theorem execute_safe_command_gate :
  (forall popen command st,
      (exists st' msg,
          execute_safe_command popen command st = (st', inl (SecurityError msg)))
      <-> denied command)
  /\ (forall popen command st st' msg,
         execute_safe_command popen command st = (st', inl (SecurityError msg)) ->
         st' = st /\ queue st' = queue st /\ spawned st' = spawned st)
  /\ (forall popen st,
         execute_safe_command popen "sudo rm -rf /" st =
         (st, inl (SecurityError "Blocked potentially dangerous command")))
  /\ (forall popen st st' msg,
         execute_safe_command popen "echo hello" st
         <> (st', inl (SecurityError msg)))
  /\ (let (st', r) := execute_safe_command Example.quiet "echo hello" Example.fresh in
      r = inr tt /\ queue st' = [list_ascii_of_string "$ echo hello"] /\
      spawned st' = [list_ascii_of_string "echo hello"]).
Proof.
  assert (gate : forall popen command st st' msg,
             execute_safe_command popen command st = (st', inl (SecurityError msg)) ->
             any (fun p => contains p command) unsafe_patterns = true /\ st' = st).
  { intros popen command st st' msg H.
    destruct (any (fun p => contains p command) unsafe_patterns) eqn:E.
    - rewrite blocked_runs_nothing in H by assumption.
      split; [reflexivity | congruence].
    - now apply allowed_no_security in H. }
  split; [|split; [|split; [|split]]].
  - intros popen command st; split.
    + intros (st' & msg & H). apply blocked_iff.
      now destruct (gate _ _ _ _ _ H).
    + intros H. apply blocked_iff in H. eexists _, _.
      now apply blocked_runs_nothing.
  - intros popen command st st' msg H.
    destruct (gate _ _ _ _ _ H) as [_ ->]. now repeat split.
  - intros popen st. now apply blocked_runs_nothing.
  - intros popen st st' msg. now apply allowed_no_security.
  - vm_compute. now repeat split.
Qed.

End Gate.

(** ** Input validation *)

Module Validation.

Import Py Re App Spec StrFacts ReFacts.

Ltac inv H := inversion H; subst; clear H.

Ltac each_chr c := destruct c as [[] [] [] [] [] [] [] []].

Lemma isword_lower (c : ascii) : isword (lower_chr c) = isword c.
Proof. each_chr c; reflexivity. Qed.

Lemma space_not_word (c : ascii) : isspace c = true -> isword c = false.
Proof. each_chr c; intros H; first [reflexivity | discriminate H]. Qed.

Lemma lower_idem (c : ascii) : lower_chr (lower_chr c) = lower_chr c.
Proof. each_chr c; reflexivity. Qed.

Lemma lower_word (mid : str) :
  Forall (fun c => isword c = true) (lower mid) ->
  Forall (fun c => isword c = true) mid.
Proof.
  induction mid as [|c mid IH]; simpl; intros H; [constructor|].
  inv H. constructor; [now rewrite <- isword_lower | now apply IH].
Qed.

Lemma step_over_last (P : ascii -> Prop) (mid : str) :
  mid <> [] -> Forall P mid ->
  forall prev, exists c, step_over prev mid = Some c /\ P c.
Proof.
  induction mid as [|c mid IH]; intros Hne HF prev; [congruence|].
  inv HF. destruct mid as [|d mid].
  - now exists c.
  - rewrite step_over_cons. now apply IH.
Qed.

Lemma sensitive_word_letters (w : str) :
  is_sensitive_word w -> w <> [] /\ Forall (fun c => isword c = true) w.
Proof.
  intros [-> | [-> | ->]]; (split; [discriminate|]);
    repeat constructor.
Qed.

(** A sensitive word, in any letter case, begins and ends with a word
    character. *)
Lemma sensitive_word_shape (mid : str) :
  is_sensitive_word (lower mid) ->
  word_after mid = true /\
  forall prev post,
    word_after (mid ++ post) = true /\
    word_before (step_over prev mid) = true.
Proof.
  intros H. apply sensitive_word_letters in H as [Hne HF].
  apply lower_word in HF.
  assert (Hne' : mid <> []) by (intros ->; now apply Hne).
  destruct mid as [|c mid]; [congruence|].
  assert (Hc : isword c = true) by now inv HF.
  split; [exact Hc|]. intros prev post. split; [exact Hc|].
  destruct (step_over_last Hne' HF prev) as (d & -> & Hd). exact Hd.
Qed.

Lemma is_sensitive_word_lower (w : str) :
  is_sensitive_word w -> lower w = w.
Proof. now intros [-> | [-> | ->]]. Qed.

(** The ways [\b(password|secret|key)\b] matches at a position. *)
Lemma sensitive_re_matches prev s :
  (exists p' s' c', Matches ignore_case sensitive_re prev s [] p' s' c') <->
  exists mid post,
    s = mid ++ post /\ is_sensitive_word (lower mid) /\
    word_before prev = false /\ word_after post = false.
Proof.
  unfold sensitive_re; split.
  - intros (p' & s' & c' & H).
    apply Matches_Cat_inv in H as (p1 & s1 & c1 & H1 & H).
    apply Matches_WordB_inv in H1 as (Hb1 & -> & -> & ->).
    apply Matches_Cat_inv in H as (p2 & s2 & c2 & H2 & H).
    apply Matches_WordB_inv in H as (Hb2 & -> & -> & ->).
    apply Matches_Group_inv in H2 as (c0 & H2 & _).
    assert (Hw : exists mid, s = mid ++ s2 /\ p2 = step_over prev mid /\
                             is_sensitive_word (lower mid)).
    { apply Matches_Alt_inv in H2 as [H2|H2];
        [|apply Matches_Alt_inv in H2 as [H2|H2]];
        apply Matches_lit in H2 as (mid & -> & -> & _ & HF);
        apply ignore_case_lit in HF; exists mid; repeat split;
        rewrite HF; unfold is_sensitive_word; simpl; tauto. }
    destruct Hw as (mid & -> & -> & Hw).
    exists mid, s2.
    destruct (sensitive_word_shape _ Hw) as [_ Hs].
    destruct (Hs prev s2) as [Ha Hb].
    unfold at_boundary in Hb1, Hb2. rewrite Ha in Hb1. rewrite Hb in Hb2.
    repeat split; trivial.
    + now destruct (word_before prev).
    + now destruct (word_after s2).
  - intros (mid & post & -> & Hw & Hb & Ha).
    destruct (sensitive_word_shape _ Hw) as [_ Hs].
    destruct (Hs prev post) as [Hfirst Hlast].
    assert (Hlit : forall w, lower mid = lower w ->
               Matches ignore_case (lit w) prev (mid ++ post) []
                       (step_over prev mid) post []).
    { intros w E. apply Matches_lit. exists mid. repeat split.
      now apply ignore_case_lit. }
    exists (step_over prev mid), post. eexists.
    econstructor.
    { constructor. unfold at_boundary. now rewrite Hb, Hfirst. }
    econstructor.
    { apply M_Group.
      destruct Hw as [E | [E | E]].
      - apply M_AltL. apply Hlit. now rewrite E.
      - apply M_AltR, M_AltL. apply Hlit. now rewrite E.
      - apply M_AltR, M_AltR. apply Hlit. now rewrite E. }
    constructor. unfold at_boundary. now rewrite Hlast, Ha.
Qed.

Lemma ends_spec (pre : str) :
  (forall pre' c, pre = pre' ++ [c] -> isword c = false) <->
  word_before (step_over None pre) = false.
Proof.
  destruct pre as [|x q _] using rev_ind.
  - split; [reflexivity|]. intros _ pre' c E. now destruct pre'.
  - rewrite step_over_snoc. simpl. split.
    + intros H. now apply (H q).
    + intros H pre' c E. apply app_inj_tail in E as [_ <-]. exact H.
Qed.

Lemma starts_spec (post : str) :
  (forall c post', post = c :: post' -> isword c = false) <->
  word_after post = false.
Proof.
  destruct post as [|x post]; simpl; split; trivial.
  - intros _ c post'. discriminate.
  - intros H. now apply (H x post).
  - intros H c post' E. now injection E as <- _.
Qed.

Lemma sensitive_occurs (s : str) : sensitive s <-> occurs s.
Proof.
  unfold sensitive, whole_word, occurs, is_sensitive_word. split.
  - intros [H | [H | H]]; destruct H as (pre & mid & post & E & W & Hb & Ha);
      exists pre, mid, post; rewrite <- ends_spec, <- starts_spec; tauto.
  - intros (pre & mid & post & E & W & Hb & Ha).
    rewrite <- ends_spec in Hb. rewrite <- starts_spec in Ha.
    destruct W as [W | [W | W]]; [left | right; left | right; right];
      exists pre, mid, post; tauto.
Qed.

(** [re.search] finds the pattern exactly in the prompts that hold a
    sensitive word. *)
Lemma re_search_sensitive (text : str) :
  re_search ignore_case sensitive_re text <> None <-> sensitive text.
Proof.
  rewrite sensitive_occurs. unfold re_search, occurs.
  rewrite search_some. split.
  - intros (pre & rest & -> & H).
    apply match_at_some, sensitive_re_matches in H
      as (mid & post & -> & W & Hb & Ha).
    now exists pre, mid, post.
  - intros (pre & mid & post & -> & W & Hb & Ha).
    exists pre, (mid ++ post). split; [reflexivity|].
    apply match_at_some, sensitive_re_matches. now exists mid, post.
Qed.

Lemma step_over_nonempty (pre : str) (p q : option ascii) :
  pre <> [] -> step_over p pre = step_over q pre.
Proof. destruct pre; [congruence | reflexivity]. Qed.

Lemma occurs_cons_space (c : ascii) (s : str) :
  isspace c = true -> occurs (c :: s) <-> occurs s.
Proof.
  intros Hc. apply space_not_word in Hc. split.
  - intros (pre & mid & post & E & W & Hb & Ha).
    destruct (sensitive_word_shape _ W) as [_ Hs].
    destruct pre as [|c0 pre]; simpl in E.
    + destruct (Hs None post) as [Hf _]. rewrite <- E in Hf. simpl in Hf.
      congruence.
    + injection E as <- ->. exists pre, mid, post. repeat split; trivial.
      destruct pre as [|d pre]; [reflexivity|].
      now rewrite step_over_cons in Hb.
  - intros (pre & mid & post & -> & W & Hb & Ha).
    exists (c :: pre), mid, post. repeat split; trivial.
    destruct pre as [|d pre]; [exact Hc | exact Hb].
Qed.

Lemma occurs_snoc_space (c : ascii) (s : str) :
  isspace c = true -> occurs (s ++ [c]) <-> occurs s.
Proof.
  intros Hc. apply space_not_word in Hc. split.
  - intros (pre & mid & post & E & W & Hb & Ha).
    destruct (sensitive_word_shape _ W) as [_ Hs].
    destruct post as [|x q _] using rev_ind.
    + destruct (Hs None []) as [_ Hl].
      destruct mid as [|y m _] using rev_ind; [discriminate Hl|].
      rewrite app_nil_r, app_assoc in E. apply app_inj_tail in E as [_ <-].
      rewrite step_over_snoc in Hl. simpl in Hl. congruence.
    + rewrite !app_assoc in E. apply app_inj_tail in E as [-> <-].
      exists pre, mid, q. rewrite <- app_assoc. repeat split; trivial.
      now destruct q.
  - intros (pre & mid & post & -> & W & Hb & Ha).
    exists pre, mid, (post ++ [c]). rewrite <- !app_assoc.
    repeat split; trivial. now destruct post.
Qed.

Lemma occurs_spaces_left (ws s : str) :
  Forall (fun c => isspace c = true) ws -> occurs (ws ++ s) <-> occurs s.
Proof.
  induction 1 as [|c ws Hc _ IH]; simpl; [tauto|].
  now rewrite occurs_cons_space.
Qed.

Lemma occurs_spaces_right (ws : str) :
  Forall (fun c => isspace c = true) ws ->
  forall s, occurs (s ++ ws) <-> occurs s.
Proof.
  induction 1 as [|c ws Hc _ IH]; intros s.
  - now rewrite app_nil_r.
  - change (c :: ws) with ([c] ++ ws). rewrite app_assoc, IH.
    now apply occurs_snoc_space.
Qed.

(** Trimming the prompt neither adds nor removes a sensitive word. *)
Lemma sensitive_strip (s : str) : sensitive (strip s) <-> sensitive s.
Proof.
  rewrite !sensitive_occurs. unfold strip.
  destruct (lstrip_split s) as (l & El & Hl).
  destruct (rstrip_split (lstrip s)) as (r & Er & Hr).
  rewrite El at 2. rewrite occurs_spaces_left by assumption.
  rewrite Er at 2. now rewrite occurs_spaces_right.
Qed.

Lemma ltb_lt_false (a b : nat) : (a <? b) = false <-> b <= a.
Proof. apply Nat.ltb_ge. Qed.

(** What [validate_input] does, case by case. *)
Lemma validate_input_cases (st : app) :
  let text := strip (text_entry st) in
  validate_input st =
  if length text <? 10
  then (st, inl (ValueError "Query too short (minimum 10 characters)"))
  else if 5000 <? length text
  then (st, inl (ValueError "Query too long (maximum 5000 characters)"))
  else match re_search ignore_case sensitive_re text with
       | Some _ => (st, inl (SecurityError "Query contains sensitive keywords"))
       | None => activity_log "Input validated." st
       end.
Proof.
  unfold validate_input, bind, gets; simpl.
  destruct (length (strip (text_entry st)) <? 10); [reflexivity|].
  destruct (5000 <? length (strip (text_entry st))); [reflexivity|].
  now destruct (re_search _ sensitive_re (strip (text_entry st))).
Qed.

(** C2. A prompt whose trimmed length is below 10 or above 5000 fails
    validation; a prompt whose trimmed length is within [10, 5000] and which
    holds none of the whole words "password", "secret", "key" in any letter
    case passes; a prompt within the bounds that holds one of them raises
    [SecurityError]. *)
Theorem validate_input_spec (st : app) :
  let n := length (strip (text_entry st)) in
  (n < 10 \/ 5000 < n -> exists e, validate_input st = (st, inl e)) /\
  (10 <= n <= 5000 -> ~ sensitive (text_entry st) ->
   exists st', validate_input st = (st', inr tt)) /\
  (10 <= n <= 5000 -> sensitive (text_entry st) ->
   validate_input st =
   (st, inl (SecurityError "Query contains sensitive keywords"))).
Proof.
  intros n. rewrite validate_input_cases. fold n.
  destruct (Nat.ltb_spec n 10) as [Hlo|Hlo];
    [|destruct (Nat.ltb_spec 5000 n) as [Hhi|Hhi]].
  - split; [eexists; reflexivity | split; lia].
  - split; [eexists; reflexivity | split; lia].
  - pose proof (re_search_sensitive (strip (text_entry st))) as Hs.
    rewrite sensitive_strip in Hs.
    destruct (re_search ignore_case sensitive_re (strip (text_entry st))).
    + assert (sensitive (text_entry st)) by (apply Hs; discriminate).
      split; [lia | split; [tauto | reflexivity]].
    + assert (~ sensitive (text_entry st)) by (rewrite <- Hs; congruence).
      split; [lia | split; [|tauto]].
      intros _ _. eexists. reflexivity.
Qed.

(** C9. The length checks come first: a prompt whose trimmed length is below
    10 or above 5000 raises the [ValueError] of its length, whether it holds
    a sensitive word or not, as the prompt "my key" does; [SecurityError]
    is raised only for a prompt within the bounds (that holds a sensitive
    word). *)
Theorem validate_input_order (st : app) :
  let n := length (strip (text_entry st)) in
  (n < 10 ->
   validate_input st =
   (st, inl (ValueError "Query too short (minimum 10 characters)"))) /\
  (5000 < n ->
   validate_input st =
   (st, inl (ValueError "Query too long (maximum 5000 characters)"))) /\
  (forall st' msg,
      validate_input st = (st', inl (SecurityError msg)) ->
      10 <= n <= 5000 /\ sensitive (text_entry st)) /\
  (sensitive "my key" /\
   validate_input (Example.with_prompt "my key") =
   (Example.with_prompt "my key",
    inl (ValueError "Query too short (minimum 10 characters)"))).
Proof.
  intros n. rewrite validate_input_cases. fold n.
  split; [|split; [|split]].
  - intros H. apply Nat.ltb_lt in H. now rewrite H.
  - intros H.
    assert (E : (n <? 10) = false) by (apply Nat.ltb_ge; lia).
    apply Nat.ltb_lt in H. now rewrite E, H.
  - intros st' msg H.
    destruct (Nat.ltb_spec n 10); [discriminate|].
    destruct (Nat.ltb_spec 5000 n); [discriminate|].
    split; [lia|].
    apply sensitive_strip, re_search_sensitive.
    destruct (re_search ignore_case sensitive_re (strip (text_entry st)));
      [discriminate | discriminate H].
  - split; [|reflexivity].
    apply re_search_sensitive. vm_compute. discriminate.
Qed.

(** Three prompts: too short, accepted, and rejected for a sensitive word. *)
Example validate_input_examples :
  snd (validate_input (Example.with_prompt "  hi  ")) =
  inl (ValueError "Query too short (minimum 10 characters)") /\
  snd (validate_input (Example.with_prompt "Draw me a sheep")) = inr tt /\
  snd (validate_input (Example.with_prompt "What is my PassWord?")) =
  inl (SecurityError "Query contains sensitive keywords") /\
  snd (validate_input (Example.with_prompt "Sort the keys of a dict")) =
  inr tt.
Proof. vm_compute. now repeat split. Qed.

End Validation.

(** ** Submitting a prompt *)

Module Submission.

Import Py Re App Spec Validation.

(** X4. [safe_generate_content] never raises.  When validation fails, it
    emits the one notification [error] with the message of the exception,
    and leaves the button, the prompt box and the pool as they were; when
    validation passes, it emits nothing, disables the button, makes the
    prompt box read-only and gives one generation task to the pool. *)
Theorem safe_generate_content_spec (st : app) :
  let (st', r) := safe_generate_content st in
  r = inr tt /\
  match validate_input st with
  | (_, inl e) =>
      emitted st' = emitted st ++ [error (str_of_exn e)] /\
      running_tasks st' = running_tasks st /\
      generate_btn_enabled st' = generate_btn_enabled st /\
      text_entry_read_only st' = text_entry_read_only st
  | (_, inr _) =>
      emitted st' = emitted st /\
      running_tasks st' = running_tasks st ++ [generate_task] /\
      generate_btn_enabled st' = false /\
      text_entry_read_only st' = true
  end.
Proof.
  unfold safe_generate_content, try_except. unfold bind at 1.
  rewrite validate_input_cases. cbv zeta.
  destruct (length (strip (text_entry st)) <? 10); [simpl; now repeat split|].
  destruct (5000 <? length (strip (text_entry st))); [simpl; now repeat split|].
  destruct (re_search ignore_case sensitive_re (strip (text_entry st)));
    simpl; now repeat split.
Qed.

End Submission.

(** ** The background workers *)

Module Workers.

Import Py Re App Spec StrFacts.

Section WithProvider.

Variable provider : nat -> str -> exn + response.

Lemma generate_content_run (prompt : str) (st : app) :
  generate_content provider prompt st =
  (fst (record_call prompt st),
   provider (length (provider_calls st)) prompt).
Proof.
  unfold generate_content, bind, gets, lift; simpl.
  now destruct (provider (length (provider_calls st)) prompt).
Qed.

Lemma generate_then_text (prompt : str) (st : app) :
  (r <- generate_content provider prompt ;; get_text r) st =
  (fst (record_call prompt st),
   attempt provider (length (provider_calls st)) prompt).
Proof.
  unfold bind, generate_content, gets, attempt, get_text, lift, bind; simpl.
  destruct (provider (length (provider_calls st)) prompt) as [e|r]; simpl.
  - reflexivity.
  - destruct (text r); reflexivity.
Qed.

Lemma length_snoc {A} (l : list A) (x : A) : length (l ++ [x]) = S (length l).
Proof. rewrite length_app. simpl. lia. Qed.

(** The worker never raises, calls the provider as [fallback_outcome] says,
    and emits the outcome and then [ui_update(True)]. *)
Lemma worker_trace (st st' : app) (r : exn + unit) :
  generate_content_worker provider st = (st', r) ->
  r = inr tt /\
  provider_calls st' =
    provider_calls st ++
    repeat (strip (text_entry st)) (fst (fallback_outcome provider st)) /\
  emitted st' =
    emitted st ++ [snd (fallback_outcome provider st); ui_update true].
Proof.
  unfold fallback_outcome, generate_content_worker, try_finally, try_except.
  unfold bind at 1. unfold gets at 1.
  unfold bind at 1. unfold gets at 1.
  unfold bind at 1.
  destruct (eqb (selected_model st) primary).
  - unfold bind at 1. rewrite generate_then_text.
    destruct (attempt provider (length (provider_calls st))
                      (strip (text_entry st))) as [e1|t] eqn:E1.
    + unfold bind at 1. simpl activity_log.
      unfold activity_log at 1, modify at 1.
      rewrite generate_then_text. simpl provider_calls. rewrite length_snoc.
      destruct (attempt provider (S (length (provider_calls st)))
                        (strip (text_entry st))) as [e2|t] eqn:E2;
        simpl; intros H; injection H as <- <-; simpl;
        rewrite <- !app_assoc; now repeat split.
    + simpl. intros H; injection H as <- <-. simpl.
      rewrite <- !app_assoc. now repeat split.
  - simpl. intros H; injection H as <- <-. simpl.
    rewrite app_nil_r, <- !app_assoc. now repeat split.
Qed.

End WithProvider.

Lemma count_ui_enable_app (l1 l2 : list signal) :
  count_ui_enable (l1 ++ l2) = count_ui_enable l1 + count_ui_enable l2.
Proof. unfold count_ui_enable. now rewrite filter_app, length_app. Qed.

(** C3, as the claim states it, fails: with the primary model selected and
    its call raising, the worker does call the primary provider a second
    time, and the task ends with a result, not with an error. *)
Lemma primary_failure_is_retried :
  let st := Example.with_prompt "Draw me a sheep" in
  let st' := fst (generate_content_worker Example.fail_then_ok st) in
  selected_model st = primary /\
  attempt Example.fail_then_ok 0 "Draw me a sheep"
    = inl (OtherError "503 unavailable") /\
  provider_calls st' =
    [list_ascii_of_string "Draw me a sheep";
     list_ascii_of_string "Draw me a sheep"] /\
  emitted st' = [result "recovered"; ui_update true].
Proof. vm_compute. now repeat split. Qed.

(** C3, amended.  The worker never raises.  It calls the primary provider at
    most twice, the second call being the one retry, and the retry is made
    exactly when the first attempt raised, which happens only for the
    primary model itself: the output of any other model is simulated
    without a call.  A result is reported by [result]; when the retry
    raises as well, the task ends with the notification [error], and no
    third call is made. *)
Theorem generate_content_worker_fallback
    (provider : nat -> str -> exn + response) (st : app) :
  let prompt := strip (text_entry st) in
  let n := length (provider_calls st) in
  let st' := fst (generate_content_worker provider st) in
  snd (generate_content_worker provider st) = inr tt /\
  (exists calls,
      calls <= 2 /\
      provider_calls st' = provider_calls st ++ repeat prompt calls /\
      (calls = 2 <->
       eqb (selected_model st) primary = true /\
       exists e, attempt provider n prompt = inl e) /\
      (calls = 0 <-> eqb (selected_model st) primary = false)) /\
  (eqb (selected_model st) primary = false ->
   emitted st' =
   emitted st ++ [result (simulated (selected_model st) prompt);
                  ui_update true]) /\
  (forall t,
      eqb (selected_model st) primary = true ->
      attempt provider n prompt = inr t ->
      emitted st' = emitted st ++ [result t; ui_update true]) /\
  (forall e t,
      eqb (selected_model st) primary = true ->
      attempt provider n prompt = inl e ->
      attempt provider (S n) prompt = inr t ->
      emitted st' = emitted st ++ [result t; ui_update true]) /\
  (forall e e',
      eqb (selected_model st) primary = true ->
      attempt provider n prompt = inl e ->
      attempt provider (S n) prompt = inl e' ->
      emitted st' =
      emitted st ++ [error ("API Error: " ++ str_of_exn e'); ui_update true]).
Proof.
  intros prompt n st'.
  destruct (generate_content_worker provider st) as [st1 r] eqn:E.
  apply worker_trace in E as (-> & Hcalls & Hem).
  subst st'. simpl fst. simpl snd.
  unfold fallback_outcome in Hcalls, Hem. fold prompt n in Hcalls, Hem.
  split; [reflexivity|].
  destruct (eqb (selected_model st) primary);
    [destruct (attempt provider n prompt) as [e1|t1];
     [destruct (attempt provider (S n) prompt) as [e2|t2]|]|];
    simpl in Hcalls, Hem;
    (split; [|repeat split; intros; try discriminate; subst;
              repeat match goal with
                     | H : inl _ = inl _ |- _ => injection H as <-
                     | H : inr _ = inr _ |- _ => injection H as <-
                     end; exact Hem]).
  - exists 2. repeat split; trivial; try discriminate. now exists e1.
  - exists 2. repeat split; trivial; try discriminate. now exists e1.
  - exists 1. repeat split; trivial; try discriminate; try lia.
    now intros [_ [e He]].
  - exists 0. repeat split; trivial; try discriminate; lia.
Qed.

(** A code-modification task, with a provider that answers and with one
    that raises: no [ui_update] is emitted in either case. *)
Lemma modify_emits_no_ui_update :
  emitted (fst (apply_code_changes_worker Example.always_ok
                  "Add a docstring" "x = 1" Example.fresh))
    = [code_modification "print(1)"] /\
  emitted (fst (apply_code_changes_worker Example.always_fails
                  "Add a docstring" "x = 1" Example.fresh))
    = [error "Error modifying code: 503 unavailable"] /\
  count_ui_enable
    (emitted (fst (apply_code_changes_worker Example.always_ok
                     "Add a docstring" "x = 1" Example.fresh))) = 0 /\
  count_ui_enable
    (emitted (fst (apply_code_changes_worker Example.always_fails
                     "Add a docstring" "x = 1" Example.fresh))) = 0.
Proof. vm_compute. now repeat split. Qed.

(** The whole of a code-modification task: one call of the provider and
    one notification; nothing else is touched. *)
Lemma modify_run (provider : nat -> str -> exn + response)
    (instructions current_code : str) (st : app) :
  apply_code_changes_worker provider instructions current_code st =
  (fst (emit
          match attempt provider (length (provider_calls st))
                        (modification_prompt instructions current_code) with
          | inr t => code_modification t
          | inl e => error ("Error modifying code: " ++ str_of_exn e)
          end
          (fst (record_call
                  (modification_prompt instructions current_code) st))),
   inr tt).
Proof.
  unfold apply_code_changes_worker, attempt, try_except.
  unfold bind at 1 2. unfold generate_content. unfold bind at 1.
  cbn [gets]. unfold bind at 1. cbn [record_call modify].
  destruct (provider _ _) as [e|resp]; cbn [lift raise ret].
  - reflexivity.
  - unfold bind, get_text, lift.
    destruct (text resp) as [e|t]; reflexivity.
Qed.

(** C7, where the code departs from it.  A generation task does what the
    claim says: it emits [ui_update(True)] exactly once, as its last
    notification, whatever its outcome, by the [finally] clause of
    [generate_content_worker].  A code-modification task never raises,
    emits one notification and no [ui_update], and leaves the button as
    [apply_code_changes] disabled it.  When the provider answers, the
    notification is [code_modification], and its slot enables the button
    again; when the call raises, the notification is [error], whose slot
    only shows the message: nothing enables the input again.  So it is
    for the provider that answers 503: after the click, the task and the
    slots, the button is still disabled. *)
Theorem ui_enable_per_task :
  (forall provider st,
      let st' := fst (generate_content_worker provider st) in
      count_ui_enable (emitted st') = count_ui_enable (emitted st) + 1 /\
      exists before, emitted st' = before ++ [ui_update true]) /\
  (forall provider home writable popen instructions current_code st,
      let st' :=
        fst (apply_code_changes_worker provider instructions current_code st)
      in
      snd (apply_code_changes_worker provider instructions current_code st)
        = inr tt /\
      count_ui_enable (emitted st') = count_ui_enable (emitted st) /\
      apply_changes_btn_enabled st' = apply_changes_btn_enabled st /\
      match attempt provider (length (provider_calls st))
                    (modification_prompt instructions current_code) with
      | inr t =>
          emitted st' = emitted st ++ [code_modification t] /\
          apply_changes_btn_enabled
            (fst (slot home writable popen (code_modification t) st'))
            = true
      | inl e =>
          emitted st' =
            emitted st ++ [error ("Error modifying code: " ++ str_of_exn e)] /\
          apply_changes_btn_enabled
            (fst (slot home writable popen
                       (error ("Error modifying code: " ++ str_of_exn e)) st'))
            = apply_changes_btn_enabled st
      end) /\
  (let st0 := Example.with_instructions "Add a docstring" "x = 1" in
   let st1 := fst (apply_code_changes st0) in
   let st2 :=
     fst (run_task Example.always_fails
                   (modify_task "Add a docstring" "x = 1") st1) in
   let st3 :=
     fst (for_each (emitted st2)
            (slot Example.home Example.writable Example.quiet) st2) in
   apply_changes_btn_enabled st0 = true /\
   running_tasks st1 = [modify_task "Add a docstring" "x = 1"] /\
   emitted st2 = [error "Error modifying code: 503 unavailable"] /\
   count_ui_enable (emitted st2) = 0 /\
   error_boxes st3 =
     [list_ascii_of_string "Error modifying code: 503 unavailable"] /\
   apply_changes_btn_enabled st3 = false).
Proof.
  split; [|split].
  - intros provider st st'. subst st'.
    destruct (generate_content_worker provider st) as [st1 r] eqn:E.
    apply worker_trace in E as (_ & _ & Hem). simpl fst. rewrite Hem.
    split.
    + rewrite count_ui_enable_app. unfold count_ui_enable at 2. simpl.
      destruct (snd (fallback_outcome provider st)) eqn:Eo;
        try reflexivity.
      unfold fallback_outcome in Eo.
      destruct (eqb _ primary); [|discriminate].
      destruct (attempt provider _ _); [|discriminate].
      destruct (attempt provider _ _); discriminate.
    + exists (emitted st ++ [snd (fallback_outcome provider st)]).
      now rewrite <- app_assoc.
  - intros provider home writable popen instructions current_code st st'.
    subst st'. rewrite modify_run. cbn [fst snd].
    destruct (attempt provider _ _) as [e|t];
      cbn [emit record_call modify fst emitted apply_changes_btn_enabled
           slot show_error handle_code_modification_result];
      (split; [reflexivity|]);
      (split; [rewrite count_ui_enable_app; unfold count_ui_enable at 2;
               simpl; lia|]);
      now repeat split.
  - vm_compute. now repeat split.
Qed.

End Workers.

(** ** Code blocks: two examples *)

Module Blocks.

Import Py Re App Spec StrFacts.
Import Example.

(** C8. For the text of one html block [<p>hi</p>] and one css block
    [body{color:red}], the html fragment holds no "<html", so the document
    is the synthesized one: one wrapper, one style block, which holds the
    css fragment, the html fragment in the body, and an empty script
    block. *)
Theorem assembly_example (home : str) (writable : str -> bool)
    (popen : str -> option (list str)) :
  extract_code_blocks hi_red =
    [ (list_ascii_of_string "python", []);
      (list_ascii_of_string "javascript", []);
      (list_ascii_of_string "html", [list_ascii_of_string "<p>hi</p>"]);
      (list_ascii_of_string "css", [list_ascii_of_string "body{color:red}"]);
      (list_ascii_of_string "bash", []) ] /\
  contains "<html" (lower ("<p>hi</p>" ++ [nl])) = false /\
  (let (st', r) :=
     process_code_blocks home writable popen hi_red Example.fresh in
   r = inr tt /\
   live_preview st' =
     Some (template ("body{color:red}" ++ [nl]) ("<p>hi</p>" ++ [nl]) []) /\
   live_preview st' = Some hi_red_document /\
   files st' = [] /\ spawned st' = []) /\
  wrappers hi_red_document = 1 /\
  occurrences "<style>" hi_red_document = 1 /\
  occurrences "</style>" hi_red_document = 1 /\
  occurrences "<script>" hi_red_document = 1 /\
  contains ("<style>" ++ [nl] ++ "body{color:red}" ++ [nl] ++ [nl] ++ "</style>")
           hi_red_document = true /\
  contains ("<body>" ++ [nl] ++ "<p>hi</p>" ++ [nl]) hi_red_document = true /\
  contains ("<script>" ++ [nl] ++ [nl] ++ "</script>") hi_red_document = true.
Proof. vm_compute. now repeat split. Qed.

(** C6, where the code departs from it.  A block with a tag that is not one
    of the five is not extracted, and [process_code_blocks] does nothing for
    it: no file, no line on the queue, no command, no document; the state
    is left as it was. *)
Theorem unrecognized_tag_is_dropped (home : str) (writable : str -> bool)
    (popen : str -> option (list str)) (st : app) :
  extract_code_blocks ruby =
    [ (list_ascii_of_string "python", []);
      (list_ascii_of_string "javascript", []);
      (list_ascii_of_string "html", []);
      (list_ascii_of_string "css", []);
      (list_ascii_of_string "bash", []) ] /\
  process_code_blocks home writable popen ruby st = (st, inr tt).
Proof. vm_compute. now split. Qed.

(** The languages [process_code_blocks] goes through are the five of
    [extract_code_blocks], whatever the text: the last branch of its loop,
    which writes a file named after the tag, is never taken. *)
Lemma extracted_languages (text : str) :
  map fst (extract_code_blocks text) = languages /\
  forall item,
    In item (extract_code_blocks text) ->
    eqb (fst item) "html" || eqb (fst item) "css" ||
    eqb (fst item) "javascript" || eqb (fst item) "python" ||
    eqb (fst item) "bash" = true.
Proof.
  split; [reflexivity|].
  unfold extract_code_blocks, languages. simpl.
  intros item [<- | [<- | [<- | [<- | [<- | []]]]]]; reflexivity.
Qed.

(** A tag that only begins with one of the five is read as that one,
    and what is left of the tag as the first characters of the block: a
    block tagged python3 is written to code_1.py with the "3" in front, and
    run. *)
Example tag_prefix_is_recognized :
  extract_code_blocks python3 =
    [ (list_ascii_of_string "python",
       [list_ascii_of_string "3" ++ [nl] ++ "print(1)"]);
      (list_ascii_of_string "javascript", []);
      (list_ascii_of_string "html", []);
      (list_ascii_of_string "css", []);
      (list_ascii_of_string "bash", []) ] /\
  (let (st', r) :=
     process_code_blocks Example.home Example.writable Example.quiet
                         python3 Example.fresh in
   r = inr tt /\
   files st' =
     [ (list_ascii_of_string "/home/user/Desktop/code_1.py",
        list_ascii_of_string "3" ++ [nl] ++ "print(1)") ] /\
   spawned st' =
     [ list_ascii_of_string "python " ++ [dquote] ++
       "/home/user/Desktop/code_1.py" ++ [dquote] ] /\
   live_preview st' = None).
Proof. vm_compute. now repeat split. Qed.

End Blocks.

(** ** Document assembly *)

Module Assembly.

Import Py Re App Spec StrFacts ReFacts.

#[local] Arguments atom_match : simpl never.
#[local] Arguments chr_eqb : simpl never.

(** A replacement without a backslash, followed by [\1], stands for itself
    followed by the text of group 1. *)
Lemma parse_template_plain (n : nat) (block : str) :
  1 <= n ->
  contains "\" block = false ->
  parse_template n None (block ++ "\1") = inr (map TChr block ++ [TRef 1]).
Proof.
  intros Hn. induction block as [|c block IH]; intros Hc.
  - simpl. destruct n; [lia|]. reflexivity.
  - simpl in Hc. apply orb_false_elim in Hc as [Hc1 Hc2].
    rewrite andb_true_r in Hc1. 
    change ((c :: block) ++ "\1") with (c :: (block ++ "\1")).
    cbn [parse_template]. unfold backslash. 
    assert (E : chr_eqb c "\"%char = false)
      by (apply chr_eqb_neq; intros ->; discriminate).
    rewrite E. simpl negb. cbv iota. rewrite IH; [reflexivity|].
    destruct block; simpl in *; trivial.
Qed.


Lemma expand_plain (block : str) (m : rmatch) (g : str) :
  group 1 (groups m) = Some g ->
  expand (map TChr block ++ [TRef 1]) m = block ++ g.
Proof.
  intros Hg. unfold expand. rewrite flat_map_app. simpl. rewrite Hg, app_nil_r.
  f_equal. induction block as [|c block IH]; simpl; congruence.
Qed.

Lemma sub_loop_plain (block w : str) (fuel : nat) :
  forall prev s,
    sub_loop ignore_case (Group 1 (lit w)) (map TChr block ++ [TRef 1])
             fuel prev s =
    insert_before block w fuel s.
Proof.
  induction fuel as [|f IH]; intros prev s; simpl; [reflexivity|].
  rewrite match_at_group_lit.
  destruct (lit_match ignore_case w s) as [[mid rest]|].
  - rewrite expand_plain with (g := mid) by reflexivity. simpl whole.
    destruct mid as [|c mid]; simpl.
    + rewrite app_nil_r. destruct s; [reflexivity|]. now rewrite IH.
    + rewrite <- app_assoc. simpl. now rewrite IH.
  - destruct s; [reflexivity|]. now rewrite IH.
Qed.

(** [re.sub] with a replacement that holds no backslash of its own. *)
Lemma re_sub_plain (block w text : str) :
  contains "\" block = false ->
  re_sub ignore_case (Group 1 (lit w)) (block ++ "\1") text =
  inr (insert_before block w (S (length text)) text).
Proof.
  intros Hb. unfold re_sub.
  rewrite parse_template_plain; [|apply Nat.le_max_l|exact Hb].
  now rewrite sub_loop_plain.
Qed.


(** *** Counting wrappers *)

Lemma occurrences_cons (p : str) (c : ascii) (s : str) :
  occurrences p (c :: s) =
  (if startswith p (c :: s) then 1 else 0) + occurrences p s.
Proof. reflexivity. Qed.

Lemma occurrences_none (p s : str) :
  occurrences p s = 0 <-> contains p s = false.
Proof.
  induction s as [|c s IH].
  - simpl. destruct (startswith p []); simpl; split; congruence || lia.
  - rewrite occurrences_cons. simpl contains.
    destruct (startswith p (c :: s)); simpl.
    + split; [lia | discriminate].
    + exact IH.
Qed.

(** No "<html" runs over such a character. *)
Lemma startswith_cut (b : ascii) (x y : str) :
  outside b -> x <> [] ->
  startswith "<html" (x ++ b :: y) = startswith "<html" x.
Proof.
  intros (Hh & Ht & Hm & Hl) Hx.
  destruct x as [|c1 [|c2 [|c3 [|c4 [|c5 x]]]]]; [congruence|..]; simpl;
    rewrite ?Hh, ?Ht, ?Hm, ?Hl, ?andb_false_r; reflexivity.
Qed.

Lemma occurrences_cut (b : ascii) (x y : str) :
  outside b ->
  occurrences "<html" (x ++ b :: y) =
  occurrences "<html" x + occurrences "<html" (b :: y).
Proof.
  intros Hb. induction x as [|c x IH]; [reflexivity|].
  rewrite <- app_comm_cons.
  rewrite (occurrences_cons _ c (x ++ b :: y)), (occurrences_cons _ c x), IH.
  rewrite app_comm_cons, startswith_cut by (trivial; discriminate). lia.
Qed.

Lemma wrappers_cut (b : ascii) (x y : str) :
  outside (lower_chr b) ->
  wrappers (x ++ b :: y) = wrappers x + wrappers (b :: y).
Proof.
  intros Hb. unfold wrappers, lower. rewrite map_app. simpl map.
  now apply occurrences_cut.
Qed.

Lemma wrappers_nl (x y : str) :
  wrappers (x ++ nl :: y) = wrappers x + wrappers y.
Proof. rewrite wrappers_cut; [reflexivity | now repeat split]. Qed.



Lemma lit_match_lower (w s mid rest : str) :
  lit_match ignore_case w s = Some (mid, rest) ->
  s = mid ++ rest /\ lower mid = lower w.
Proof.
  intros H. apply lit_match_app in H as (-> & _ & HF).
  split; [reflexivity | now apply ignore_case_lit].
Qed.

Section InsertBefore.

(** The inserted block begins with "<" and holds no wrapper; the tag looked
    for is "</head>" or "</body>". *)
Variables block w : str.
Hypothesis block_head : exists b, block = "<"%char :: b.
Hypothesis block_plain : wrappers block = 0.
Hypothesis closing : w = "</head>" \/ w = "</body>".




End InsertBefore.


Lemma contains_chr_app (c : ascii) (x y : str) :
  contains [c] (x ++ y) = contains [c] x || contains [c] y.
Proof.
  induction x as [|d x IH]; simpl.
  - destruct y; reflexivity.
  - now rewrite IH, orb_assoc.
Qed.





(** The value of [combined_html] when the css and the javascript hold no
    backslash. *)
Lemma combined_html_plain (html css js : str) :
  contains "\" css = false -> contains "\" js = false ->
  combined_html html css js =
  inr (if negb (contains "<html" (lower html)) then template css html js
       else
         let with_css :=
           if truthy css
           then insert_before (style_block css) "</head>"
                              (S (length html)) html
           else html in
         if truthy js
         then insert_before (script_block js) "</body>"
                            (S (length with_css)) with_css
         else with_css).
Proof.
  intros Hc Hj. unfold combined_html, head_re, body_re.
  destruct (contains "<html" (lower html)); [|reflexivity]. simpl negb.
  cbv iota.
  assert (Ec : "<style>" ++ css ++ "</style>\1" = style_block css ++ "\1")
    by (unfold style_block; now rewrite <- !app_assoc).
  assert (Ej : "<script>" ++ js ++ "</script>\1" = script_block js ++ "\1")
    by (unfold script_block; now rewrite <- !app_assoc).
  assert (Hc' : contains "\" (style_block css) = false).
  { unfold style_block.
    change (list_ascii_of_string "\") with ["\"%char] in *.
    now rewrite !contains_chr_app, Hc. }
  assert (Hj' : contains "\" (script_block js) = false).
  { unfold script_block.
    change (list_ascii_of_string "\") with ["\"%char] in *.
    now rewrite !contains_chr_app, Hj. }
  rewrite Ec, Ej.
  destruct (truthy css); destruct (truthy js);
    rewrite ?re_sub_plain by assumption; cbv zeta;
    rewrite ?re_sub_plain by assumption; reflexivity.
Qed.





(** C10, where the code departs from it.  A full document, css with a
    backslash: the style block that is put before "</head>" is not the css
    fragment in a style tag, its "\n" has become a line feed; and with "\d"
    in the javascript [re.sub] raises, so that no document is assembled at
    all. *)
Theorem backslash_is_processed :
  (let st' :=
     fst (process_code_blocks Example.home Example.writable Example.quiet
                              Example.escaped_newline Example.fresh) in
   live_preview st' =
     Some ("<html><head><style>p:after{content:'" ++ [nl] ++ "'}" ++ [nl] ++
           "</style></head><body></body></html>" ++ [nl]) /\
   live_preview st' <>
     Some ("<html><head>" ++
           style_block ("p:after{content:'\n'}" ++ [nl]) ++
           "</head><body></body></html>" ++ [nl])) /\
  (let (st', r) :=
     process_code_blocks Example.home Example.writable Example.quiet
                         Example.escaped_class Example.fresh in
   r = inl (ReError "bad escape") /\ live_preview st' = None).
Proof. vm_compute. repeat split; discriminate. Qed.

End Assembly.

(** ** Insertion into a full document *)

Module Insertion.

Import Py Re App Spec StrFacts ReFacts Assembly.

#[local] Arguments atom_match : simpl never.
#[local] Arguments chr_eqb : simpl never.

Lemma insert_before_unfold (block w : str) (f : nat) (s : str) :
  insert_before block w (S f) s =
  match lit_match ignore_case w s with
  | Some ((_ :: _) as mid, rest) =>
      block ++ mid ++ insert_before block w f rest
  | Some ([], _) =>
      block ++ match s with
               | c :: t => c :: insert_before block w f t
               | [] => []
               end
  | None =>
      match s with
      | c :: t => c :: insert_before block w f t
      | [] => []
      end
  end.
Proof. reflexivity. Qed.

Lemma lit_match_here (w m b : str) :
  lower m = lower w -> lit_match ignore_case w (m ++ b) = Some (m, b).
Proof.
  revert m; induction w as [|x w IH]; intros [|c m] E; try discriminate.
  - reflexivity.
  - simpl in E. injection E as Ec Em. simpl.
    unfold atom_match. simpl IGNORECASE. cbv iota.
    rewrite Ec, chr_eqb_refl. now rewrite IH.
Qed.

Lemma lit_match_extend fl (w s mid rest x : str) :
  lit_match fl w s = Some (mid, rest) ->
  lit_match fl w (s ++ x) = Some (mid, rest ++ x).
Proof.
  revert s mid rest; induction w as [|y w IH]; intros s mid rest H.
  - simpl in *. now injection H as <- <-.
  - destruct s as [|c t]; [discriminate|]. simpl in *.
    destruct (atom_match fl (Chr y) c); [|discriminate].
    destruct (lit_match fl w t) as [[m r]|] eqn:E; [|discriminate].
    injection H as <- <-. now rewrite (IH _ _ _ E).
Qed.

Lemma lit_match_length fl (w s mid rest : str) :
  lit_match fl w s = Some (mid, rest) -> length mid = length w.
Proof. now intros (_ & H & _)%lit_match_app. Qed.

Section Closing.

Variables block w : str.
Hypothesis closing : w = "</head>" \/ w = "</body>".

Lemma closing_nonempty (s mid rest : str) :
  lit_match ignore_case w s = Some (mid, rest) ->
  exists c m, mid = c :: m /\ length rest < length s.
Proof.
  intros H. apply lit_match_app in H as (-> & Hl & _).
  destruct mid as [|c m]; [destruct closing; subst w; discriminate|].
  exists c, m. split; [reflexivity|]. rewrite length_app. simpl. lia.
Qed.

(** More fuel than characters changes nothing. *)
Lemma insert_before_fuel (f1 : nat) :
  forall f2 s,
    length s < f1 -> length s < f2 ->
    insert_before block w f1 s = insert_before block w f2 s.
Proof.
  induction f1 as [|f1 IH]; intros f2 s H1 H2; [lia|].
  destruct f2 as [|f2]; [lia|]. rewrite !insert_before_unfold.
  destruct (lit_match ignore_case w s) as [[mid rest]|] eqn:E.
  - destruct (closing_nonempty _ E) as (c & m & -> & Hl).
    f_equal. f_equal. apply IH; lia.
  - destruct s as [|c t]; [reflexivity|]. f_equal. apply IH; simpl in *; lia.
Qed.

Lemma insert_all_unfold (s : str) :
  insert_all block w s =
  match lit_match ignore_case w s with
  | Some (mid, rest) => block ++ mid ++ insert_all block w rest
  | None =>
      match s with
      | c :: t => c :: insert_all block w t
      | [] => []
      end
  end.
Proof.
  unfold insert_all. rewrite insert_before_unfold.
  destruct (lit_match ignore_case w s) as [[mid rest]|] eqn:E.
  - destruct (closing_nonempty _ E) as (c & m & -> & Hl).
    f_equal. f_equal. apply insert_before_fuel; lia.
  - destruct s as [|c t]; [reflexivity|]. reflexivity.
Qed.

Lemma closing_head (m : str) :
  lower m = lower w ->
  exists c m', m = c :: m' /\ lower_chr c = "<"%char.
Proof.
  intros E. destruct m as [|c m']; [destruct closing; subst w; discriminate|].
  exists c, m'. split; [reflexivity|].
  destruct closing; subst w; simpl in E; injection E as E0 _; now rewrite E0.
Qed.

(** No place where [w] stands runs into a later one: its only "<" is its
    first character. *)
Lemma no_straddle (a m b mid rest : str) :
  lit_match ignore_case w (a ++ m ++ b) = Some (mid, rest) ->
  lower m = lower w -> a <> [] -> length a < length w -> False.
Proof.
  intros H E Ha Hl. destruct (closing_head _ E) as (c0 & m' & -> & Hc0).
  assert (Hw : length w = 7) by (destruct closing; subst w; reflexivity).
  rewrite Hw in Hl. clear E Hw.
  destruct a as [|a1 [|a2 [|a3 [|a4 [|a5 [|a6 [|a7 a]]]]]]];
    [congruence|..|simpl in Hl; lia];
    destruct closing; subst w;
    cbn [lit_match List.app list_ascii_of_string] in H;
    repeat match type of H with
           | context [if atom_match ?f ?x ?c then _ else _] =>
               destruct (atom_match f x c) eqn:?; [|discriminate H]
           end;
    match goal with
    | Ec : atom_match ignore_case (Chr _) c0 = true |- _ =>
        unfold atom_match in Ec; simpl in Ec; rewrite Hc0 in Ec;
        vm_compute in Ec; discriminate Ec
    end.
Qed.

Lemma lit_match_within fl (v a x mid rest : str) :
  lit_match fl v (a ++ x) = Some (mid, rest) ->
  length v <= length a ->
  exists a', lit_match fl v a = Some (mid, a') /\ rest = a' ++ x.
Proof.
  revert a mid rest; induction v as [|y v IH]; intros a mid rest H Hl.
  - simpl in *. injection H as <- <-. now exists a.
  - destruct a as [|c a]; [simpl in Hl; lia|]. simpl in *.
    destruct (atom_match fl (Chr y) c); [|discriminate].
    destruct (lit_match fl v (a ++ x)) as [[m r]|] eqn:E; [|discriminate].
    injection H as <- <-.
    destruct (IH _ _ _ E) as (a' & -> & ->); [lia|]. now exists a'.
Qed.

Lemma insert_all_nil : insert_all block w [] = [].
Proof.
  rewrite insert_all_unfold.
  now destruct closing; subst w.
Qed.

(** The block is put before every place where the closing tag stands:
    whichever such place the text is cut at, the result is the result for
    the text before it, the block, the tag as it is written, and the
    result for the text after it. *)
Lemma insert_all_every (m b : str) :
  lower m = lower w ->
  forall a,
    insert_all block w (a ++ m ++ b) =
    insert_all block w a ++ block ++ m ++ insert_all block w b.
Proof.
  intros E a.
  remember (length a) as n eqn:Hn. revert a Hn.
  induction n as [n IH] using lt_wf_ind. intros a Hn.
  destruct a as [|c a].
  - rewrite insert_all_nil. simpl. rewrite insert_all_unfold.
    now rewrite lit_match_here.
  - rewrite (insert_all_unfold ((c :: a) ++ m ++ b)).
    rewrite (insert_all_unfold (c :: a)).
    destruct (lit_match ignore_case w ((c :: a) ++ m ++ b))
      as [[mid rest]|] eqn:Hm.
    + destruct (Nat.le_gt_cases (length w) (length (c :: a))) as [Hl|Hl].
      * destruct (@lit_match_within _ _ _ _ _ _ Hm Hl) as (a' & Ha & ->).
        rewrite Ha. apply lit_match_app in Ha as (Hs & Hlen & _).
        rewrite (IH (length a')) with (a := a'); trivial.
        -- now rewrite <- !app_assoc.
        -- rewrite Hn, Hs, length_app.
           destruct mid; [|simpl; lia].
           destruct closing; subst w; discriminate.
      * exfalso. eapply no_straddle; eauto. discriminate.
    + destruct (lit_match ignore_case w (c :: a)) as [[mid rest]|] eqn:Ha.
      * apply lit_match_extend with (x := m ++ b) in Ha. congruence.
      * simpl. f_equal. apply (IH (length a)); [simpl in Hn; lia | reflexivity].
Qed.

Lemma lit_match_contains (s mid rest : str) :
  lit_match ignore_case w s = Some (mid, rest) ->
  startswith w (lower s) = true.
Proof.
  intros H. apply lit_match_lower in H as (-> & E).
  unfold lower in *. rewrite map_app.
  replace (map lower_chr mid) with w
    by (rewrite E; destruct closing; subst w; reflexivity).
  apply startswith_app.
Qed.

(** Where the closing tag stands nowhere, nothing is put in. *)
Lemma insert_all_absent (s : str) :
  contains w (lower s) = false -> insert_all block w s = s.
Proof.
  induction s as [|c t IH]; intros H; [apply insert_all_nil|].
  rewrite insert_all_unfold.
  destruct (lit_match ignore_case w (c :: t)) as [[mid rest]|] eqn:E.
  - apply lit_match_contains in E. simpl in H. simpl in E.
    rewrite E in H. discriminate H.
  - f_equal. apply IH. simpl in H. now apply orb_false_elim in H as [_ H].
Qed.

End Closing.

(** X1. In a full document, css without a backslash goes, in a style tag,
    before every "</head>", however it is written, and nowhere when there
    is none. *)
Theorem style_before_every_head (html css : str) :
  contains "<html" (lower html) = true ->
  truthy css = true ->
  contains "\" css = false ->
  exists doc,
    combined_html html css [] = inr doc /\
    (contains "</head>" (lower html) = false -> doc = html) /\
    (forall a m b,
        html = a ++ m ++ b -> lower m = "</head>" ->
        doc = insert_all (style_block css) "</head>" a ++
              style_block css ++ m ++
              insert_all (style_block css) "</head>" b).
Proof.
  intros Hh Hc Hb. rewrite combined_html_plain by trivial.
  rewrite Hh, Hc. simpl negb. cbv iota zeta. simpl truthy. cbv iota.
  eexists; split; [reflexivity|].
  fold (insert_all (style_block css) "</head>" html). split.
  - intros H. apply insert_all_absent; auto.
  - intros a m b -> E. apply insert_all_every; auto.
Qed.

(** X2. Likewise javascript without a backslash, in a script tag, before
    every "</body>". *)
Theorem script_before_every_body (html js : str) :
  contains "<html" (lower html) = true ->
  truthy js = true ->
  contains "\" js = false ->
  exists doc,
    combined_html html [] js = inr doc /\
    (contains "</body>" (lower html) = false -> doc = html) /\
    (forall a m b,
        html = a ++ m ++ b -> lower m = "</body>" ->
        doc = insert_all (script_block js) "</body>" a ++
              script_block js ++ m ++
              insert_all (script_block js) "</body>" b).
Proof.
  intros Hh Hj Hb. rewrite combined_html_plain by trivial.
  rewrite Hh, Hj. simpl negb. cbv iota zeta. simpl truthy. cbv iota.
  eexists; split; [reflexivity|].
  fold (insert_all (script_block js) "</body>" html). split.
  - intros H. apply insert_all_absent; auto.
  - intros a m b -> E. apply insert_all_every; auto.
Qed.

Lemma style_before_every_head_witness :
  exists doc,
    combined_html Example.shouting "p{}" [] = inr doc /\
    (contains "</head>" (lower Example.shouting) = false -> doc = Example.shouting) /\
    (forall a m b,
        Example.shouting = a ++ m ++ b -> lower m = "</head>" ->
        doc = insert_all (style_block "p{}") "</head>" a ++
              style_block "p{}" ++ m ++
              insert_all (style_block "p{}") "</head>" b).
Proof. apply (@style_before_every_head Example.shouting "p{}"); reflexivity. Defined.

Lemma script_before_every_body_witness :
  exists doc,
    combined_html Example.shouting [] "f()" = inr doc /\
    (contains "</body>" (lower Example.shouting) = false -> doc = Example.shouting) /\
    (forall a m b,
        Example.shouting = a ++ m ++ b -> lower m = "</body>" ->
        doc = insert_all (script_block "f()") "</body>" a ++
              script_block "f()" ++ m ++
              insert_all (script_block "f()") "</body>" b).
Proof. apply (@script_before_every_body Example.shouting "f()"); reflexivity. Defined.

(** Both closing tags of [Example.shouting] get the block, the one in capitals as
    well. *)
Example style_twice :
  combined_html Example.shouting "p{}" [] =
  inr (list_ascii_of_string
         "<html><head><style>p{}</style></head><BODY><style>p{}</style></HEAD></BODY></html>").
Proof. reflexivity. Qed.

End Insertion.

(** ** Extraction of the code blocks *)

Module Fences.

Import Py Re App Spec StrFacts ReFacts.

#[local] Arguments atom_match : simpl never.
#[local] Arguments chr_eqb : simpl never.

Lemma lit_match_exact (w s : str) :
  lit_match dotall w s =
  if startswith w s then Some (w, skipn (length w) s) else None.
Proof.
  revert s; induction w as [|x w IH]; intros s; simpl; [reflexivity|].
  destruct s as [|c t]; [reflexivity|].
  unfold atom_match; simpl IGNORECASE. cbv iota.
  destruct (chr_eqb c x) eqn:E.
  - apply chr_eqb_eq in E as ->. rewrite chr_eqb_refl, IH. simpl.
    now destruct (startswith w t).
  - replace (chr_eqb x c) with false; [reflexivity|].
    symmetry. apply chr_eqb_neq. apply chr_eqb_neq in E. congruence.
Qed.

Lemma space_not_backtick (c : ascii) :
  isspace c = true -> chr_eqb "`" c = false.
Proof.
  intros H. apply chr_eqb_neq. intros <-. discriminate.
Qed.

Lemma lazy_scan_unfold (u : str) :
  lazy_scan u =
  if startswith fence (lstrip u) then Some ([], skipn 3 (lstrip u))
  else
    match u with
    | c :: t =>
        match lazy_scan t with
        | Some (g, rest) => Some (c :: g, rest)
        | None => None
        end
    | [] => None
    end.
Proof. destruct u; reflexivity. Qed.

Section Fence.

Variable A : Type.
Variable k : cont A.

(** The closing [\s*```]. *)
Lemma closing_fence (caps : captures) :
  forall v prev,
    star_greedy dotall Space
      (fun p v' => exec dotall (lit fence) p v' caps k) prev v =
    if startswith fence (lstrip v)
    then k (Some "`"%char) (skipn 3 (lstrip v)) caps
    else None.
Proof.
  induction v as [|c t IH]; intros prev.
  - reflexivity.
  - rewrite star_greedy_cons. unfold atom_match at 1. simpl lstrip.
    destruct (isspace c) eqn:Ec.
    + rewrite IH.
      assert (E : exec dotall (lit fence) prev (c :: t) caps k = None).
      { rewrite exec_lit, lit_match_exact. simpl startswith.
        now rewrite space_not_backtick. }
      rewrite E.
      destruct (startswith fence (lstrip t)); [|reflexivity].
      now destruct (k _ _ _).
    + rewrite exec_lit, lit_match_exact.
      now destruct (startswith fence (c :: t)).
Qed.

Lemma exec_closing (caps : captures) (v : str) (prev : option ascii) :
  exec dotall (Cat (Star true Space) (lit fence)) prev v caps k =
  if startswith fence (lstrip v)
  then k (Some "`"%char) (skipn 3 (lstrip v)) caps
  else None.
Proof. exact (closing_fence caps v prev). Qed.

(** The lazy [.*?] goes on, one character at a time, to the first place
    the rest of the pattern accepts. *)
Lemma star_lazy_scan (mk : str -> str -> A) (u0 : str)
    (K : option ascii -> str -> option A) :
  (forall p v,
      K p v =
      if startswith fence (lstrip v)
      then Some (mk (firstn (length u0 - length v) u0) (skipn 3 (lstrip v)))
      else None) ->
  forall u done p,
    u0 = done ++ u ->
    star_lazy dotall Dot K p u =
    match lazy_scan u with
    | Some (g, rest) => Some (mk (done ++ g) rest)
    | None => None
    end.
Proof.
  intros HK. induction u as [|c t IH]; intros done p E;
    rewrite star_lazy_unfold, HK, lazy_scan_unfold;
    destruct (startswith fence (lstrip _)) eqn:Es.
  - subst u0. rewrite length_app, Nat.add_sub, firstn_app, Nat.sub_diag,
      firstn_all. simpl. now rewrite app_nil_r.
  - reflexivity.
  - subst u0. rewrite length_app, Nat.add_sub, firstn_app, Nat.sub_diag,
      firstn_all. simpl. now rewrite app_nil_r.
  - change (atom_match dotall Dot c) with true. cbv iota.
    rewrite (IH (done ++ [c])) by (now rewrite <- app_assoc).
    destruct (lazy_scan t) as [[g rest]|]; [|reflexivity].
    now rewrite <- app_assoc.
Qed.

(** The greedy [\s*] after the tag: once all the white space is taken,
    nothing is gained by giving some of it back. *)
Lemma star_greedy_commit (H : str -> option A) :
  (forall c t, isspace c = true -> H t = None -> H (c :: t) = None) ->
  forall s prev,
    star_greedy dotall Space (fun _ u => H u) prev s = H (lstrip s).
Proof.
  intros Hc. induction s as [|c t IH]; intros prev; [reflexivity|].
  rewrite star_greedy_cons. unfold atom_match. simpl lstrip.
  destruct (isspace c) eqn:Ec; [|reflexivity].
  rewrite IH. destruct (H (lstrip t)) eqn:E; [reflexivity|].
  apply Hc; [exact Ec|].
  clear IH. induction t as [|d t IHt]; [exact E|].
  simpl in E. destruct (isspace d) eqn:Ed; [|exact E].
  apply Hc; [exact Ed | now apply IHt].
Qed.

End Fence.

Lemma lazy_scan_space (c : ascii) (t : str) :
  isspace c = true -> lazy_scan t = None -> lazy_scan (c :: t) = None.
Proof.
  intros Hc Ht. rewrite lazy_scan_unfold, Ht. simpl lstrip. rewrite Hc.
  rewrite lazy_scan_unfold in Ht.
  now destruct (startswith fence (lstrip t)).
Qed.


(** [(.*?)\s*```] from [u] on. *)
Lemma exec_body (s u : str) (p : option ascii) :
  exec dotall
       (Cat (Group 1 (Star false Dot)) (Cat (Star true Space) (lit fence)))
       p u [] (report s) =
  match lazy_scan u with
  | Some (g, rest) => Some (found s g rest)
  | None => None
  end.
Proof.
  change (exec dotall
            (Cat (Group 1 (Star false Dot))
                 (Cat (Star true Space) (lit fence))) p u [] (report s))
    with (star_lazy dotall Dot
            (fun p' v =>
               exec dotall (Cat (Star true Space) (lit fence)) p' v
                    [(1, firstn (length u - length v) u)] (report s))
            p u).
  rewrite (@star_lazy_scan _ (found s) u _) with (done := []);
    [now destruct (lazy_scan u) as [[g rest]|] | | reflexivity].
  intros p' v. now rewrite exec_closing.
Qed.

(** The whole pattern at one position. *)
Lemma match_at_fence (tag : str) (prev : option ascii) (s : str) :
  match_at dotall (fence_re tag) prev s =
  if startswith (fence ++ tag) s then
    match lazy_scan (lstrip (skipn (length (fence ++ tag)) s)) with
    | Some (g, rest) => Some (found s g rest)
    | None => None
    end
  else None.
Proof.
  unfold match_at, fence_re. fold fence. fold (report s).
  cbn [exec]. rewrite exec_lit, lit_match_exact.
  destruct (startswith (fence ++ tag) s); [|reflexivity].
  cbn [exec].
  rewrite star_greedy_ext
    with (k2 := fun _ u =>
                  match lazy_scan u with
                  | Some (g, rest) => Some (found s g rest)
                  | None => None
                  end)
    by (intros; apply exec_body).
  apply star_greedy_commit
    with (H := fun u => match lazy_scan u with
                        | Some (g, rest) => Some (found s g rest)
                        | None => None
                        end).
  intros c t Hc Ht. rewrite lazy_scan_space; trivial.
  now destruct (lazy_scan t) as [[g rest]|].
Qed.


(** *** White space and fences *)

#[local] Abbreviation spaces := (Forall (fun c => isspace c = true)).

Lemma split_at_unfold (p s : str) :
  split_at p s =
  if startswith p s then Some ([], skipn (length p) s)
  else
    match s with
    | c :: t =>
        match split_at p t with
        | Some (a, b) => Some (c :: a, b)
        | None => None
        end
    | [] => None
    end.
Proof. destruct s; reflexivity. Qed.

Lemma startswith_skipn (p s : str) :
  startswith p s = true -> s = p ++ skipn (length p) s.
Proof.
  revert s; induction p as [|a p IH]; intros s H; [reflexivity|].
  destruct s as [|b s]; [discriminate|]. simpl in H.
  apply andb_prop in H as [Hab Hp]. apply chr_eqb_eq in Hab as ->.
  simpl. f_equal. now apply IH.
Qed.

Lemma split_at_app (p s a b : str) :
  split_at p s = Some (a, b) -> s = a ++ p ++ b.
Proof.
  revert a b; induction s as [|c t IH]; intros a b; rewrite split_at_unfold;
    destruct (startswith p _) eqn:E; try discriminate.
  - intros H; injection H as <- <-. now apply startswith_skipn.
  - intros H; injection H as <- <-. now apply startswith_skipn.
  - destruct (split_at p t) as [[a' b']|]; [|discriminate].
    intros H; injection H as <- <-. simpl. f_equal. now apply IH.
Qed.

Lemma split_at_none (p s : str) :
  split_at p s = None <-> contains p s = false.
Proof.
  induction s as [|c t IH]; rewrite split_at_unfold; simpl contains;
    destruct (startswith p _); simpl; try (split; congruence).
  rewrite <- IH. destruct (split_at p t) as [[a b]|]; split; congruence.
Qed.

Lemma contains_tail (p : str) (c : ascii) (t : str) :
  contains p (c :: t) = false -> contains p t = false.
Proof. simpl. now intros H%orb_false_elim. Qed.

Lemma contains_skipn (p : str) (n : nat) :
  forall s, contains p s = false -> contains p (skipn n s) = false.
Proof.
  induction n as [|n IH]; intros [|c t] H; trivial.
  simpl. apply IH. now apply contains_tail in H.
Qed.

Lemma contains_skipn_tail (p : str) (n : nat) :
  forall c t,
    contains p (skipn n (c :: t)) = false -> contains p (skipn n t) = false.
Proof.
  induction n as [|n IH]; intros c t H.
  - now apply contains_tail in H.
  - destruct t as [|d t].
    + simpl in *. now rewrite skipn_nil in H.
    + simpl in *. now apply IH in H.
Qed.

Lemma lstrip_spaces (ws x : str) : spaces ws -> lstrip (ws ++ x) = lstrip x.
Proof. induction 1 as [|c ws Hc _ IH]; simpl; [|rewrite Hc]; trivial. Qed.

Lemma lstrip_head (s : str) (c : ascii) (t : str) :
  lstrip s = c :: t -> isspace c = false.
Proof.
  induction s as [|d s IH]; simpl; [discriminate|].
  destruct (isspace d) eqn:E; [exact IH|]. now intros [= <- _].
Qed.

Lemma lstrip_nil (s : str) : lstrip s = [] -> spaces s.
Proof.
  induction s as [|d s IH]; simpl; [constructor|].
  destruct (isspace d) eqn:E; [|discriminate]. intros H. now constructor; auto.
Qed.

Lemma lstrip_app (x y : str) :
  lstrip (x ++ y) =
  match lstrip x with
  | [] => lstrip y
  | c :: l => (c :: l) ++ y
  end.
Proof.
  induction x as [|d x IH]; simpl; [now destruct (lstrip y)|].
  now destruct (isspace d).
Qed.

Lemma rstrip_cons (c : ascii) (b : str) :
  rstrip (c :: b) =
  match rstrip b with
  | [] => if isspace c then [] else [c]
  | d :: l => c :: d :: l
  end.
Proof.
  unfold rstrip. simpl rev. rewrite lstrip_app.
  destruct (lstrip (rev b)) as [|d l] eqn:E.
  - simpl. now destruct (isspace c).
  - rewrite rev_app_distr. change (rev [c]) with [c].
    destruct (rev (d :: l)) eqn:E'; [|reflexivity].
    apply (f_equal (@rev ascii)) in E'. rewrite rev_involutive in E'.
    discriminate.
Qed.

Lemma rstrip_nil (b : str) : rstrip b = [] -> spaces b.
Proof.
  unfold rstrip. intros H. apply (f_equal (@rev ascii)) in H.
  rewrite rev_involutive in H. simpl in H. apply lstrip_nil in H.
  apply Forall_rev in H. now rewrite rev_involutive in H.
Qed.

Lemma rstrip_spaces (ws : str) : spaces ws -> rstrip ws = [].
Proof.
  induction 1 as [|c ws Hc _ IH]; [reflexivity|].
  now rewrite rstrip_cons, IH, Hc.
Qed.

Lemma split_at_spaces (ws x : str) :
  spaces ws ->
  split_at fence (ws ++ x) =
  match split_at fence x with
  | Some (a, b) => Some (ws ++ a, b)
  | None => None
  end.
Proof.
  induction 1 as [|c ws Hc _ IH]; cbn [List.app].
  - now destruct (split_at fence x) as [[a b]|].
  - rewrite split_at_unfold. simpl startswith.
    rewrite space_not_backtick by assumption. simpl. rewrite IH.
    now destruct (split_at fence x) as [[a b]|].
Qed.

(** The lazy scan stops at the first fence, and leaves out the white space
    before it. *)
Lemma lazy_scan_split (u : str) :
  lazy_scan u =
  match split_at fence u with
  | Some (body, rest) => Some (rstrip body, rest)
  | None => None
  end.
Proof.
  induction u as [|c t IH]; rewrite lazy_scan_unfold.
  - reflexivity.
  - destruct (startswith fence (lstrip (c :: t))) eqn:E.
    + destruct (lstrip_split (c :: t)) as (ws & Hs & Hws).
      rewrite Hs at 2. rewrite split_at_spaces by assumption.
      rewrite split_at_unfold, E, app_nil_r.
      now rewrite rstrip_spaces.
    + rewrite IH, (split_at_unfold fence (c :: t)).
      destruct (startswith fence (c :: t)) eqn:E'.
      { (* a fence here would have been seen *)
        assert (isspace c = false) as Hc.
        { destruct (isspace c) eqn:Hc; [|reflexivity].
          simpl in E'. now rewrite space_not_backtick in E'. }
        change (lstrip (c :: t)) with (if isspace c then lstrip t else c :: t)
          in E.
        rewrite Hc in E. congruence. }
      destruct (split_at fence t) as [[body rest]|] eqn:Et; [|reflexivity].
      rewrite rstrip_cons.
      destruct (rstrip body) as [|d l] eqn:Eb; [|reflexivity].
      destruct (isspace c) eqn:Hc; [|reflexivity].
      (* only white space before the fence: it would have been seen *)
      apply rstrip_nil in Eb. apply split_at_app in Et. subst t.
      change (lstrip (c :: body ++ fence ++ rest))
        with (if isspace c then lstrip (body ++ fence ++ rest)
              else c :: body ++ fence ++ rest) in E.
      rewrite Hc, lstrip_spaces in E by assumption.
      discriminate E.
Qed.

(** After the white space that follows the tag, the block is the text up to
    the next fence, trimmed. *)
Lemma lazy_scan_strip (s1 : str) :
  lazy_scan (lstrip s1) =
  match split_at fence s1 with
  | Some (body, rest) => Some (strip body, rest)
  | None => None
  end.
Proof.
  rewrite lazy_scan_split.
  destruct (lstrip_split s1) as (ws & Hs & Hws).
  rewrite Hs at 2. rewrite split_at_spaces by assumption.
  destruct (split_at fence (lstrip s1)) as [[a b]|] eqn:E; [|reflexivity].
  unfold strip. rewrite lstrip_spaces by assumption.
  apply split_at_app in E.
  destruct a as [|c a]; [reflexivity|].
  apply lstrip_head in E. simpl. now rewrite E.
Qed.


(** *** The scan *)

Lemma blocks_unfold (f : nat) (tag text : str) :
  blocks (S f) tag text =
  match split_at (fence ++ tag) text with
  | None => []
  | Some (_, s) =>
      match split_at fence s with
      | None => []
      | Some (body, rest) => strip body :: blocks f tag rest
      end
  end.
Proof. reflexivity. Qed.

Section OneLanguage.

Variable tag : str.

Lemma match_at_fence_split (prev : option ascii) (s : str) :
  match_at dotall (fence_re tag) prev s =
  if startswith (fence ++ tag) s then
    match split_at fence (skipn (length (fence ++ tag)) s) with
    | Some (body, rest) => Some (found s (strip body) rest)
    | None => None
    end
  else None.
Proof.
  rewrite match_at_fence, lazy_scan_strip.
  now destruct (split_at fence _) as [[body rest]|].
Qed.

(** Where no fence follows, nothing matches any more. *)
Lemma findall_none (f : nat) :
  forall prev y,
    contains fence (skipn (length (fence ++ tag)) y) = false ->
    findall_loop dotall (fence_re tag) f prev y = [].
Proof.
  induction f as [|f IH]; intros prev y H; [reflexivity|].
  rewrite findall_loop_unfold, match_at_fence_split.
  apply split_at_none in H as H'. rewrite H'.
  assert (Hn : match y with
               | c :: t => findall_loop dotall (fence_re tag) f (Some c) t
               | [] => []
               end = []).
  { destruct y as [|c t]; [reflexivity|]. apply IH.
    now apply contains_skipn_tail in H. }
  now destruct (startswith (fence ++ tag) y).
Qed.

Lemma blocks_skip (f : nat) (c : ascii) (t : str) :
  startswith (fence ++ tag) (c :: t) = false ->
  blocks f tag (c :: t) = blocks f tag t.
Proof.
  intros H. destruct f as [|f]; [reflexivity|].
  rewrite !blocks_unfold, (split_at_unfold _ (c :: t)), H.
  now destruct (split_at (fence ++ tag) t) as [[a b]|].
Qed.

Lemma found_whole (s body rest : str) :
  startswith (fence ++ tag) s = true ->
  split_at fence (skipn (length (fence ++ tag)) s) = Some (body, rest) ->
  length rest + 6 <= length s /\
  exists c w, whole (found s (strip body) rest) = c :: w.
Proof.
  intros Ho Hs. apply startswith_skipn in Ho. apply split_at_app in Hs.
  assert (Hl : length rest + 6 <= length s).
  { rewrite Ho, Hs. rewrite !length_app. simpl. lia. }
  split; [exact Hl|]. unfold found. simpl whole.
  destruct s as [|c s']; [simpl in Hl; lia|].
  destruct (length (c :: s') - length rest) as [|n] eqn:E; [lia|].
  simpl. now eexists _, _.
Qed.

(** The matcher finds the blocks that the plain reading describes. *)
Lemma findall_blocks (f1 : nat) :
  forall f2 prev s,
    length s < f1 -> length s <= f2 ->
    map group1 (findall_loop dotall (fence_re tag) f1 prev s) =
    blocks f2 tag s.
Proof.
  induction f1 as [|f1 IH]; intros f2 prev s H1 H2; [lia|].
  rewrite findall_loop_unfold, match_at_fence_split.
  destruct (startswith (fence ++ tag) s) eqn:Ho.
  - destruct (split_at fence (skipn (length (fence ++ tag)) s))
      as [[body rest]|] eqn:Hs.
    + destruct (found_whole _ Ho Hs) as (Hl & c & w & Hw).
      rewrite Hw. simpl map.
      destruct f2 as [|f2]; [lia|].
      rewrite blocks_unfold, split_at_unfold, Ho, Hs.
      unfold group1 at 1. simpl. f_equal. apply IH; lia.
    + destruct s as [|c t]; [discriminate Ho|].
      rewrite findall_none.
      * destruct f2 as [|f2]; [reflexivity|].
        now rewrite blocks_unfold, split_at_unfold, Ho, Hs.
      * apply split_at_none in Hs. now apply contains_skipn_tail in Hs.
  - destruct s as [|c t].
    + now destruct f2.
    + rewrite blocks_skip by assumption. apply IH; simpl in *; lia.
Qed.

Lemma re_findall_blocks (text : str) :
  re_findall dotall (fence_re tag) text = fenced_blocks tag text.
Proof.
  unfold re_findall, finditer, fenced_blocks.
  now apply (findall_blocks (f1 := S (length text))); lia.
Qed.

End OneLanguage.

(** C5, as the claim states it, fails: the opening fence need not stand at
    the start of a line.  The text below has one line, the fence stands in
    the middle of it, and the css block is recognized. *)
Lemma fence_inside_a_line :
  contains [nl] Example.inline_fence = false /\
  startswith fence Example.inline_fence = false /\
  extract_code_blocks Example.inline_fence =
    [ (list_ascii_of_string "python", []);
      (list_ascii_of_string "javascript", []);
      (list_ascii_of_string "html", []);
      (list_ascii_of_string "css", [list_ascii_of_string "a{}"]);
      (list_ascii_of_string "bash", []) ].
Proof. vm_compute. now repeat split. Qed.

(** C5, amended.  [extract_code_blocks] returns, for each of the five
    languages and in the order python, javascript, html, css, bash, the
    list of the blocks of that language: a block opens at a fence followed
    by the tag, wherever that stands in the text, and runs to the next
    fence; its text is what stands between them, trimmed; the search goes
    on after the closing fence, so that the blocks come in the order of the
    text.  A language without a block has the empty list. *)
Theorem extract_code_blocks_spec (text : str) :
  extract_code_blocks text =
    [ (list_ascii_of_string "python", fenced_blocks "python" text);
      (list_ascii_of_string "javascript", fenced_blocks "javascript" text);
      (list_ascii_of_string "html", fenced_blocks "html" text);
      (list_ascii_of_string "css", fenced_blocks "css" text);
      (list_ascii_of_string "bash", fenced_blocks "bash" text) ].
Proof.
  unfold extract_code_blocks, languages. cbn [map].
  now rewrite !re_findall_blocks.
Qed.

End Fences.

(** ** From the response to the preview *)

Module Pipeline.

Import Py Re App Spec StrFacts ReFacts Assembly Fences.

Section World.

Variable home : str.
Variable writable : str -> bool.
Variable popen : str -> option (list str).

(** X3. For a response without python or bash blocks, [process_code_blocks]
    writes no file and runs no command: it assembles the web code of the
    response and publishes the document. *)
Theorem process_web_only (text : str) (st : app) :
  fenced_blocks "python" text = [] ->
  fenced_blocks "bash" text = [] ->
  process_code_blocks home writable popen text st =
  publish (assemble (fragments text)) st.
Proof.
  intros Hp Hb. unfold process_code_blocks, extract_code_blocks, languages.
  cbn [map]. rewrite !re_findall_blocks, Hp, Hb. reflexivity.
Qed.

End World.

Lemma process_web_only_witness :
  process_code_blocks Example.home Example.writable Example.quiet
                      Example.hi_red Example.fresh =
  publish (assemble (fragments Example.hi_red)) Example.fresh.
Proof. apply process_web_only; reflexivity. Defined.

End Pipeline.

(** ** The errors of [re.sub] *)

Module SubErrors.

Import Py Re App.

Lemma tcons_error (p : tpart) (r : exn + list tpart) (e : exn) :
  tcons p r = inl e -> r = inl e.
Proof. destruct r; simpl; congruence. Qed.

(** A replacement that does not compile raises [re.error]. *)
Lemma parse_template_error (n k : nat) :
  forall s,
    length s <= k ->
    forall name e,
      parse_template n name s = inl e -> exists msg, e = ReError msg.
Proof.
  induction k as [|k IH]; intros s Hs name e.
  - destruct s; [|simpl in Hs; lia].
    destruct name; simpl; intros H; inversion H; eauto.
  - destruct s as [|c t]; [destruct name; simpl; intros H; inversion H; eauto|].
    cbn [parse_template]. unfold bad_reference.
    repeat match goal with
      | |- inl _ = inl _ -> _ => intros H; injection H as <-; eauto
      | |- inr _ = inl _ -> _ => discriminate
      | |- tcons _ _ = inl _ -> _ =>
          let H := fresh in intros H; apply tcons_error in H; revert H
      | |- parse_template _ _ _ = inl _ -> _ =>
          apply IH; simpl in *; lia
      | |- (if ?b then _ else _) = _ -> _ => destruct b
      | |- match ?x with _ => _ end = _ -> _ => destruct x
      end.
Qed.

Lemma re_sub_error (fl : flags) (r : regex) (repl text : str) (e : exn) :
  re_sub fl r repl text = inl e -> exists msg, e = ReError msg.
Proof.
  unfold re_sub.
  destruct (parse_template (ngroups r) None repl) as [e'|tmpl] eqn:E;
    [|discriminate].
  intros H. injection H as <-.
  now apply (@parse_template_error _ (length repl) repl (le_n _)) in E.
Qed.

End SubErrors.

(** ** Python and bash blocks: the files, the commands and the gate *)

Module Runner.

Import Py Re App Spec Terms StrFacts Gate Fences SubErrors.

(** No occurrence of [p] runs over a character that [p] does not hold. *)
Lemma startswith_sep (p x : str) (c : ascii) (y : str) :
  existsb (chr_eqb c) p = false ->
  startswith p (x ++ c :: y) = startswith p x.
Proof.
  revert x; induction p as [|a p IH]; intros x H; [reflexivity|].
  simpl in H. apply orb_false_elim in H as [Hca Hp].
  destruct x as [|b x]; simpl.
  - apply chr_eqb_neq in Hca.
    assert (E : chr_eqb a c = false) by (apply chr_eqb_neq; congruence).
    now rewrite E.
  - now rewrite IH.
Qed.

Lemma contains_sep (p x : str) (c : ascii) (y : str) :
  existsb (chr_eqb c) p = false ->
  contains p (x ++ c :: y) = contains p x || contains p y.
Proof.
  intros H. induction x as [|b x IH].
  - pose proof (startswith_sep p [] c y H) as E. cbn [List.app] in E.
    cbn [List.app contains]. rewrite E.
    now destruct (startswith p []).
  - change ((b :: x) ++ c :: y) with (b :: (x ++ c :: y)).
    simpl contains. rewrite IH.
    change (b :: x ++ c :: y) with ((b :: x) ++ c :: y).
    rewrite startswith_sep by assumption. now rewrite orb_assoc.
Qed.

Lemma contains_nil (p : str) : p <> [] -> contains p [] = false.
Proof. now destruct p. Qed.

(** A text of characters that [p] does not hold, before another text. *)
Lemma contains_skip (p x y : str) :
  p <> [] ->
  Forall (fun c => existsb (chr_eqb c) p = false) x ->
  contains p (x ++ y) = contains p y.
Proof.
  intros Hp H. induction H as [|c x Hc _ IH]; [reflexivity|].
  change ((c :: x) ++ y) with ([] ++ c :: (x ++ y)).
  now rewrite contains_sep, contains_nil, IH.
Qed.

Lemma digits_digits (fuel : nat) :
  forall n acc,
    Forall isdigit_chr acc -> Forall isdigit_chr (digits fuel n acc).
Proof.
  induction fuel as [|f IH]; intros n acc H; simpl; [exact H|].
  assert (Hd : isdigit_chr (ascii_of_nat (48 + n mod 10))).
  { exists (n mod 10). split; [|reflexivity]. apply Nat.mod_upper_bound. lia. }
  destruct (n <? 10); [|apply IH]; now constructor.
Qed.

Lemma str_of_nat_digits (n : nat) : Forall isdigit_chr (str_of_nat n).
Proof. apply digits_digits. constructor. Qed.

Lemma digit_not_in (p : str) (c : ascii) :
  In p unsafe_patterns -> isdigit_chr c -> existsb (chr_eqb c) p = false.
Proof.
  intros Hp (k & Hk & ->).
  unfold unsafe_patterns in Hp. cbn [In] in Hp.
  do 10 (destruct k as [|k];
         [destruct Hp as [<- | [<- | [<- | [<- | [<- | []]]]]]; reflexivity|]).
  lia.
Qed.

Section Command.

Variable p : str.
Hypothesis nonempty : p <> [].
Hypothesis no_dquote : existsb (chr_eqb dquote) p = false.
Hypothesis no_D : existsb (chr_eqb "D") p = false.
Hypothesis no_slash : existsb (chr_eqb "/") p = false.
Hypothesis no_underscore : existsb (chr_eqb "_") p = false.
Hypothesis no_dot : existsb (chr_eqb ".") p = false.

(** The shape of a command line: only the part [X] can hold [p]. *)
Lemma contains_command (A X B C N E : str) :
  Forall (fun c => existsb (chr_eqb c) p = false) N ->
  contains p A = false -> contains p B = false ->
  contains p C = false -> contains p E = false ->
  contains p (A ++ dquote :: X ++ "D"%char :: B ++ "/"%char :: C ++
              "_"%char :: N ++ "."%char :: E ++ [dquote]) =
  contains p X.
Proof.
  intros HN HA HB HC HE.
  rewrite (contains_sep p A), HA by assumption.
  rewrite (contains_sep p X) by assumption.
  rewrite (contains_sep p B), HB by assumption.
  rewrite (contains_sep p C), HC by assumption.
  rewrite (contains_sep p N) by assumption.
  rewrite (contains_sep p E), HE, contains_nil by assumption.
  rewrite <- (app_nil_r N), contains_skip, contains_nil by assumption.
  simpl. now rewrite orb_false_r.
Qed.

End Command.

Lemma desktop_shape (home : str) :
  exists X, (X = home \/ X = home ++ "/") /\
            path_join home "Desktop" = X ++ "Desktop".
Proof.
  unfold path_join. cbn [startswith list_ascii_of_string].
  change (chr_eqb "/" "D" && true) with false. cbv iota.
  destruct (rev home) as [|c r] eqn:E.
  - exists home. split; [now left|].
    apply (f_equal (@rev ascii)) in E. rewrite rev_involutive in E.
    now rewrite E.
  - destruct (chr_eqb c "/").
    + exists home. split; [now left | reflexivity].
    + exists (home ++ "/"). split; [now right|]. now rewrite <- app_assoc.
Qed.

Lemma code_file_shape (home ext : str) (i : nat) :
  exists X, (X = home \/ X = home ++ "/") /\
    code_file home ext i =
    X ++ "D"%char :: "esktop" ++ "/"%char :: "code" ++ "_"%char ::
    str_of_nat (i + 1) ++ "."%char :: ext.
Proof.
  destruct (desktop_shape home) as (X & HX & E).
  exists X. split; [exact HX|].
  unfold code_file. rewrite E. unfold path_join.
  cbn [startswith list_ascii_of_string List.app].
  change (chr_eqb "/" "c" && true) with false. cbv iota.
  rewrite rev_app_distr. cbn [rev list_ascii_of_string List.app].
  change (chr_eqb "p" "/") with false. cbv iota.
  now rewrite <- app_assoc.
Qed.

(** Whether a command of [process_code_blocks] holds a denied string is a
    matter of the home directory alone. *)
Lemma gate_command (home : str) (python : bool) (i : nat) (p : str) :
  In p unsafe_patterns ->
  contains p (run_command (if python then "python" else "bash")
                (code_file home (if python then "py" else "sh") i)) =
  contains p home.
Proof.
  intros Hp.
  destruct (code_file_shape home (if python then "py" else "sh") i)
    as (X & HX & ->).
  assert (HN : Forall (fun c => existsb (chr_eqb c) p = false)
                      (str_of_nat (i + 1))).
  { eapply Forall_impl; [|apply str_of_nat_digits].
    intros c Hc. now apply digit_not_in. }
  unfold unsafe_patterns in Hp. cbn [In] in Hp.
  transitivity (contains p X).
  - assert (E : forall I N E : str,
               run_command I
                 (X ++ "D"%char :: "esktop" ++ "/"%char :: "code" ++
                  "_"%char :: N ++ "."%char :: E) =
               (I ++ " ") ++ dquote :: X ++ "D"%char :: "esktop" ++
               "/"%char :: "code" ++ "_"%char :: N ++ "."%char :: E ++
               [dquote]).
    { intros I N E. unfold run_command.
      repeat (rewrite <- app_assoc || rewrite <- app_comm_cons).
      reflexivity. }
    rewrite E.
    destruct Hp as [<- | [<- | [<- | [<- | [<- | []]]]]];
      (apply contains_command; trivial; try discriminate;
       destruct python; reflexivity).
  - destruct HX as [-> | ->]; [reflexivity|].
    destruct Hp as [<- | [<- | [<- | [<- | [<- | []]]]]];
      (change (list_ascii_of_string "/") with ["/"%char];
       rewrite contains_sep by reflexivity; apply orb_false_r).
Qed.

Lemma gate_command_any (home : str) (python : bool) (i : nat) :
  any (fun p => contains p
                  (run_command (if python then "python" else "bash")
                     (code_file home (if python then "py" else "sh") i)))
      unsafe_patterns =
  denied_home home.
Proof.
  unfold denied_home, any.
  assert (H : forall l,
             (forall p, In p l -> In p unsafe_patterns) ->
             existsb (fun p => contains p
                        (run_command (if python then "python" else "bash")
                           (code_file home (if python then "py" else "sh") i)))
                     l =
             existsb (fun p => contains p home) l).
  { induction l as [|p l IH]; intros Hl; [reflexivity|]. cbn [existsb].
    rewrite gate_command by (apply Hl; now left).
    rewrite IH; [reflexivity|]. intros q Hq. apply Hl. now right. }
  now apply H.
Qed.

Section World.

Variable home : str.
Variable writable : str -> bool.
Variable popen : str -> option (list str).

#[local] Abbreviation run := (run_block home writable popen).

Lemma process_language_python (w : web_code) (blocks : list str) :
  process_language home writable popen w
    (list_ascii_of_string "python", blocks) =
  (for_each (enumerate blocks) (run true) ;; ret w).
Proof. reflexivity. Qed.

Lemma process_language_bash (w : web_code) (blocks : list str) :
  process_language home writable popen w
    (list_ascii_of_string "bash", blocks) =
  (for_each (enumerate blocks) (run false) ;; ret w).
Proof. reflexivity. Qed.


Lemma output_loop (lines : list str) :
  forall st,
    exists st',
      for_each lines
        (fun output =>
           if truthy output then queue_put (strip output) else ret tt) st =
      (st', inr tt) /\
      files st' = files st /\ spawned st' = spawned st.
Proof.
  induction lines as [|l lines IH]; intros st.
  - now exists st.
  - cbn [for_each]. unfold bind at 1.
    destruct (truthy l).
    + cbn [queue_put modify].
      match goal with
      | |- context [for_each lines _ ?s] =>
          destruct (IH s) as (st' & E & Hf & Hs)
      end.
      exists st'. split; [exact E|]. now split.
    + destruct (IH st) as (st' & E & Hf & Hs). now exists st'.
Qed.

Lemma run_block_ok (python : bool) (i : nat) (block : str) (st : app) :
  denied_home home = false ->
  writable (code_file home (if python then "py" else "sh") i) = true ->
  popen (run_command (if python then "python" else "bash")
           (code_file home (if python then "py" else "sh") i)) <> None ->
  exists st',
    run python (i, block) st = (st', inr tt) /\
    files st' =
      files st ++
      [(code_file home (if python then "py" else "sh") i, strip block)] /\
    spawned st' =
      spawned st ++
      [run_command (if python then "python" else "bash")
         (code_file home (if python then "py" else "sh") i)].
Proof.
  intros Hd Hw Hp. unfold run_block, write_file. rewrite Hw.
  unfold bind at 1. cbn [record_file modify].
  unfold execute_safe_command. rewrite gate_command_any, Hd.
  unfold bind at 1. cbn [queue_put modify]. unfold bind at 1.
  unfold Popen.
  destruct (popen _) as [lines|]; [|congruence].
  unfold bind at 1. cbn [record_spawn modify]. cbn [ret].
  match goal with
  | |- context [for_each lines ?b ?s] =>
      destruct (output_loop lines s) as (st' & E & Hf & Hs)
  end.
  exists st'. now rewrite E, Hf, Hs.
Qed.


Lemma run_blocks_ok (python : bool) (blocks : list str) :
  denied_home home = false ->
  (forall path, writable path = true) ->
  (forall command, popen command <> None) ->
  forall i st,
    exists st',
      for_each (enumerate_from i blocks) (run python) st =
      (st', inr tt) /\
      files st' =
        files st ++
        map (fun ib => (code_file home (if python then "py" else "sh") (fst ib),
                        strip (snd ib)))
            (enumerate_from i blocks) /\
      spawned st' =
        spawned st ++
        map (fun ib => run_command (if python then "python" else "bash")
                         (code_file home (if python then "py" else "sh")
                                    (fst ib)))
            (enumerate_from i blocks).
Proof.
  intros Hd Hw Hp. induction blocks as [|b blocks IH]; intros i st.
  - exists st. cbn. now rewrite !app_nil_r.
  - cbn [enumerate_from for_each map fst snd]. unfold bind at 1.
    destruct (@run_block_ok python i b st Hd (Hw _) (Hp _))
      as (st1 & -> & Hf1 & Hs1).
    destruct (IH (S i) st1) as (st' & E & Hf & Hs).
    exists st'. split; [exact E|].
    rewrite Hf, Hs, Hf1, Hs1, <- !app_assoc. now split.
Qed.

(** What [process_code_blocks] does once the loop is over leaves the files
    and the processes alone. *)
Lemma publish_frame (document : option (exn + str)) (st : app) :
  files (fst (publish document st)) = files st /\
  spawned (fst (publish document st)) = spawned st.
Proof.
  destruct document as [[e|doc]|]; now split.
Qed.

Lemma process_language_web (w : web_code) (blocks : list str) :
  process_language home writable popen w
    (list_ascii_of_string "javascript", blocks) =
  ret {| html_code := html_code w; css_code := css_code w;
         js_code := add_blocks (js_code w) blocks |} /\
  process_language home writable popen w
    (list_ascii_of_string "html", blocks) =
  ret {| html_code := add_blocks (html_code w) blocks;
         css_code := css_code w; js_code := js_code w |} /\
  process_language home writable popen w
    (list_ascii_of_string "css", blocks) =
  ret {| html_code := html_code w;
         css_code := add_blocks (css_code w) blocks; js_code := js_code w |}.
Proof. now repeat split. Qed.

(** The loop of [process_code_blocks] runs the python blocks, then the bash
    blocks; the document is assembled and shown after both. *)
Lemma process_code_blocks_unfold (text : str) (st : app) :
  process_code_blocks home writable popen text st =
  (for_each (enumerate (fenced_blocks "python" text)) (run true) ;;
   for_each (enumerate (fenced_blocks "bash" text)) (run false) ;;
   publish (assemble (fragments text))) st.
Proof.
  unfold process_code_blocks, extract_code_blocks, languages, fragments.
  cbn [map]. rewrite !re_findall_blocks.
  generalize (fenced_blocks "python" text) as P.
  generalize (fenced_blocks "javascript" text) as J.
  generalize (fenced_blocks "html" text) as H.
  generalize (fenced_blocks "css" text) as C.
  generalize (fenced_blocks "bash" text) as B.
  intros B C H J P.
  cbn [for_fold].
  rewrite process_language_python. unfold bind.
  destruct (for_each (enumerate P) (run true) st) as [st1 [e|[]]];
    [reflexivity|].
  cbn [ret].
  rewrite (proj1 (process_language_web _ J)). cbn [ret].
  rewrite (proj1 (proj2 (process_language_web _ H))). cbn [ret].
  rewrite (proj2 (proj2 (process_language_web _ C))). cbn [ret].
  rewrite process_language_bash. unfold bind.
  cbn [html_code css_code js_code].
  destruct (for_each (enumerate B) (run false) st1) as [st2 [e|[]]];
    reflexivity.
Qed.



Lemma run_block_no_security (python : bool) (ib : nat * str) (st st' : app)
    (msg : str) :
  denied_home home = false ->
  run python ib st <> (st', inl (SecurityError msg)).
Proof.
  intros Hd. destruct ib as [i block]. unfold run_block, write_file.
  destruct (writable _); unfold bind at 1.
  - cbn [record_file modify]. apply allowed_no_security.
    now rewrite gate_command_any.
  - cbn [raise]. discriminate.
Qed.

Lemma run_blocks_no_security (python : bool) (l : list (nat * str)) :
  denied_home home = false ->
  forall st st' msg,
    for_each l (run python) st <> (st', inl (SecurityError msg)).
Proof.
  intros Hd. induction l as [|ib l IH]; intros st st' msg.
  - discriminate.
  - cbn [for_each]. unfold bind at 1.
    destruct (run python ib st) as [st1 [e|[]]] eqn:E.
    + intros H. injection H as -> ->.
      now apply run_block_no_security in E.
    + apply IH.
Qed.

(** With a denied string in the home directory the first block of the loop
    stops it, and no process is started. *)
Lemma run_blocks_blocked (python : bool) (blocks : list str) (i : nat)
    (st st' : app) (r : exn + unit) :
  denied_home home = true ->
  for_each (enumerate_from i blocks) (run python) st = (st', r) ->
  spawned st' = spawned st /\ (blocks <> [] -> exists e, r = inl e).
Proof.
  intros Hd. destruct blocks as [|b blocks].
  - intros H. injection H as <- <-. now split.
  - cbn [enumerate_from for_each]. unfold bind at 1.
    unfold run_block, write_file.
    destruct (writable _); unfold bind at 1.
    + cbn [record_file modify].
      rewrite blocked_runs_nothing by now rewrite gate_command_any.
      intros H. injection H as <- <-. split; [reflexivity | eauto].
    + cbn [raise]. intros H. injection H as <- <-.
      split; [reflexivity | eauto].
Qed.


Lemma publish_no_security (text : str) (st st' : app) (msg : str) :
  publish (assemble (fragments text)) st <> (st', inl (SecurityError msg)).
Proof.
  unfold assemble.
  destruct (truthy _ || truthy _ || truthy _); [|discriminate].
  unfold publish. unfold bind at 1.
  destruct (combined_html _ _ _) as [e|doc] eqn:E; [|discriminate].
  cbn [lift raise]. intros H. injection H as _ ->.
  unfold combined_html in E.
  destruct (negb _); [discriminate|].
  destruct (truthy (css_code _)).
  - destruct (re_sub ignore_case head_re _ _) as [e1|c] eqn:E1.
    + injection E as ->. apply re_sub_error in E1 as [m Hm]. discriminate.
    + destruct (truthy (js_code _)); [|discriminate].
      apply re_sub_error in E as [m Hm]. discriminate.
  - destruct (truthy (js_code _)); [|discriminate].
    apply re_sub_error in E as [m Hm]. discriminate.
Qed.

Lemma process_code_blocks_blocked (text : str) (st st' : app)
    (r : exn + unit) :
  denied_home home = true ->
  process_code_blocks home writable popen text st = (st', r) ->
  spawned st' = spawned st /\
  (fenced_blocks "python" text <> [] \/ fenced_blocks "bash" text <> [] ->
   exists e, r = inl e).
Proof.
  intros Hd. rewrite process_code_blocks_unfold. unfold bind at 1.
  destruct (for_each _ (run true) st) as [st1 r1] eqn:E1.
  apply run_blocks_blocked in E1 as [S1 R1]; [|exact Hd].
  destruct r1 as [e|[]].
  - intros H. injection H as <- <-. split; [exact S1 | intros _; now exists e].
  - unfold bind at 1.
    destruct (for_each _ (run false) st1) as [st2 r2] eqn:E2.
    apply run_blocks_blocked in E2 as [S2 R2]; [|exact Hd].
    destruct r2 as [e|[]].
    + intros H. injection H as <- <-.
      split; [congruence | intros _; now exists e].
    + intros H.
      destruct (publish_frame (assemble (fragments text)) st2) as [_ Hs].
      rewrite H in Hs. simpl in Hs.
      split; [congruence|].
      intros [Hp | Hb].
      * destruct (R1 Hp) as [e He]. discriminate.
      * destruct (R2 Hb) as [e He]. discriminate.
Qed.

Lemma contains_prefix (p q s : str) :
  contains p s = false -> contains (p ++ q) s = false.
Proof.
  intros H. destruct (contains (p ++ q) s) eqn:E; [|reflexivity].
  apply contains_spec in E as (a & b & ->).
  rewrite <- app_assoc in H.
  assert (contains p (a ++ p ++ q ++ b) = true)
    by (apply contains_spec; eauto).
  congruence.
Qed.

Lemma fenced_blocks_none (tag text : str) :
  contains fence text = false -> fenced_blocks tag text = [].
Proof.
  intros H. unfold fenced_blocks.
  destruct (length text) as [|f]; [reflexivity|].
  rewrite blocks_unfold.
  now rewrite (proj2 (split_at_none _ _) (contains_prefix fence tag text H)).
Qed.

End World.

(** X5. The gate of [execute_safe_command] never reads the code that
    [process_code_blocks] runs.  The command for a python or bash block
    holds a denied string exactly when the home directory does.  So with a
    home directory free of them no response makes [process_code_blocks]
    raise [SecurityError]; and with a denied string in the home directory
    no process is ever started, and a response with a python or a bash
    block ends in an exception. *)
Theorem gate_reads_only_the_home (home : str) :
  (forall (python : bool) (i : nat),
      denied (run_command (if python then "python" else "bash")
                (code_file home (if python then "py" else "sh") i))
      <-> denied home) /\
  (~ denied home ->
   forall writable popen text st st' msg,
     process_code_blocks home writable popen text st
     <> (st', inl (SecurityError msg))) /\
  (denied home ->
   forall writable popen text st,
     spawned (fst (process_code_blocks home writable popen text st)) =
     spawned st /\
     (fenced_blocks "python" text <> [] \/ fenced_blocks "bash" text <> [] ->
      exists e,
        snd (process_code_blocks home writable popen text st) = inl e)).
Proof.
  split; [|split].
  - intros python i. rewrite <- !blocked_iff, gate_command_any.
    reflexivity.
  - intros Hd writable popen text st st' msg.
    assert (Hd' : denied_home home = false).
    { destruct (denied_home home) eqn:E; [|reflexivity].
      now apply blocked_iff in E. }
    clear Hd. rename Hd' into Hd.
    rewrite process_code_blocks_unfold. unfold bind at 1.
    destruct (for_each _ (run_block home writable popen true) st)
      as [st1 [e|[]]] eqn:E1.
    + intros H. injection H as -> ->.
      now apply run_blocks_no_security in E1.
    + unfold bind at 1.
      destruct (for_each _ (run_block home writable popen false) st1)
        as [st2 [e|[]]] eqn:E2.
      * intros H. injection H as -> ->.
        now apply run_blocks_no_security in E2.
      * apply publish_no_security.
  - intros Hd writable popen text st. apply blocked_iff in Hd.
    destruct (process_code_blocks home writable popen text st)
      as [st' r] eqn:E.
    now apply process_code_blocks_blocked in E.
Qed.

(** X6. With a home directory free of denied strings, every file writable
    and every command started, [process_code_blocks] writes each python
    block, trimmed, to code_1.py, code_2.py, ... on the desktop and runs
    python on it, in the order of the text, and then does the same for the
    bash blocks with code_1.sh, code_2.sh, ... and bash; it writes no other
    file and starts no other process. *)
Theorem code_blocks_are_run (home : str) (writable : str -> bool)
    (popen : str -> option (list str)) (text : str) (st : app) :
  denied_home home = false ->
  (forall path, writable path = true) ->
  (forall command, popen command <> None) ->
  let st' := fst (process_code_blocks home writable popen text st) in
  files st' =
    files st ++ code_files home "py" (fenced_blocks "python" text) ++
    code_files home "sh" (fenced_blocks "bash" text) /\
  spawned st' =
    spawned st ++
    run_commands home "python" "py" (fenced_blocks "python" text) ++
    run_commands home "bash" "sh" (fenced_blocks "bash" text).
Proof.
  intros Hd Hw Hp st'. subst st'.
  rewrite process_code_blocks_unfold.
  destruct (@run_blocks_ok home writable popen true
              (fenced_blocks "python" text) Hd Hw Hp 0 st)
    as (st1 & E1 & F1 & S1).
  destruct (@run_blocks_ok home writable popen false
              (fenced_blocks "bash" text) Hd Hw Hp 0 st1)
    as (st2 & E2 & F2 & S2).
  destruct (publish_frame (assemble (fragments text)) st2) as [Hf Hs].
  unfold bind, enumerate. rewrite E1, E2.
  rewrite Hf, Hs, F2, S2, F1, S1, <- !app_assoc. now split.
Qed.

Lemma code_blocks_are_run_witness :
  let st' :=
    fst (process_code_blocks Example.home Example.writable Example.quiet
                             Example.python3 Example.fresh) in
  files st' =
    files Example.fresh ++
    code_files Example.home "py" (fenced_blocks "python" Example.python3) ++
    code_files Example.home "sh" (fenced_blocks "bash" Example.python3) /\
  spawned st' =
    spawned Example.fresh ++
    run_commands Example.home "python" "py"
      (fenced_blocks "python" Example.python3) ++
    run_commands Example.home "bash" "sh"
      (fenced_blocks "bash" Example.python3).
Proof.
  apply (@code_blocks_are_run Example.home Example.writable Example.quiet
           Example.python3 Example.fresh);
    [reflexivity | reflexivity | discriminate].
Defined.

(** X7. A response that holds no fence holds no code: every language has
    the empty list of blocks, and [process_code_blocks] leaves the window
    as it is: no file, no process, no line on the queue, no document. *)
Theorem prose_changes_nothing (home : str) (writable : str -> bool)
    (popen : str -> option (list str)) (text : str) (st : app) :
  contains fence text = false ->
  extract_code_blocks text =
    [ (list_ascii_of_string "python", []);
      (list_ascii_of_string "javascript", []);
      (list_ascii_of_string "html", []);
      (list_ascii_of_string "css", []);
      (list_ascii_of_string "bash", []) ] /\
  process_code_blocks home writable popen text st = (st, inr tt).
Proof.
  intros H. split.
  - unfold extract_code_blocks, languages. cbn [map].
    now rewrite !re_findall_blocks, !fenced_blocks_none.
  - rewrite process_code_blocks_unfold. unfold fragments.
    now rewrite !fenced_blocks_none.
Qed.

Lemma prose_changes_nothing_witness :
  extract_code_blocks "No code today." =
    [ (list_ascii_of_string "python", []);
      (list_ascii_of_string "javascript", []);
      (list_ascii_of_string "html", []);
      (list_ascii_of_string "css", []);
      (list_ascii_of_string "bash", []) ] /\
  process_code_blocks Example.home Example.writable Example.quiet
                      "No code today." Example.fresh =
  (Example.fresh, inr tt).
Proof.
  apply (@prose_changes_nothing Example.home Example.writable Example.quiet
           "No code today." Example.fresh).
  reflexivity.
Defined.

End Runner.

(** ** What is extracted *)

Module Extracted.

Import Py Re App Spec StrFacts ReFacts Fences.

Lemma split_at_here (p a b : str) :
  (forall a1 a2,
      a = a1 ++ a2 -> a2 <> [] -> startswith p (a2 ++ p ++ b) = false) ->
  split_at p (a ++ p ++ b) = Some (a, b).
Proof.
  induction a as [|c a IH]; intros H.
  - cbn [List.app]. rewrite split_at_unfold, startswith_app.
    f_equal. f_equal.
    pose proof (@startswith_skipn p (p ++ b) (startswith_app p b)) as E.
    now apply app_inv_head in E.
  - rewrite split_at_unfold.
    rewrite (H [] (c :: a) eq_refl) by discriminate.
    cbn [List.app]. rewrite IH; [reflexivity|].
    intros a1 a2 -> Ha2. apply (H (c :: a1) a2); [reflexivity | exact Ha2].
Qed.

Lemma contains_suffix (p a1 a2 : str) :
  contains p (a1 ++ a2) = false -> contains p a2 = false.
Proof.
  induction a1 as [|c a1 IH]; [trivial|].
  intros H. apply IH. simpl in H. now apply orb_false_elim in H as [_ H].
Qed.

Lemma startswith_false (p s : str) :
  contains p s = false -> startswith p s = false.
Proof. destruct s; simpl; now intros H%orb_false_elim. Qed.

(** A fence that begins inside [x] would show in [x] followed by two
    backticks. *)
Lemma fence_not_inside (x rest : str) :
  contains fence (x ++ "``") = false ->
  forall a1 a2,
    x = a1 ++ a2 -> a2 <> [] -> startswith fence (a2 ++ fence ++ rest) = false.
Proof.
  intros H a1 a2 -> Ha2. rewrite <- app_assoc in H.
  apply contains_suffix, startswith_false in H.
  destruct a2 as [|c [|d [|e a2]]]; [congruence|..]; exact H.
Qed.

Lemma tag_not_inside (tag pre x : str) :
  contains "`" pre = false ->
  forall a1 a2,
    pre = a1 ++ a2 -> a2 <> [] ->
    startswith (fence ++ tag) (a2 ++ (fence ++ tag) ++ x) = false.
Proof.
  intros H a1 a2 -> Ha2.
  apply contains_suffix, startswith_false in H.
  destruct a2 as [|c a2]; [congruence|].
  simpl in H. rewrite andb_true_r in H. simpl. now rewrite H.
Qed.

Lemma blocks_fuel (tag s : str) (f1 f2 : nat) :
  length s <= f1 -> length s <= f2 -> blocks f1 tag s = blocks f2 tag s.
Proof.
  intros H1 H2.
  rewrite <- (@findall_blocks tag (S (length s)) f1 None s) by lia.
  now apply findall_blocks; lia.
Qed.

(** X8. The first block of a language.  When the text before the first
    opening fence of a language holds no backtick, and no fence begins
    before the closing one, [extract_code_blocks] finds the block (what
    stands between the tag and the closing fence, trimmed) and goes on
    with the text after the closing fence.  What follows the tag at once
    belongs to the block: a fence tagged python3 opens a python block
    that begins with "3". *)
Theorem first_block (tag pre x rest : str) :
  contains "`" pre = false ->
  contains fence (x ++ "``") = false ->
  re_findall dotall (fence_re tag) (pre ++ fence ++ tag ++ x ++ fence ++ rest) =
  strip x :: re_findall dotall (fence_re tag) rest.
Proof.
  intros Hpre Hx. rewrite !re_findall_blocks. unfold fenced_blocks.
  set (text := pre ++ fence ++ tag ++ x ++ fence ++ rest).
  assert (Hl : length rest < length text).
  { unfold text. rewrite !length_app. cbn [length fence]. simpl. lia. }
  destruct (length text) as [|f] eqn:E; [lia|].
  rewrite blocks_unfold. unfold text.
  replace (pre ++ fence ++ tag ++ x ++ fence ++ rest)
    with (pre ++ (fence ++ tag) ++ (x ++ fence ++ rest))
    by now rewrite <- !app_assoc.
  rewrite split_at_here by now apply tag_not_inside.
  rewrite split_at_here by now apply fence_not_inside.
  f_equal. apply blocks_fuel; lia.
Qed.

Lemma first_block_witness :
  re_findall dotall (fence_re "python")
    ([] ++ fence ++ "python" ++ ("3" ++ [nl] ++ "print(1)" ++ [nl]) ++
     fence ++ []) =
  strip ("3" ++ [nl] ++ "print(1)" ++ [nl]) ::
  re_findall dotall (fence_re "python") [].
Proof.
  apply (@first_block "python" [] ("3" ++ [nl] ++ "print(1)" ++ [nl]) []);
    reflexivity.
Defined.

(** *** Every block is trimmed and holds no fence *)

Lemma lstrip_idem (s : str) : lstrip (lstrip s) = lstrip s.
Proof.
  destruct (lstrip s) as [|c t] eqn:E; [reflexivity|].
  apply lstrip_head in E. simpl. now rewrite E.
Qed.

Lemma rstrip_idem (s : str) : rstrip (rstrip s) = rstrip s.
Proof. unfold rstrip. now rewrite rev_involutive, lstrip_idem. Qed.

Lemma lstrip_rstrip (s : str) :
  lstrip s = s -> lstrip (rstrip s) = rstrip s.
Proof.
  intros H. destruct (rstrip_split s) as (ws & E & _).
  destruct (rstrip s) as [|c l] eqn:R; [reflexivity|].
  rewrite E in H. simpl in H. simpl.
  destruct (isspace c) eqn:Hc; [|reflexivity].
  exfalso.
  assert (Hlen : length (lstrip (l ++ ws)) <= length (l ++ ws)).
  { destruct (lstrip_split (l ++ ws)) as (ws' & E' & _).
    rewrite E' at 2. rewrite length_app. lia. }
  rewrite H in Hlen. simpl in Hlen. lia.
Qed.

Lemma strip_idem (s : str) : strip (strip s) = strip s.
Proof.
  unfold strip. rewrite lstrip_rstrip by apply lstrip_idem.
  apply rstrip_idem.
Qed.

Lemma strip_inside (s : str) :
  exists ws1 ws2, s = ws1 ++ strip s ++ ws2.
Proof.
  destruct (lstrip_split s) as (ws1 & E1 & _).
  destruct (rstrip_split (lstrip s)) as (ws2 & E2 & _).
  exists ws1, ws2. unfold strip. now rewrite <- E2.
Qed.

Lemma contains_strip (p s : str) :
  contains p s = false -> contains p (strip s) = false.
Proof.
  intros H. destruct (contains p (strip s)) eqn:E; [|reflexivity].
  apply contains_spec in E as (a & b & E).
  destruct (strip_inside s) as (ws1 & ws2 & Hs).
  assert (contains p s = true).
  { apply contains_spec. exists (ws1 ++ a), (b ++ ws2).
    rewrite Hs, E. now rewrite <- !app_assoc. }
  congruence.
Qed.

Lemma split_at_first (p : str) (a1 : str) :
  forall r a b,
    split_at p (a1 ++ p ++ r) = Some (a, b) -> length a <= length a1.
Proof.
  induction a1 as [|c a1 IH]; intros r a b.
  - cbn [List.app]. rewrite split_at_unfold, startswith_app.
    intros H. injection H as <- _. simpl. lia.
  - rewrite split_at_unfold.
    destruct (startswith p _).
    + intros H. injection H as <- _. simpl. lia.
    + cbn [List.app].
      destruct (split_at p (a1 ++ p ++ r)) as [[a' b']|] eqn:E;
        [|discriminate].
      intros H. injection H as <- _. apply IH in E. simpl. lia.
Qed.

Lemma split_at_before (p s a b : str) :
  p <> [] -> split_at p s = Some (a, b) -> contains p a = false.
Proof.
  intros Hp H. destruct (contains p a) eqn:E; [|reflexivity].
  apply contains_spec in E as (a1 & a2 & ->).
  pose proof (split_at_app _ _ H) as Hs.
  rewrite Hs in H. rewrite <- !app_assoc in H.
  apply split_at_first in H. rewrite !length_app in H.
  destruct p; [congruence|]. simpl in H. lia.
Qed.

Lemma blocks_trimmed (tag : str) (f : nat) :
  forall text,
    Forall (fun b => strip b = b /\ contains fence b = false)
           (blocks f tag text).
Proof.
  induction f as [|f IH]; intros text; [constructor|].
  rewrite blocks_unfold.
  destruct (split_at (fence ++ tag) text) as [[pre s]|]; [|constructor].
  destruct (split_at fence s) as [[body rest]|] eqn:E; [|constructor].
  constructor; [|apply IH].
  split; [apply strip_idem|].
  apply contains_strip. eapply split_at_before; [|exact E]. discriminate.
Qed.

(** X9. Every block [extract_code_blocks] returns is trimmed, and none
    holds a fence. *)
Theorem blocks_are_trimmed (text : str) :
  Forall (fun item =>
            Forall (fun b => strip b = b /\ contains fence b = false)
                   (snd item))
         (extract_code_blocks text).
Proof.
  unfold extract_code_blocks, languages. cbn [map].
  rewrite !re_findall_blocks.
  repeat constructor; apply blocks_trimmed.
Qed.

End Extracted.

(** ** The history of the prompt box *)

Module History.

Import Py Re App Editor Window Terms StrFacts.

Lemma last_entry_snoc (h : list str) (x : str) :
  last_entry (h ++ [x]) = Some x.
Proof. unfold last_entry. now rewrite rev_unit. Qed.

Lemma last_entry_last (h : list str) (x : str) :
  last_entry h = Some x -> truthy_list h = true /\ last h [] = x.
Proof.
  unfold last_entry. destruct (rev h) as [|y r] eqn:E; [discriminate|].
  intros H. injection H as ->.
  apply (f_equal (@rev str)) in E. rewrite rev_involutive in E. subst h.
  simpl. rewrite last_last. split; [|reflexivity].
  now destruct (rev r).
Qed.

Lemma last_entry_none (h : list str) : last_entry h = None -> h = [].
Proof.
  unfold last_entry. destruct (rev h) as [|y r] eqn:E; [|discriminate].
  intros _. apply (f_equal (@rev str)) in E. now rewrite rev_involutive in E.
Qed.

(** One edit. *)
Lemma textChanged_history (t : str) (w : window) :
  history (textChanged t w) =
  history w ++ squeeze (last_entry (history w)) [t].
Proof.
  unfold textChanged, save_to_history. cbn [on_base set_text_entry modify fst].
  cbn [base text_entry history]. cbn [squeeze].
  destruct (last_entry (history w)) as [p|] eqn:E.
  - apply last_entry_last in E as [-> ->]. cbn [andb].
    destruct (eqb p t); cbn [history]; now rewrite ?app_nil_r.
  - apply last_entry_none in E. rewrite E. reflexivity.
Qed.

Lemma edits_history (ts : list str) :
  forall w,
    history (edits ts w) =
    history w ++ squeeze (last_entry (history w)) ts.
Proof.
  induction ts as [|t r IH]; intros w.
  - cbn. now rewrite app_nil_r.
  - change (edits (t :: r) w) with (edits r (textChanged t w)).
    rewrite IH, textChanged_history. cbn [squeeze].
    destruct (last_entry (history w)) as [p|] eqn:E.
    + destruct (eqb p t).
      * now rewrite app_nil_r, E.
      * now rewrite last_entry_snoc, <- app_assoc.
    + now rewrite last_entry_snoc, <- app_assoc.
Qed.

Lemma squeeze_no_repeat (ts : list str) :
  forall prev,
    no_repeat (squeeze prev ts) /\
    (forall p x r, prev = Some p -> squeeze prev ts = x :: r -> p <> x).
Proof.
  induction ts as [|t r IH]; intros prev.
  - split; [exact I | discriminate].
  - assert (Hnew : no_repeat (t :: squeeze (Some t) r)).
    { destruct (IH (Some t)) as [Hn Hh]. cbn [no_repeat]. split; [|exact Hn].
      destruct (squeeze (Some t) r) as [|y s] eqn:E; [exact I|].
      now apply (Hh t y s). }
    cbn [squeeze]. destruct prev as [p|].
    + destruct (eqb p t) eqn:E.
      * apply IH.
      * split; [exact Hnew|].
        intros p' x s Hp H. injection Hp as <-. injection H as <- _.
        intros ->. now rewrite (proj2 (eqb_eq _ _) eq_refl) in E.
    + split; [exact Hnew | discriminate].
Qed.

Lemma textChanged_index (t : str) (w : window) :
  history_index w = (Z.of_nat (length (history w)) - 1)%Z ->
  history_index (textChanged t w) =
  (Z.of_nat (length (history (textChanged t w))) - 1)%Z.
Proof.
  unfold textChanged, save_to_history. cbn [on_base set_text_entry modify fst].
  cbn [base text_entry history history_index].
  now destruct (truthy_list (history w) && eqb (last (history w) []) t).
Qed.

Lemma edits_index (ts : list str) :
  forall w,
    history_index w = (Z.of_nat (length (history w)) - 1)%Z ->
    history_index (edits ts w) =
    (Z.of_nat (length (history (edits ts w))) - 1)%Z.
Proof.
  induction ts as [|t r IH]; intros w H; [exact H|].
  apply (IH (textChanged t w)). now apply textChanged_index.
Qed.

Lemma textChanged_last (t : str) (w : window) :
  last (history (textChanged t w)) [] = t /\
  text_entry (base (textChanged t w)) = t.
Proof.
  unfold textChanged, save_to_history. cbn [on_base set_text_entry modify fst].
  cbn [base text_entry history].
  destruct (truthy_list (history w)) eqn:T; cbn [andb].
  - destruct (eqb (last (history w) []) t) eqn:E; cbn [history base text_entry].
    + apply eqb_eq in E. now split.
    + now rewrite last_last.
  - cbn [history base text_entry]. now rewrite last_last.
Qed.

(** X10. The history of the prompt box.  [save_to_history] runs at every
    change of the prompt; from a new window, after the texts [ts] have
    been entered one after the other, the history holds [ts] without the
    texts that repeat the one before them, so no entry repeats the one
    before it; the index is that of the last entry (-1 for an empty
    history); and the last entry is the text now in the box. *)
Theorem history_follows_the_edits (b : app) (ts : list str) :
  let w := edits ts (created b) in
  history w = squeeze None ts /\
  no_repeat (history w) /\
  history_index w = (Z.of_nat (length (history w)) - 1)%Z /\
  (forall ts' t,
      ts = ts' ++ [t] ->
      last (history w) [] = t /\ text_entry (base w) = t).
Proof.
  intros w. subst w.
  assert (E : history (edits ts (created b)) = squeeze None ts)
    by (now rewrite edits_history).
  split; [exact E|]. split; [|split].
  - rewrite E. apply squeeze_no_repeat.
  - now apply edits_index.
  - intros ts' t ->. unfold edits. rewrite fold_left_app. cbn [fold_left].
    apply textChanged_last.
Qed.

End History.

(** ** From a command to the terminal *)

Module Terminal.

Import Py Re App Editor Window Terms StrFacts Gate.

Lemma process_terminal_queue_drains (turns : nat) :
  forall w,
    length (queue (base w)) <= turns ->
    terminal (process_terminal_queue turns w) =
      terminal w ++ queue (base w) /\
    queue (base (process_terminal_queue turns w)) = [] /\
    spawned (base (process_terminal_queue turns w)) = spawned (base w) /\
    files (base (process_terminal_queue turns w)) = files (base w).
Proof.
  induction turns as [|n IH]; intros w Hl.
  - destruct (queue (base w)) eqn:E; [|simpl in Hl; lia].
    cbn [process_terminal_queue]. now rewrite E, app_nil_r.
  - cbn [process_terminal_queue].
    destruct (queue (base w)) as [|output rest] eqn:E.
    + now rewrite E, app_nil_r.
    + destruct (IH (terminal_append output rest w)) as (Ht & Hq & Hs & Hf).
      { cbn. simpl in Hl. lia. }
      rewrite Ht, Hq, Hs, Hf. cbn. now rewrite <- app_assoc.
Qed.

Section Process.

Variable popen : str -> option (list str).

(** The lines a command puts on the queue. *)
Lemma output_queue (lines : list str) :
  forall st,
    exists st',
      for_each lines
        (fun output =>
           if truthy output then queue_put (strip output) else ret tt) st =
      (st', inr tt) /\
      queue st' = queue st ++ map strip (filter truthy lines).
Proof.
  induction lines as [|l lines IH]; intros st.
  - exists st. cbn. now rewrite app_nil_r.
  - cbn [for_each filter]. unfold bind at 1.
    destruct (truthy l).
    + cbn [queue_put modify].
      match goal with
      | |- context [for_each lines _ ?s] => destruct (IH s) as (st' & E & Hq)
      end.
      exists st'. split; [exact E|]. rewrite Hq. cbn. now rewrite <- app_assoc.
    + destruct (IH st) as (st' & E & Hq). now exists st'.
Qed.

Lemma execute_safe_command_queue (command : str) (lines : list str)
    (st : app) :
  any (fun p => contains p command) unsafe_patterns = false ->
  popen command = Some lines ->
  exists st',
    execute_safe_command popen command st = (st', inr tt) /\
    queue st' =
      queue st ++ ("$ " ++ command) :: map strip (filter truthy lines).
Proof.
  intros Hg Hp. unfold execute_safe_command. rewrite Hg.
  unfold bind at 1. cbn [queue_put modify]. unfold bind at 1.
  unfold Popen. rewrite Hp. unfold bind at 1. cbn [record_spawn modify ret].
  match goal with
  | |- context [for_each lines ?b ?s] =>
      destruct (output_queue lines s) as (st' & E & Hq)
  end.
  exists st'. split; [exact E|]. rewrite Hq. cbn. now rewrite <- app_assoc.
Qed.

(** X11. A command that passes the gate and is started shows in the
    terminal: once [process_terminal_queue] has run, the terminal holds,
    after what it held and what was waiting on the queue, the line of the
    command with "$ " in front and then the lines the process printed while
    it ran, each trimmed, the empty reads left out, in their order; and the
    queue is empty. *)
Theorem terminal_shows_the_command (command : str) (lines : list str)
    (w : window) (turns : nat) :
  any (fun p => contains p command) unsafe_patterns = false ->
  popen command = Some lines ->
  length (queue (base w)) + 1 + length lines <= turns ->
  let (w1, r) := on_base (execute_safe_command popen command) w in
  let w2 := process_terminal_queue turns w1 in
  r = inr tt /\
  terminal w2 =
    terminal w ++ queue (base w) ++
    ("$ " ++ command) :: map strip (filter truthy lines) /\
  queue (base w2) = [].
Proof.
  intros Hg Hp Ht. unfold on_base.
  destruct (@execute_safe_command_queue command lines (base w) Hg Hp)
    as (st' & -> & Hq).
  split; [reflexivity|].
  match goal with
  | |- context [process_terminal_queue turns ?x] =>
      destruct (@process_terminal_queue_drains turns x) as (T & Q & _)
  end.
  - cbn [base]. rewrite Hq, length_app. cbn [length].
    rewrite length_map.
    pose proof (filter_length_le truthy lines). lia.
  - split; [|exact Q]. rewrite T. cbn [base terminal].
    now rewrite Hq.
Qed.

End Process.

Lemma terminal_shows_the_command_witness :
  let (w1, r) :=
    on_base (execute_safe_command Example.quiet "echo hello")
            (created Example.fresh) in
  let w2 := process_terminal_queue 1 w1 in
  r = inr tt /\
  terminal w2 =
    terminal (created Example.fresh) ++
    queue (base (created Example.fresh)) ++
    ("$ " ++ "echo hello") :: map strip (filter truthy []) /\
  queue (base w2) = [].
Proof.
  apply (@terminal_shows_the_command Example.quiet "echo hello" []
           (created Example.fresh) 1);
    [reflexivity | reflexivity | simpl; lia].
Defined.

End Terminal.

(** ** The preview of the code editor *)

Module Preview.

Import Py Re App Spec Editor Terms StrFacts Assembly.

Lemma wrappers_preview_template (code : str) :
  wrappers (preview_template code) = 1 + wrappers code.
Proof.
  change (preview_template code) with
    (("<html>" ++ [nl] ++ "<head>" ++ [nl] ++ "<style></style>" ++ [nl] ++
      "</head>" ++ [nl] ++ "<body>") ++ nl ::
     code ++ nl :: ("</body>" ++ [nl] ++ "</html>")).
  rewrite !wrappers_nl.
  change (wrappers ("<html>" ++ [nl] ++ "<head>" ++ [nl] ++
                    "<style></style>" ++ [nl] ++ "</head>" ++ [nl] ++
                    "<body>")) with 1.
  change (wrappers ("</body>" ++ [nl] ++ "</html>")) with 0.
  lia.
Qed.

(** X12. [update_live_preview_from_code_editor] leaves everything as it is
    when the editor holds nothing but white space.  Otherwise it shows the
    trimmed code, as it is when it holds "<html" in any letter case, and
    inside a document with an empty style block and the code in the body
    when it does not: the document shown has [max 1 n] wrappers, [n] being
    the number in the code, and the editor itself is not changed. *)
Theorem update_live_preview_from_code_editor_spec (st : app) :
  let code := strip (code_editor st) in
  let (st', r) := update_live_preview_from_code_editor st in
  r = inr tt /\
  (code = [] -> st' = st) /\
  (code <> [] ->
   exists doc,
     live_preview st' = Some doc /\
     wrappers doc = Nat.max 1 (wrappers code) /\
     (wrappers code = 0 -> doc = preview_template code) /\
     (wrappers code <> 0 -> doc = code) /\
     code_editor st' = code_editor st /\
     activity st' =
       activity st ++
       [list_ascii_of_string "Live preview updated with edited code."]).
Proof.
  intros code. unfold update_live_preview_from_code_editor.
  unfold bind at 1. cbn [gets]. fold code.
  destruct code as [|c code'] eqn:E.
  - cbn. split; [reflexivity|]. split; [reflexivity | congruence].
  - cbn [truthy negb]. rewrite <- E.
    destruct (contains "<html" (lower code)) eqn:C; cbn [negb];
      unfold bind at 1; cbn [setHtml modify activity_log].
    + assert (Hn : wrappers code <> 0).
      { unfold wrappers. rewrite occurrences_none. congruence. }
      split; [reflexivity|]. split; [congruence|]. intros _.
      exists code. cbn [live_preview code_editor activity].
      split; [reflexivity|]. split; [lia|]. split; [intros; lia|].
      now repeat split.
    + apply occurrences_none in C. change (wrappers code = 0) in C.
      split; [reflexivity|]. split; [congruence|]. intros _.
      exists (preview_template code). cbn [live_preview code_editor activity].
      rewrite wrappers_preview_template, C.
      repeat split; trivial. congruence.
Qed.

End Preview.

(** ** The two animations *)

Module Timers.

Import Py Re App Spec Editor Terms StrFacts.

Lemma fire_app (f : closure) (a b : nat) :
  forall due st,
    fire f (a + b) due st = (due' <- fire f a due ;; fire f b due') st.
Proof.
  induction a as [|a IH]; intros due st.
  - reflexivity.
  - cbn [Nat.add fire]. destruct due as [index|].
    + unfold bind.
      destruct (f index st) as [st1 [e|next]]; [reflexivity|].
      rewrite IH. reflexivity.
    + unfold bind. cbn [ret]. now destruct b.
Qed.

Lemma update_live_preview_total (st : app) :
  snd (update_live_preview_from_code_editor st) = inr tt.
Proof.
  unfold update_live_preview_from_code_editor. unfold bind at 1. cbn [gets].
  destruct (strip (code_editor st)); [reflexivity|]. cbn [truthy negb].
  now destruct (negb (contains "<html" (lower _))).
Qed.

Section CodeAnimation.

Variable plain : str -> str.
Variable lines : list str.
Variable st : app.

Lemma update_line_shows (i : nat) :
  i < length lines ->
  forall t,
    update_line plain lines i (fst (set_code_editor t st)) =
    (shown plain lines st (i + 1), inr (Some (i + 1))).
Proof.
  intros Hi t. unfold update_line.
  apply Nat.ltb_lt in Hi. rewrite Hi. reflexivity.
Qed.

Lemma fire_update_line (k : nat) :
  forall i,
    i + S k <= length lines ->
    forall t,
      fire (update_line plain lines) (S k) (Some i)
           (fst (set_code_editor t st)) =
      (shown plain lines st (i + S k), inr (Some (i + S k))).
Proof.
  induction k as [|k IH]; intros i Hk t.
  - cbn [fire]. unfold bind at 1. rewrite update_line_shows by lia.
    cbn [fire ret]. reflexivity.
  - change (fire (update_line plain lines) (S (S k)) (Some i)
                 (fst (set_code_editor t st)))
      with ((next <- update_line plain lines i ;;
             fire (update_line plain lines) (S k) next)
              (fst (set_code_editor t st))).
    unfold bind at 1. rewrite update_line_shows by lia.
    unfold shown at 1. rewrite IH by lia.
    now replace (i + 1 + S k) with (i + S (S k)) by lia.
Qed.

Lemma update_line_ends (t : str) :
  update_line plain lines (length lines) (fst (set_code_editor t st)) =
  (fst (update_live_preview_from_code_editor (fst (set_code_editor t st))),
   inr None).
Proof.
  unfold update_line. rewrite Nat.ltb_irrefl. unfold bind.
  pose proof (update_live_preview_total (fst (set_code_editor t st))) as H.
  destruct (update_live_preview_from_code_editor _) as [st' r].
  simpl in H. now rewrite H.
Qed.

End CodeAnimation.

(** X13. The animation of the code editor.  [animate_code_update] clears
    the editor and shows the first line of the new code at once; every
    timer event shows one line more; the event after the last line
    reloads the preview from the editor and sets no timer.  So for code
    of [n] lines the animation takes [n] timer events, the editor holds
    the first [k + 1] lines after [k] of them, and at the end it holds all
    the lines joined by line feeds and the preview shows them.  Code
    without a line leaves the editor empty and the preview as it was, and
    sets no timer. *)
Theorem animate_code_update_runs (plain : str -> str) (new_code : str)
    (st : app) :
  let lines := splitlines new_code in
  let n := length lines in
  (n = 0 ->
   animate_code_update plain new_code st =
   (fst (set_code_editor [] st), inr ([], None))) /\
  (0 < n ->
   animate_code_update plain new_code st =
   (shown plain lines st 1, inr (lines, Some 1)) /\
   (forall k,
       k < n ->
       fire (update_line plain lines) k (Some 1) (shown plain lines st 1) =
       (shown plain lines st (k + 1), inr (Some (k + 1)))) /\
   fire (update_line plain lines) n (Some 1) (shown plain lines st 1) =
   (fst (update_live_preview_from_code_editor
           (fst (set_code_editor (plain (join [nl] lines)) st))),
    inr None)).
Proof.
  intros lines n. subst n. split.
  - intros Hn. unfold animate_code_update. fold lines.
    destruct lines; [|discriminate]. reflexivity.
  - intros Hn.
    assert (Hfire : forall k,
               k < length lines ->
               fire (update_line plain lines) k (Some 1)
                    (shown plain lines st 1) =
               (shown plain lines st (k + 1), inr (Some (k + 1)))).
    { intros [|k] Hk; [reflexivity|].
      unfold shown at 1. rewrite fire_update_line by lia.
      now replace (1 + S k) with (S k + 1) by lia. }
    split; [|split; [exact Hfire|]].
    + unfold animate_code_update. fold lines. unfold bind at 1.
      cbn [clear set_code_editor modify]. unfold bind at 1.
      change (update_line plain lines 0 ?s) with
        (update_line plain lines 0 (fst (set_code_editor [] st))).
      now rewrite update_line_shows by lia.
    + replace (length lines) with ((length lines - 1) + 1) at 1 by lia.
      rewrite fire_app. unfold bind at 1. rewrite Hfire by lia.
      replace (length lines - 1 + 1) with (length lines) by lia.
      cbn [fire]. unfold bind at 1. unfold shown.
      rewrite update_line_ends. cbn [fire ret].
      now rewrite firstn_all.
Qed.

(** *** What the editor shows at the end *)

Lemma splitlines_from_lines (s : str) :
  forall cur,
    Forall (fun c => is_linebreak c = false) cur ->
    Forall (Forall (fun c => is_linebreak c = false)) (splitlines_from cur s).
Proof.
  induction s as [s IH] using (induction_ltof1 _ (@length ascii)).
  unfold ltof in IH. intros cur Hcur.
  assert (Hrev : Forall (fun c => is_linebreak c = false) (rev cur))
    by (apply Forall_rev; exact Hcur).
  destruct s as [|c t]; cbn [splitlines_from].
  - destruct cur; repeat constructor. exact Hrev.
  - destruct (is_linebreak c) eqn:E.
    + constructor; [exact Hrev|].
      destruct t as [|d t']; [constructor|].
      destruct ((ord c =? 13) && (ord d =? 10));
        apply IH; simpl; try lia; constructor.
    + apply IH; [simpl; lia|]. now constructor.
Qed.

Lemma splitlines_from_nonempty (s : str) :
  forall cur, cur <> [] \/ s <> [] -> splitlines_from cur s <> [].
Proof.
  induction s as [|c t IH]; intros cur H; cbn [splitlines_from].
  - destruct cur; [destruct H; congruence | discriminate].
  - destruct (is_linebreak c); [discriminate|].
    apply IH. left. discriminate.
Qed.

Lemma chomp_cons (c : ascii) (t : str) :
  chr_eqb c nl = false \/ t <> [] -> chomp (c :: t) = c :: chomp t.
Proof.
  intros H. unfold chomp. cbn [rev].
  destruct (rev t) as [|x r] eqn:E.
  - apply (f_equal (@rev ascii)) in E. rewrite rev_involutive in E.
    cbn [rev] in E. subst t. cbn [List.app rev].
    destruct H as [-> | H]; [reflexivity | congruence].
  - cbn [List.app].
    apply (f_equal (@rev ascii)) in E. rewrite rev_involutive in E.
    subst t. destruct (chr_eqb x nl); [|reflexivity].
    cbn [rev]. now rewrite rev_app_distr.
Qed.

Lemma join_cons (sep x : str) (l : list str) :
  l <> [] -> join sep (x :: l) = x ++ sep ++ join sep l.
Proof. destruct l; [congruence | reflexivity]. Qed.

Lemma linebreak_nl : is_linebreak nl = true.
Proof. reflexivity. Qed.

Lemma join_splitlines_from (s : str) :
  Forall (fun c => is_linebreak c = true -> c = nl) s ->
  forall cur,
    join [nl] (splitlines_from cur s) = rev cur ++ chomp s.
Proof.
  induction s as [|c t IH]; intros Hs cur; cbn [splitlines_from].
  - destruct cur as [|x cur]; [reflexivity|].
    cbn [join]. now rewrite app_nil_r.
  - apply Forall_cons_iff in Hs as [Hc Ht].
    destruct (is_linebreak c) eqn:E.
    + rewrite (Hc eq_refl).
      destruct t as [|d t'].
      * cbn. now rewrite app_nil_r.
      * change ((ord nl =? 13) && (ord d =? 10)) with false. cbv iota.
        rewrite join_cons.
        2:{ apply splitlines_from_nonempty. right. discriminate. }
        rewrite IH by exact Ht.
        rewrite (@chomp_cons nl (d :: t')) by (right; discriminate).
        reflexivity.
    + rewrite IH by exact Ht. cbn [rev]. rewrite <- app_assoc.
      rewrite chomp_cons; [reflexivity|].
      left. apply chr_eqb_neq. intros ->. now rewrite linebreak_nl in E.
Qed.

(** X14. What the code editor is given at the end of the animation: the
    lines of the new code, none of which holds a line boundary, joined by
    line feeds.  For code whose only line boundaries are line feeds that
    is the code itself, without its last character when that is a line
    feed. *)
Theorem editor_text_is_normalised (new_code : str) :
  Forall (Forall (fun c => is_linebreak c = false)) (splitlines new_code) /\
  (Forall (fun c => is_linebreak c = true -> c = nl) new_code ->
   join [nl] (splitlines new_code) = chomp new_code).
Proof.
  split.
  - apply splitlines_from_lines. constructor.
  - intros H. unfold splitlines. now rewrite join_splitlines_from.
Qed.

(** *** The typewriter of the output area *)

Section Typewriter.

Variable home : str.
Variable writable : str -> bool.
Variable popen : str -> option (list str).
Variable st : app.

Lemma update_text_types (text : str) (i : nat) :
  i < length text ->
  forall t,
    update_text home writable popen text i (fst (set_output_area t st)) =
    (typed text st (i + 1), inr (Some (i + 1))).
Proof.
  intros Hi t. unfold update_text.
  apply Nat.ltb_lt in Hi. rewrite Hi. reflexivity.
Qed.

Lemma fire_update_text (text : str) (k : nat) :
  forall i,
    i + S k <= length text ->
    forall t,
      fire (update_text home writable popen text) (S k) (Some i)
           (fst (set_output_area t st)) =
      (typed text st (i + S k), inr (Some (i + S k))).
Proof.
  induction k as [|k IH]; intros i Hk t.
  - cbn [fire]. unfold bind at 1. rewrite update_text_types by lia.
    cbn [fire ret]. reflexivity.
  - change (fire (update_text home writable popen text) (S (S k)) (Some i)
                 (fst (set_output_area t st)))
      with ((next <- update_text home writable popen text i ;;
             fire (update_text home writable popen text) (S k) next)
              (fst (set_output_area t st))).
    unfold bind at 1. rewrite update_text_types by lia.
    unfold typed at 1. rewrite IH by lia.
    now replace (i + 1 + S k) with (i + S (S k)) by lia.
Qed.

Lemma update_text_ends (text t : str) :
  update_text home writable popen text (length text)
              (fst (set_output_area t st)) =
  let (st', r) :=
    process_code_blocks home writable popen text
                        (fst (set_output_area t st)) in
  (st', match r with inl e => inl e | inr _ => inr None end).
Proof.
  unfold update_text. rewrite Nat.ltb_irrefl. unfold bind.
  now destruct (process_code_blocks _ _ _ _ _) as [st' [e|[]]].
Qed.

(** X15. The typewriter of the output area.  [handle_result] clears the
    output area and shows the first character of the text at once; every
    timer event shows one character more; the event after the last
    character runs [process_code_blocks] on the text, once, and sets no
    timer.  So after [k] timer events the output area holds the first
    [k + 1] characters, and after as many events as the text has
    characters the window is as if the text had been put in the output
    area and [process_code_blocks] run on it at once. *)
Theorem typewriter_runs (text : str) :
  (forall k,
      k < length text ->
      (due <- Editor.handle_result home writable popen text ;;
       fire (update_text home writable popen text) k due) st =
      (typed text st (k + 1), inr (Some (k + 1)))) /\
  (due <- Editor.handle_result home writable popen text ;;
   fire (update_text home writable popen text) (length text) due) st =
  (let (st', r) := App.handle_result home writable popen text st in
   (st', match r with inl e => inl e | inr _ => inr None end)).
Proof.
  assert (Hstart : 0 < length text ->
            Editor.handle_result home writable popen text st =
            (typed text st 1, inr (Some 1))).
  { intros Hn. unfold Editor.handle_result, animate_text_output.
    unfold bind at 1. cbn [set_output_area modify]. unfold bind at 1.
    cbn [set_output_area modify].
    change (update_text home writable popen text 0 ?s) with
      (update_text home writable popen text 0 (fst (set_output_area [] st))).
    now rewrite update_text_types by lia. }
  assert (Hfire : forall k,
             k < length text ->
             fire (update_text home writable popen text) k (Some 1)
                  (typed text st 1) =
             (typed text st (k + 1), inr (Some (k + 1)))).
  { intros [|k] Hk; [reflexivity|].
    unfold typed at 1. rewrite fire_update_text by lia.
    now replace (1 + S k) with (S k + 1) by lia. }
  split.
  - intros k Hk. unfold bind at 1. rewrite Hstart by lia. now apply Hfire.
  - destruct (length text) as [|n] eqn:En.
    + apply length_zero_iff_nil in En. subst text. reflexivity.
    + unfold bind at 1. rewrite Hstart by lia.
      replace (S n) with (n + 1) at 1 by lia.
      rewrite fire_app. unfold bind at 1. rewrite Hfire by lia.
      cbn [fire]. unfold bind at 1. unfold typed.
      replace (n + 1) with (length text) by lia.
      rewrite update_text_ends, firstn_all.
      unfold App.handle_result. unfold bind at 1.
      cbn [set_output_area modify].
      change (process_code_blocks home writable popen text ?s) with
        (process_code_blocks home writable popen text
           (fst (set_output_area text st))).
      now destruct (process_code_blocks _ _ _ _ _) as [st' [e|[]]].
Qed.

End Typewriter.

End Timers.

(** ** Code modification, from the click to the slot *)

Module Modification.

Import Py Re App Spec Terms StrFacts.

Section World.

Variable home : str.
Variable writable : str -> bool.
Variable popen : str -> option (list str).
Variable provider : nat -> str -> exn + response.

Lemma apply_code_changes_worker_run (instructions current_code : str)
    (st : app) :
  apply_code_changes_worker provider instructions current_code st =
  (fst (emit (modification_signal provider instructions current_code st)
          (fst (record_call
                  (modification_prompt instructions current_code) st))),
   inr tt).
Proof.
  unfold apply_code_changes_worker, modification_signal, attempt, try_except.
  unfold bind at 1 2. unfold generate_content. unfold bind at 1.
  cbn [gets]. unfold bind at 1. cbn [record_call modify].
  destruct (provider _ _) as [e|resp]; cbn [lift raise ret].
  - reflexivity.
  - unfold bind, get_text, lift.
    destruct (text resp) as [e|t]; reflexivity.
Qed.

Lemma apply_code_changes_run (st : app) :
  strip (edit_instructions st) <> [] ->
  apply_code_changes st =
  (fst (submit (modify_task (strip (edit_instructions st)) (code_editor st))
          (fst (set_apply_changes_btn false st))),
   inr tt).
Proof.
  intros H. unfold apply_code_changes. unfold bind at 1. cbn [gets].
  destruct (strip (edit_instructions st)); [congruence|]. reflexivity.
Qed.

(** X16. A click on Apply Changes, followed through.  With nothing but
    white space as instructions nothing happens.  Otherwise the button is
    disabled and one task is given to the pool, with the trimmed
    instructions and the code of the editor; the task emits one
    notification, and the slot of that notification ends the round: when
    the provider answered, the animation of the new code is started and
    the button is enabled again; when it raised, the error is shown and
    the button stays disabled. *)
Theorem apply_code_changes_round (st : app) :
  let instructions := strip (edit_instructions st) in
  let t := modify_task instructions (code_editor st) in
  let st1 := fst (apply_code_changes st) in
  let st2 := fst (run_task provider t st1) in
  let s := modification_signal provider instructions (code_editor st) st in
  let st3 := fst (slot home writable popen s st2) in
  (instructions = [] -> apply_code_changes st = (st, inr tt)) /\
  (instructions <> [] ->
   snd (apply_code_changes st) = inr tt /\
   apply_changes_btn_enabled st1 = false /\
   running_tasks st1 = running_tasks st ++ [t] /\
   snd (run_task provider t st1) = inr tt /\
   emitted st2 = emitted st ++ [s] /\
   snd (slot home writable popen s st2) = inr tt /\
   match attempt provider (length (provider_calls st))
                 (modification_prompt instructions (code_editor st)) with
   | inr new_code =>
       s = code_modification new_code /\
       code_animation st3 = Some new_code /\
       apply_changes_btn_enabled st3 = true /\
       error_boxes st3 = error_boxes st
   | inl e =>
       s = error ("Error modifying code: " ++ str_of_exn e) /\
       error_boxes st3 =
         error_boxes st ++ ["Error modifying code: " ++ str_of_exn e] /\
       apply_changes_btn_enabled st3 = false /\
       code_animation st3 = code_animation st
   end).
Proof.
  intros instructions t st1 st2 s st3. split.
  - intros H. unfold apply_code_changes. unfold bind at 1. cbn [gets].
    fold instructions. now rewrite H.
  - intros H. subst st3 st2 st1 t.
    rewrite apply_code_changes_run by exact H. fold instructions.
    cbn [fst snd run_task]. rewrite apply_code_changes_worker_run.
    cbn [fst snd].
    assert (Es : modification_signal provider instructions (code_editor st)
                   (fst (submit (modify_task instructions (code_editor st))
                           (fst (set_apply_changes_btn false st)))) = s)
      by reflexivity.
    rewrite Es. clear Es.
    split; [reflexivity|]. split; [reflexivity|]. split; [reflexivity|].
    split; [reflexivity|]. split; [reflexivity|].
    unfold s, modification_signal.
    destruct (attempt provider _ _) as [e|new_code]; now repeat split.
Qed.

End World.

End Modification.

(** ** The styles *)

Module Styles.

Import Py Re App Editor Window Terms.

Lemma triggered_high_contrast (a : view_action) (w : window) :
  high_contrast (triggered a w) = high_contrast w.
Proof. now destruct a. Qed.

Lemma actions_high_contrast (l : list view_action) :
  forall w,
    high_contrast (fold_left (fun w a => triggered a w) l w) = high_contrast w.
Proof.
  induction l as [|a l IH]; intros w; [reflexivity|].
  cbn [fold_left]. now rewrite IH, triggered_high_contrast.
Qed.

Lemma triggered_sheets (a : view_action) (w : window) :
  high_contrast w = None ->
  let m := if checked_of a then dark else light in
  dark_mode (triggered a w) = checked_of a /\
  style_sheet (triggered a w) = window_sheet (style_settings m) /\
  terminal_style_sheet (triggered a w) = terminal_sheet (style_settings m).
Proof.
  intros H. destruct a as [[|]|[|]]; cbn [checked_of];
    unfold triggered, toggle_dark_mode, apply_current_style,
      getattr_high_contrast;
    cbn [dark_mode high_contrast style_sheet terminal_style_sheet];
    rewrite H; now repeat split.
Qed.

(** X17. The attribute [high_contrast] that [apply_current_style] reads is
    set nowhere, and the action High Contrast Mode is connected to
    [toggle_dark_mode] like the action Dark Mode.  So whatever actions of
    the View menu are triggered in a new window, the style sheets are
    those of the dark style when the last action left its box checked and
    those of the light style when it did not; the style sheets of the
    high-contrast style are never applied. *)
Theorem high_contrast_is_never_applied (b : app) (l : list view_action)
    (a : view_action) :
  let w := fold_left (fun w a => triggered a w) (l ++ [a]) (created b) in
  let m := if checked_of a then dark else light in
  high_contrast w = None /\
  style_sheet w = window_sheet (style_settings m) /\
  terminal_style_sheet w = terminal_sheet (style_settings m) /\
  style_sheet w <> window_sheet (style_settings high_contrast_mode) /\
  terminal_style_sheet w <> terminal_sheet (style_settings high_contrast_mode).
Proof.
  intros w m. subst w. rewrite fold_left_app. cbn [fold_left].
  set (w0 := fold_left (fun w a => triggered a w) l (created b)).
  assert (H0 : high_contrast w0 = None) by apply actions_high_contrast.
  destruct (triggered_sheets a w0 H0) as (_ & Hs & Ht).
  split; [now rewrite triggered_high_contrast|].
  rewrite Hs, Ht. split; [reflexivity|]. split; [reflexivity|].
  subst m. destruct (checked_of a); split; discriminate.
Qed.

End Styles.
